(** * Agent Coordinator: wave scheduling of a task DAG

    Shallow embedding of [AgentCoordinator] (agents/coordinator.ts) and of
    the [TaskStep] interface (agents/executor.ts).

    The task array is a list; a task object is referred to by its position
    in that list, so that the in-place mutations of the source
    ([task.status = ...]) become [alter] at that position and the
    references held by [taskMap] and [readyTasks] become positions.

    The source is [async] code on a single JavaScript thread: between two
    [await]s a closure runs atomically.  One step of the machine below is
    one such atomic segment: either the body of the [while] loop up to its
    next [await], or one closure of [readyTasks.map(async (task) => ...)]
    from one [await] to the next.  Which suspended closure is resumed
    next, and how the call it awaited (a Lark notification or an agent
    run) settled, is not decided by the coordinator; it is supplied from
    outside as a [Choice].  Properties are proved for every choice, hence
    for every interleaving and every behaviour of agents and notifier.

    [await Promise.all(...)] is rejected as soon as one closure is
    rejected, and [executeTaskDAG] with it; the machine stops there
    ([Aborted]), with the task array as it is at that moment.

    The later parts embed what surrounds the coordinator: the task
    decomposer (agents/task-decomposer.ts), whose plans it runs,
    [executeMiyabiTask] (agents/executor.ts), which calls it, and the
    token cache, [sendMessage] and [markdownToLarkBlocks] of the Lark
    client (lark-mcp/client.ts), which its notifiers call. *)

From stdpp Require Import gmap strings list fin_maps pretty.

Open Scope string_scope.
Open Scope nat_scope.

(** ** Data model *)

Inductive Status := pending | running | completed | failed.

#[global] Instance Status_eq_dec : EqDecision Status.
Proof. solve_decision. Defined.

(** Values of type [any]: what an agent returns. *)
#[local] Unset Elimination Schemes.
Inductive Any :=
| AUndefined
| ABool (b : bool)
| ANum (n : Z)
| AStr (s : string)
| AArr (xs : list Any)
| AObj (fields : list (string * Any)).
#[local] Set Elimination Schemes.

Record TaskStep := mkTaskStep {
  id : string;
  name : string;
  description : string;
  agentType : string;
  dependencies : list string;
  status : Status;
  result : option Any;
  error : option string
}.

Definition setStatus (s : Status) (t : TaskStep) : TaskStep :=
  mkTaskStep (id t) (name t) (description t) (agentType t) (dependencies t)
             s (result t) (error t).

Definition setResult (v : Any) (t : TaskStep) : TaskStep :=
  mkTaskStep (id t) (name t) (description t) (agentType t) (dependencies t)
             (status t) (Some v) (error t).

Definition setError (msg : string) (t : TaskStep) : TaskStep :=
  mkTaskStep (id t) (name t) (description t) (agentType t) (dependencies t)
             (status t) (result t) (Some msg).

(** [constructor(larkClient?, chatId?)]: the client is an external object,
    only its presence matters here. *)
Record AgentCoordinator := mkCoordinator {
  larkClient : bool;
  chatId : option string
}.

(** [this.larkClient && this.chatId]: an empty chat id is falsy. *)
Definition notifierActive (this : AgentCoordinator) : bool :=
  larkClient this &&
  match chatId this with
  | Some s => negb (String.eqb s "")
  | None => false
  end.

(** How an awaited promise settled.  A rejection carries the text that
    [error instanceof Error ? error.message : String(error)] yields. *)
Inductive Settled :=
| Fulfilled (v : Any)
| Rejected (msg : string).

(** Calls made to the collaborators, and what the agents returned, in
    order. *)
Inductive Event :=
| SendStart (i : nat)
| Execute (i : nat) (dependencyResults : list (string * option Any))
| AgentReturned (i : nat) (v : Any)
| SendComplete (i : nat)
| SendFailed (i : nat) (msg : string).

(** Where a dispatched closure is suspended. *)
Inductive Phase :=
| AwaitNotifyStart
| AwaitExecuteTask
| AwaitNotifyComplete
| AwaitNotifyFailed.

#[global] Instance Phase_eq_dec : EqDecision Phase.
Proof. solve_decision. Defined.

(** Where [executeTaskDAG] itself stands. *)
Inductive Control :=
| LoopHead
| AwaitAll (inflight : list (nat * Phase))
| Returned
| Aborted (msg : string).

Record Config := mkConfig {
  tasks : list TaskStep;
  results : gmap string Any;
  control : Control;
  trace : list Event
}.

Record Choice := mkChoice {
  resume : nat;
  settle : Settled
}.

(** ** [taskMap]: [new Map(tasks.map((t) => [t.id, t]))]

    A later entry with the same key replaces an earlier one. *)

Fixpoint taskMapFrom (i : nat) (ts : list TaskStep) (m : gmap string nat)
  : gmap string nat :=
  match ts with
  | [] => m
  | t :: ts' => taskMapFrom (S i) ts' (<[id t := i]> m)
  end.

Definition mkTaskMap (ts : list TaskStep) : gmap string nat :=
  taskMapFrom 0 ts ∅.

(** ** The ready set *)

Definition isPending (t : TaskStep) : bool := bool_decide (status t = pending).
Definition isRunning (t : TaskStep) : bool := bool_decide (status t = running).
Definition isCompleted (t : TaskStep) : bool := bool_decide (status t = completed).

(** [taskMap.get(depId)?.status === 'completed'] *)
Definition depCompleted (tm : gmap string nat) (σ : list TaskStep)
           (depId : string) : bool :=
  match tm !! depId with
  | Some j =>
      match σ !! j with
      | Some depTask => isCompleted depTask
      | None => false
      end
  | None => false
  end.

Definition isReady (tm : gmap string nat) (σ : list TaskStep) (t : TaskStep)
  : bool :=
  if negb (isPending t) then false
  else forallb (depCompleted tm σ) (dependencies t).

Definition readyAt (tm : gmap string nat) (σ : list TaskStep) (i : nat) : bool :=
  match σ !! i with
  | Some t => isReady tm σ t
  | None => false
  end.

Definition readyTasks (tm : gmap string nat) (σ : list TaskStep) : list nat :=
  List.filter (readyAt tm σ) (seq 0 (length σ)).


(** ** Failure propagation *)

Definition dependsOn (fid : string) (t : TaskStep) : bool :=
  bool_decide (fid ∈ dependencies t).

Definition dependents (fid : string) (σ : list TaskStep) : list nat :=
  List.filter
    (λ i, match σ !! i with Some t => dependsOn fid t | None => false end)
    (seq 0 (length σ)).

Definition dependencyError (fid : string) : string :=
  "Dependency " ++ fid ++ " failed".

Definition propagated (fid : string) (t : TaskStep) : TaskStep :=
  setError (dependencyError fid) (setStatus failed t).

(** The [for] loop over [dependents]; [rec] is the recursive call. *)
Fixpoint markLoop (rec : string → list TaskStep → option (list TaskStep))
         (fid : string) (ds : list nat) (σ : list TaskStep)
  : option (list TaskStep) :=
  match ds with
  | [] => Some σ
  | i :: ds' =>
      match σ !! i with
      | Some t =>
          if isPending t then
            match rec (id t) (<[i := propagated fid t]> σ) with
            | Some σ' => markLoop rec fid ds' σ'
            | None => None
            end
          else markLoop rec fid ds' σ
      | None => markLoop rec fid ds' σ
      end
  end.

(** The recursion depth is bounded by [fuel]; [None] means the bound was
    hit.  [mark_enough_fuel] below shows it never is from
    [markDependentTasksAsFailed]. *)
Fixpoint mark (fuel : nat) (fid : string) (σ : list TaskStep)
  : option (list TaskStep) :=
  match fuel with
  | 0 => None
  | S n => markLoop (mark n) fid (dependents fid σ) σ
  end.

Definition markDependentTasksAsFailed (fid : string) (σ : list TaskStep)
  : list TaskStep :=
  default σ (mark (S (length σ)) fid σ).

(** ** Notifications

    Each notifier issues one [sendMessage] when a client and a chat id are
    configured and does nothing otherwise; the awaited promise can then
    only be fulfilled. *)

Definition notifyTaskStart (this : AgentCoordinator) (i : nat) : list Event :=
  if notifierActive this then [SendStart i] else [].

Definition notifyTaskComplete (this : AgentCoordinator) (i : nat) : list Event :=
  if notifierActive this then [SendComplete i] else [].

Definition notifyTaskFailed (this : AgentCoordinator) (i : nat) (msg : string)
  : list Event :=
  if notifierActive this then [SendFailed i msg] else [].

Definition notifierSettled (this : AgentCoordinator) (o : Settled) : Settled :=
  if notifierActive this then o else Fulfilled AUndefined.

(** ** [executeTask]: the agents of the source

    Every agent sleeps and returns a fixed object, whatever the task and
    the results of its dependencies are. *)

Definition dependencyResults (previousResults : gmap string Any) (t : TaskStep)
  : list (string * option Any) :=
  (λ depId, (depId, previousResults !! depId)) <$> dependencies t.

Definition runCodeGenAgent (t : TaskStep) (deps : list (string * option Any))
  : Any :=
  AObj [("filesCreated", AArr [AStr "src/example.ts"]); ("linesOfCode", ANum 150)].
Definition runTestAgent (t : TaskStep) (deps : list (string * option Any))
  : Any :=
  AObj [("testsRun", ANum 25); ("testsPassed", ANum 25); ("coverage", ANum 85)].
Definition runReviewAgent (t : TaskStep) (deps : list (string * option Any))
  : Any :=
  AObj [("issues", AArr []); ("qualityScore", ANum 95); ("securityScore", ANum 98)].
Definition runDeploymentAgent (t : TaskStep) (deps : list (string * option Any))
  : Any :=
  AObj [("deployed", ABool true); ("url", AStr "https://example.com");
        ("environment", AStr "production")].
Definition runAPIAgent (t : TaskStep) (deps : list (string * option Any))
  : Any :=
  AObj [("endpoints", AArr [AStr "/api/users"; AStr "/api/posts"]);
        ("openApiSpec", AStr "openapi.yaml")].
Definition runDatabaseAgent (t : TaskStep) (deps : list (string * option Any))
  : Any :=
  AObj [("tables", AArr [AStr "users"; AStr "posts"]);
        ("migrations", AArr [AStr "001_initial.sql"])].
Definition runSecurityAgent (t : TaskStep) (deps : list (string * option Any))
  : Any :=
  AObj [("vulnerabilities", ANum 0); ("securityScore", ANum 100)].
Definition runDocumentationAgent (t : TaskStep) (deps : list (string * option Any))
  : Any :=
  AObj [("docsGenerated", AArr [AStr "README.md"; AStr "API.md"])].
Definition runPlanAgent (t : TaskStep) (deps : list (string * option Any))
  : Any :=
  AObj [("plan", AStr "Detailed implementation plan");
        ("estimatedTime", AStr "2 hours")].
Definition runExploreAgent (t : TaskStep) (deps : list (string * option Any))
  : Any :=
  AObj [("findings", AStr "Codebase analysis complete")].
Definition runGeneralPurposeAgent (t : TaskStep) (deps : list (string * option Any))
  : Any :=
  AObj [("status", AStr "completed")].

(** The [switch (task.agentType)]. *)
Definition runAgent (t : TaskStep) (deps : list (string * option Any)) : Settled :=
  Fulfilled
    (if String.eqb (agentType t) "CodeGenAgent" then runCodeGenAgent t deps
     else if String.eqb (agentType t) "TestAgent" then runTestAgent t deps
     else if String.eqb (agentType t) "ReviewAgent" then runReviewAgent t deps
     else if String.eqb (agentType t) "DeploymentAgent" then runDeploymentAgent t deps
     else if String.eqb (agentType t) "APIAgent" then runAPIAgent t deps
     else if String.eqb (agentType t) "DatabaseAgent" then runDatabaseAgent t deps
     else if String.eqb (agentType t) "SecurityAgent" then runSecurityAgent t deps
     else if String.eqb (agentType t) "DocumentationAgent"
          then runDocumentationAgent t deps
     else if String.eqb (agentType t) "Plan" then runPlanAgent t deps
     else if String.eqb (agentType t) "Explore" then runExploreAgent t deps
     else runGeneralPurposeAgent t deps).

Definition executeTask (t : TaskStep) (previousResults : gmap string Any)
  : Settled :=
  runAgent t (dependencyResults previousResults t).

(** [task.status = 'failed'; task.error = ...] and
    [task.status = 'completed'; task.result = result]. *)
Definition failedWith (msg : string) (t : TaskStep) : TaskStep :=
  setError msg (setStatus failed t).

Definition completedWith (v : Any) (t : TaskStep) : TaskStep :=
  setResult v (setStatus completed t).

(** ** One atomic segment of a dispatched closure

    [catchBlock] is the start of the [catch] branch, up to
    [await this.notifyTaskFailed(task, error)]. *)

Definition catchBlock (this : AgentCoordinator) (i : nat) (msg : string)
           (cfg : Config) : Config :=
  mkConfig (alter (failedWith msg) i (tasks cfg))
           (results cfg)
           (control cfg)
           (trace cfg ++ notifyTaskFailed this i msg).

(** What resuming a closure leaves behind: a new suspension point, a
    fulfilled closure, or a rejected one. *)
Inductive Resumed :=
| Suspended (ph : Phase)
| Finished
| Threw (msg : string).

Definition idAt (σ : list TaskStep) (i : nat) : string :=
  match σ !! i with Some t => id t | None => "" end.

Definition resumeClosure (this : AgentCoordinator) (o : Settled)
           (i : nat) (ph : Phase) (cfg : Config) : Config * Resumed :=
  match ph with
  | AwaitNotifyStart =>
      (* await this.notifyTaskStart(task) *)
      match notifierSettled this o with
      | Fulfilled _ =>
          (* this.executeTask(task, results) is called *)
          let deps := match tasks cfg !! i with
                      | Some t => dependencyResults (results cfg) t
                      | None => []
                      end in
          (mkConfig (tasks cfg) (results cfg) (control cfg)
                    (trace cfg ++ [Execute i deps]),
           Suspended AwaitExecuteTask)
      | Rejected msg => (catchBlock this i msg cfg, Suspended AwaitNotifyFailed)
      end
  | AwaitExecuteTask =>
      (* const result = await this.executeTask(task, results) *)
      match o with
      | Fulfilled v =>
          (* task.status = 'completed'; task.result = result;
             results.set(task.id, result); this.notifyTaskComplete(task) *)
          (mkConfig (alter (completedWith v) i (tasks cfg))
                    (<[idAt (tasks cfg) i := v]> (results cfg))
                    (control cfg)
                    (trace cfg ++ AgentReturned i v :: notifyTaskComplete this i),
           Suspended AwaitNotifyComplete)
      | Rejected msg => (catchBlock this i msg cfg, Suspended AwaitNotifyFailed)
      end
  | AwaitNotifyComplete =>
      (* await this.notifyTaskComplete(task), still inside the try block *)
      match notifierSettled this o with
      | Fulfilled _ => (cfg, Finished)
      | Rejected msg => (catchBlock this i msg cfg, Suspended AwaitNotifyFailed)
      end
  | AwaitNotifyFailed =>
      (* await this.notifyTaskFailed(task, error), inside the catch block *)
      match notifierSettled this o with
      | Fulfilled _ =>
          (* this.markDependentTasksAsFailed(task.id, tasks) *)
          (mkConfig (markDependentTasksAsFailed (idAt (tasks cfg) i) (tasks cfg))
                    (results cfg) (control cfg) (trace cfg),
           Finished)
      | Rejected msg => (cfg, Threw msg)
      end
  end.

(** Replace or drop entry [k] of the in-flight list. *)
Definition settleAt (k : nat) (r : Resumed) (i : nat)
           (inflight : list (nat * Phase)) : Control :=
  match r with
  | Suspended ph => AwaitAll (<[k := (i, ph)]> inflight)
  | Finished => AwaitAll (delete k inflight)
  | Threw msg => Aborted msg
  end.

Definition withControl (c : Control) (cfg : Config) : Config :=
  mkConfig (tasks cfg) (results cfg) c (trace cfg).

(** ** The scheduling loop *)

Definition active (t : TaskStep) : bool := isPending t || isRunning t.

(** The synchronous head of every closure of [readyTasks.map(async ...)]:
    [task.status = 'running'] and the call of [notifyTaskStart]. *)
Definition setRunning (σ : list TaskStep) (ready : list nat) : list TaskStep :=
  foldl (λ σ i, alter (setStatus running) i σ) σ ready.

Definition dispatch (this : AgentCoordinator) (ready : list nat) (cfg : Config)
  : Config :=
  mkConfig (setRunning (tasks cfg) ready)
           (results cfg)
           (AwaitAll ((λ i, (i, AwaitNotifyStart)) <$> ready))
           (trace cfg ++ flat_map (notifyTaskStart this) ready).

(** From the loop condition to the next [await], [break] or loop exit. *)
Definition loopHead (this : AgentCoordinator) (tm : gmap string nat)
           (cfg : Config) : Config :=
  if existsb active (tasks cfg) then
    match readyTasks tm (tasks cfg) with
    | [] =>
        if existsb isRunning (tasks cfg)
        then cfg                       (* await this.sleep(100); continue *)
        else withControl Returned cfg  (* break *)
    | ready => dispatch this ready cfg
    end
  else withControl Returned cfg.

(** One atomic segment.  With no closure left in flight [Promise.all] is
    fulfilled and the loop goes round; otherwise closure number
    [resume c], counted round the in-flight list, is resumed.  A
    configuration in which the call has returned or was rejected does not
    change any more. *)
Definition step (this : AgentCoordinator) (tm : gmap string nat)
           (c : Choice) (cfg : Config) : Config :=
  match control cfg with
  | LoopHead => loopHead this tm cfg
  | AwaitAll [] => withControl LoopHead cfg
  | AwaitAll inflight =>
      let k := resume c mod length inflight in
      match inflight !! k with
      | Some (i, ph) =>
          let '(cfg', r) := resumeClosure this (settle c) i ph cfg in
          withControl (settleAt k r i inflight) cfg'
      | None => cfg
      end
  | Returned => cfg
  | Aborted _ => cfg
  end.

Definition final (cfg : Config) : bool :=
  match control cfg with
  | Returned | Aborted _ => true
  | _ => false
  end.

(** The environment decides, from everything that happened so far, which
    closure wakes up next and how its awaited call settled. *)
Fixpoint run (this : AgentCoordinator) (tm : gmap string nat)
         (env : Config → Choice) (fuel : nat) (cfg : Config) : option Config :=
  if final cfg then Some cfg
  else match fuel with
       | 0 => None
       | S n => run this tm env n (step this tm (env cfg) cfg)
       end.

Definition initial (ts : list TaskStep) : Config :=
  mkConfig ts ∅ LoopHead [].

(** [None]: the call has not settled within [fuel] steps.  In the
    configuration returned, [control] tells whether the call returned
    [results] or was rejected. *)
Definition executeTaskDAG (this : AgentCoordinator) (env : Config → Choice)
           (fuel : nat) (ts : list TaskStep) : option Config :=
  run this (mkTaskMap ts) env fuel (initial ts).

(** Configurations a run from [start] passes through, when every choice
    of the environment is among the [allowed] ones. *)
Inductive reaches (this : AgentCoordinator) (tm : gmap string nat)
          (allowed : Config → Choice → Prop) (start : Config) : Config → Prop :=
| reaches_start : reaches this tm allowed start start
| reaches_step c cfg :
    reaches this tm allowed start cfg →
    allowed cfg c →
    reaches this tm allowed start (step this tm c cfg).

Definition anyChoice : Config → Choice → Prop := λ _ _, True.

(** The closure the choice [c] resumes in [cfg], if any. *)
Definition resumed (c : Choice) (cfg : Config) : option (nat * Phase) :=
  match control cfg with
  | AwaitAll inflight => inflight !! (resume c mod length inflight)
  | _ => None
  end.

(** The awaited notification of the resumed closure is rejected. *)
Definition notifierThrows (this : AgentCoordinator) (ph : Phase)
           (c : Choice) (cfg : Config) : Prop :=
  ∃ i msg, resumed c cfg = Some (i, ph) ∧
           notifierSettled this (settle c) = Rejected msg.

Definition inflightOf (cfg : Config) : list nat :=
  match control cfg with
  | AwaitAll inflight => inflight.*1
  | _ => []
  end.

Definition pendingCount (σ : list TaskStep) : nat :=
  length (List.filter isPending σ).

(** ** Concrete environments *)

(** Who is resumed next, how an agent run settles for a task and the
    dependency results it was called with, and how a notification
    settles. *)
Record Collaborators := mkCollaborators {
  scheduler : Config → nat;
  agent : TaskStep → list (string * option Any) → Settled;
  lark : Phase → nat → Settled
}.

(** The dependency results of the latest [executeTask] call for task [i]. *)
Definition executedWith (tr : list Event) (i : nat) : list (string * option Any) :=
  foldl (λ acc e, match e with
                  | Execute j deps => if decide (j = i) then deps else acc
                  | _ => acc
                  end) [] tr.

Definition envOf (w : Collaborators) (cfg : Config) : Choice :=
  let k := scheduler w cfg in
  mkChoice k
    match control cfg with
    | AwaitAll inflight =>
        match inflight !! (k mod length inflight) with
        | Some (i, AwaitExecuteTask) =>
            match tasks cfg !! i with
            | Some t => agent w t (executedWith (trace cfg) i)
            | None => Fulfilled AUndefined
            end
        | Some (i, ph) => lark w ph i
        | None => Fulfilled AUndefined
        end
    | _ => Fulfilled AUndefined
    end.

Definition task (i : string) (deps : list string) : TaskStep :=
  mkTaskStep i i "" "general-purpose" deps pending None None.

Definition statuses (cfg : Config) : list (string * Status) :=
  (λ t, (id t, status t)) <$> tasks cfg.

(** ** The steps, case by case

    [Step] lists what one atomic segment can be; [step_Step] below shows
    that [step] always takes one of them.  With [calm] set, the steps in
    which a task-completed notification is rejected are left out. *)

Inductive Step (this : AgentCoordinator) (tm : gmap string nat) (calm : bool)
  : Config → Config → Prop :=
| Step_done cfg :
    control cfg = LoopHead →
    existsb active (tasks cfg) = false →
    Step this tm calm cfg (withControl Returned cfg)
| Step_break cfg :
    control cfg = LoopHead →
    readyTasks tm (tasks cfg) = [] →
    existsb isRunning (tasks cfg) = false →
    Step this tm calm cfg (withControl Returned cfg)
| Step_sleep cfg :
    control cfg = LoopHead →
    readyTasks tm (tasks cfg) = [] →
    existsb isRunning (tasks cfg) = true →
    Step this tm calm cfg cfg
| Step_dispatch cfg :
    control cfg = LoopHead →
    readyTasks tm (tasks cfg) ≠ [] →
    Step this tm calm cfg (dispatch this (readyTasks tm (tasks cfg)) cfg)
| Step_barrier cfg :
    control cfg = AwaitAll [] →
    Step this tm calm cfg (withControl LoopHead cfg)
| Step_started cfg l k i t :
    control cfg = AwaitAll l →
    l !! k = Some (i, AwaitNotifyStart) →
    tasks cfg !! i = Some t →
    Step this tm calm cfg
         (mkConfig (tasks cfg) (results cfg)
                   (AwaitAll (<[k := (i, AwaitExecuteTask)]> l))
                   (trace cfg ++ [Execute i (dependencyResults (results cfg) t)]))
| Step_executed cfg l k i t v :
    control cfg = AwaitAll l →
    l !! k = Some (i, AwaitExecuteTask) →
    tasks cfg !! i = Some t →
    Step this tm calm cfg
         (mkConfig (alter (completedWith v) i (tasks cfg))
                   (<[id t := v]> (results cfg))
                   (AwaitAll (<[k := (i, AwaitNotifyComplete)]> l))
                   (trace cfg ++ AgentReturned i v :: notifyTaskComplete this i))
| Step_caught cfg l k i ph msg :
    control cfg = AwaitAll l →
    l !! k = Some (i, ph) →
    ph ≠ AwaitNotifyFailed →
    (ph = AwaitExecuteTask ∨ notifierActive this = true) →
    (calm = true → ph ≠ AwaitNotifyComplete) →
    Step this tm calm cfg
         (mkConfig (alter (failedWith msg) i (tasks cfg))
                   (results cfg)
                   (AwaitAll (<[k := (i, AwaitNotifyFailed)]> l))
                   (trace cfg ++ notifyTaskFailed this i msg))
| Step_completed cfg l k i :
    control cfg = AwaitAll l →
    l !! k = Some (i, AwaitNotifyComplete) →
    Step this tm calm cfg (withControl (AwaitAll (delete k l)) cfg)
| Step_propagated cfg l k i t :
    control cfg = AwaitAll l →
    l !! k = Some (i, AwaitNotifyFailed) →
    tasks cfg !! i = Some t →
    Step this tm calm cfg
         (mkConfig (markDependentTasksAsFailed (id t) (tasks cfg))
                   (results cfg)
                   (AwaitAll (delete k l))
                   (trace cfg))
| Step_aborted cfg l k i msg :
    control cfg = AwaitAll l →
    l !! k = Some (i, AwaitNotifyFailed) →
    notifierActive this = true →
    Step this tm calm cfg (withControl (Aborted msg) cfg).

(** Every dispatched position is a position of the task array. *)
Definition inflightInRange (cfg : Config) : Prop :=
  ∀ i, i ∈ inflightOf cfg → i < length (tasks cfg).

(** Two task records that differ at most in [status], [result], [error]. *)
Definition sameStatic (t t' : TaskStep) : Prop :=
  id t' = id t ∧ name t' = name t ∧ description t' = description t ∧
  agentType t' = agentType t ∧ dependencies t' = dependencies t.

(** ** Vocabulary for failure propagation *)

(** The positions one invocation for [fid] on [σ] has to reach: pending
    tasks that depend on [fid], and pending tasks that depend on a task
    already in the set. *)
Inductive collapses (fid : string) (σ : list TaskStep) : nat → Prop :=
| collapses_direct i t :
    σ !! i = Some t → status t = pending → fid ∈ dependencies t →
    collapses fid σ i
| collapses_chain j u i t :
    collapses fid σ j → σ !! j = Some u →
    σ !! i = Some t → status t = pending → id u ∈ dependencies t →
    collapses fid σ i.

(** No pending task of [σ] depends on [d]. *)
Definition closedUnder (σ : list TaskStep) (d : string) : Prop :=
  ∀ j u, σ !! j = Some u → status u = pending → d ∉ dependencies u.

(** What an invocation for [fid] may do to the array: leave a task as it
    is, or fail one it has to reach, naming a dependency that is [fid] or
    another task it has to reach. *)
Definition marksFrom (fid : string) (σ σ' : list TaskStep) : Prop :=
  length σ' = length σ ∧
  ∀ i t, σ !! i = Some t →
    σ' !! i = Some t ∨
    (collapses fid σ i ∧
     ∃ d, d ∈ dependencies t ∧ σ' !! i = Some (propagated d t) ∧
          (d = fid ∨
           ∃ j u, collapses fid σ j ∧ σ !! j = Some u ∧ id u = d)).

(** Every task changed between [σ] and [σ'] has no pending dependent left. *)
Definition changedClosed (σ σ' : list TaskStep) : Prop :=
  ∀ j u, σ !! j = Some u → σ' !! j ≠ Some u → closedUnder σ' (id u).

(** ** Invariants of a run *)

(** The status a task has while its closure waits at [ph]. *)
Definition phaseStatus (ph : Phase) : Status :=
  match ph with
  | AwaitNotifyStart | AwaitExecuteTask => running
  | AwaitNotifyComplete => completed
  | AwaitNotifyFailed => failed
  end.

(** The suspended closures and the statuses agree, every task is
    dispatched at most once at a time, and a running task is one whose
    closure is suspended (or the call was rejected around it). *)
Record Flight (cfg : Config) : Prop := mkFlight {
  flight_phase :
    ∀ l k i ph, control cfg = AwaitAll l → l !! k = Some (i, ph) →
                ∃ t, tasks cfg !! i = Some t ∧ status t = phaseStatus ph;
  flight_nodup : NoDup (inflightOf cfg);
  flight_running :
    ∀ i t, tasks cfg !! i = Some t → status t = running →
           i ∈ inflightOf cfg ∨ ∃ msg, control cfg = Aborted msg
}.

Definition noneRunning (ts : list TaskStep) : Prop :=
  ∀ i t, ts !! i = Some t → status t ≠ running.

(** ** Progress measure *)

(** The number of [await]s a closure suspended at [ph] can still reach. *)
Definition phaseRank (ph : Phase) : nat :=
  match ph with
  | AwaitNotifyStart => 4
  | AwaitExecuteTask => 3
  | AwaitNotifyComplete => 2
  | AwaitNotifyFailed => 1
  end.

Fixpoint flightRank (l : list (nat * Phase)) : nat :=
  match l with
  | [] => 0
  | (_, ph) :: l' => phaseRank ph + flightRank l'
  end.

Definition measure (cfg : Config) : nat :=
  match control cfg with
  | LoopHead => 6 * pendingCount (tasks cfg)
  | AwaitAll l => 6 * pendingCount (tasks cfg) + flightRank l + 1
  | Returned | Aborted _ => 0
  end.

(** ** The life of one task *)

(** What a step may do to one task record.  With [calm] set, the move in
    which a rejected task-completed notification overwrites [completed]
    is left out. *)
Inductive TaskMove (calm : bool) : TaskStep → TaskStep → Prop :=
| Move_none t : TaskMove calm t t
| Move_dispatch t :
    status t = pending → TaskMove calm t (setStatus running t)
| Move_complete t v :
    status t = running → TaskMove calm t (completedWith v t)
| Move_fail t msg :
    status t = running → TaskMove calm t (failedWith msg t)
| Move_overwrite t msg :
    calm = false → status t = completed → TaskMove calm t (failedWith msg t)
| Move_propagate t d :
    status t = pending → d ∈ dependencies t → TaskMove calm t (propagated d t).

(** ** What a run starts from *)

Definition isFresh (t : TaskStep) : bool :=
  isPending t &&
  match result t, error t with
  | None, None => true
  | _, _ => false
  end.

(** Every task is pending and carries neither result nor error. *)
Definition allFresh (ts : list TaskStep) : bool := forallb isFresh ts.

Definition uniqueIds (ts : list TaskStep) : bool :=
  bool_decide (NoDup (id <$> ts)).

(** Every dependency id is the id of a task of the collection. *)
Definition closedDeps (ts : list TaskStep) : bool :=
  forallb (λ t, forallb (λ d, bool_decide (d ∈ id <$> ts)) (dependencies t)) ts.

(** [rank] orders the ids topologically: every dependency of a task ranks
    below the task. *)
Definition ranked (rank : string → nat) (ts : list TaskStep) : bool :=
  forallb (λ t, forallb (λ d, rank d <? rank (id t)) (dependencies t)) ts.

Definition staticView (σ : list TaskStep) : list (string * list string) :=
  (λ t, (id t, dependencies t)) <$> σ.

(** [result] and [error] as the status requires them. *)
Definition fieldsOk (t : TaskStep) : Prop :=
  match status t with
  | pending | running => result t = None ∧ error t = None
  | completed => is_Some (result t) ∧ error t = None
  | failed => is_Some (error t)
  end.

(** A task holds a result exactly when its agent returned it. *)
Definition returnedOk (σ : list TaskStep) (tr : list Event) : Prop :=
  (∀ i v, AgentReturned i v ∈ tr → ∃ t, σ !! i = Some t ∧ result t = Some v) ∧
  (∀ i t v, σ !! i = Some t → result t = Some v → AgentReturned i v ∈ tr).

(** The records agree with the statuses and with what the agents
    returned. *)
Record Recorded (cfg : Config) : Prop := mkRecorded {
  rec_fields : ∀ i t, tasks cfg !! i = Some t → fieldsOk t;
  rec_trace : returnedOk (tasks cfg) (trace cfg)
}.

(** [results] holds, under each task's id, the task's [result]. *)
Record ResultsAgree (cfg : Config) : Prop := mkResultsAgree {
  res_task : ∀ i t, tasks cfg !! i = Some t → results cfg !! id t = result t;
  res_key : ∀ k v, results cfg !! k = Some v →
                   ∃ i t, tasks cfg !! i = Some t ∧ id t = k
}.

(** [d] is mapped to a task that completed and whose closure is done. *)
Definition settled (tm : gmap string nat) (cfg : Config) (d : string) : Prop :=
  ∃ j depTask, tm !! d = Some j ∧ tasks cfg !! j = Some depTask ∧
               status depTask = completed ∧ j ∉ inflightOf cfg.

Record Discipline (tm : gmap string nat) (cfg : Config) : Prop := mkDiscipline {
  disc_deps :
    ∀ i t, tasks cfg !! i = Some t →
           status t = running ∨ status t = completed →
           ∀ d, d ∈ dependencies t → settled tm cfg d;
  disc_exec :
    ∀ i deps t, Execute i deps ∈ trace cfg → tasks cfg !! i = Some t →
                ∀ d, d ∈ dependencies t → settled tm cfg d;
  disc_closed :
    (∀ m, control cfg ≠ Aborted m) →
    ∀ i t, tasks cfg !! i = Some t → status t = failed →
           i ∉ inflightOf cfg → closedUnder (tasks cfg) (id t);
  disc_exit :
    control cfg = Returned →
    readyTasks tm (tasks cfg) = [] ∧ existsb isRunning (tasks cfg) = false
}.

(** Task [b] depends on task [a], directly or through a chain. *)
Inductive dependsVia (σ : list TaskStep) : nat → nat → Prop :=
| dependsVia_direct a b ta tb :
    σ !! a = Some ta → σ !! b = Some tb → id ta ∈ dependencies tb →
    dependsVia σ b a
| dependsVia_chain a c b tc tb :
    dependsVia σ c a →
    σ !! c = Some tc → σ !! b = Some tb → id tc ∈ dependencies tb →
    dependsVia σ b a.

(** No task depends on itself, directly or through a chain. *)
Definition acyclic (σ : list TaskStep) : Prop := ∀ a, ¬ dependsVia σ a a.



(** ** Concrete runs *)

(** A coordinator without Lark client, and one with client and chat id. *)
Definition silent : AgentCoordinator := mkCoordinator false None.
Definition reporting : AgentCoordinator := mkCoordinator true (Some "oc_chat").

(** The text of the error [LarkClient.sendMessage] throws when the API
    answers with a non-zero code and no message. *)
Definition sendError : string := "Failed to send message: Unknown error".

(** The oldest suspended closure is resumed first; the agents are those
    of the source. *)
Definition fifo : Config → nat := λ _, 0.

Definition larkUp : Collaborators :=
  mkCollaborators fifo runAgent (λ _ _, Fulfilled AUndefined).

Definition larkDown : Collaborators :=
  mkCollaborators fifo runAgent (λ _ _, Rejected sendError).

Definition larkStartDown : Collaborators :=
  mkCollaborators fifo runAgent
    (λ ph _, match ph with
             | AwaitNotifyStart => Rejected sendError
             | _ => Fulfilled AUndefined
             end).


(** Agents of which the one for task [bad] fails. *)
Definition failingAgent (bad : string) : Collaborators :=
  mkCollaborators fifo
    (λ t deps, if String.eqb (id t) bad then Rejected "agent failed"
               else runAgent t deps)
    (λ _ _, Fulfilled AUndefined).

Definition chain : list TaskStep := [task "a" []; task "b" ["a"]].

Definition diamond : list TaskStep :=
  [task "a" []; task "b" ["a"]; task "c" ["a"]; task "d" ["b"; "c"]].

Definition cycle : list TaskStep := [task "x" ["y"]; task "y" ["x"]].

(** What the general-purpose agent returns. *)
Definition generalResult : Any := AObj [("status", AStr "completed")].

Definition alphabetical (s : string) : nat :=
  match s with
  | String a _ => Ascii.nat_of_ascii a
  | EmptyString => 0
  end.

(** The configuration a run ends in, with fuel for [6 * length ts] steps. *)
Definition finalOf (this : AgentCoordinator) (env : Config → Choice)
           (ts : list TaskStep) : Config :=
  default (initial ts) (executeTaskDAG this env (S (6 * length ts)) ts).

(** The configuration after [n] steps. *)
Fixpoint advance (this : AgentCoordinator) (tm : gmap string nat)
         (env : Config → Choice) (n : nat) (cfg : Config) : Config :=
  match n with
  | 0 => cfg
  | S n' => advance this tm env n' (step this tm (env cfg) cfg)
  end.

Definition outcome (cfg : Config) : Control * list (string * Status) :=
  (control cfg, statuses cfg).

(** ** Runs in which nothing is rejected *)

(** The call awaited by the closure that [c] resumes is fulfilled. *)
Definition neverRejects (this : AgentCoordinator) : Config → Choice → Prop :=
  λ cfg c,
    match resumed c cfg with
    | Some (_, AwaitExecuteTask) => ∃ v, settle c = Fulfilled v
    | Some (_, _) => ∃ v, notifierSettled this (settle c) = Fulfilled v
    | None => True
    end.

(** A [sendMessage] issued by one of the three notifiers. *)
Definition isLarkCall (e : Event) : bool :=
  match e with
  | SendStart _ | SendComplete _ | SendFailed _ _ => true
  | Execute _ _ | AgentReturned _ _ => false
  end.

(** How often the agent of task [i] was invoked, and how often it
    returned. *)
Definition isExecuteOf (i : nat) (e : Event) : bool :=
  match e with
  | Execute j _ => bool_decide (j = i)
  | _ => false
  end.

Definition isReturnOf (i : nat) (e : Event) : bool :=
  match e with
  | AgentReturned j _ => bool_decide (j = i)
  | _ => false
  end.

Definition executions (tr : list Event) (i : nat) : nat :=
  length (List.filter (isExecuteOf i) tr).

Definition returns (tr : list Event) (i : nat) : nat :=
  length (List.filter (isReturnOf i) tr).

(** Task [i] is not pending, and no closure of it waits at [ph]. *)
Definition notPendingAt (cfg : Config) (i : nat) : Prop :=
  ∀ t, tasks cfg !! i = Some t → status t ≠ pending.

Definition notWaitingAt (cfg : Config) (i : nat) (ph : Phase) : Prop :=
  ∀ l k, control cfg = AwaitAll l → l !! k ≠ Some (i, ph).

(** The agent of a task is invoked, and returns, at most once; a task
    whose agent was invoked is past the task-started notification, and
    one whose agent returned is past the invocation. *)
Record Once (cfg : Config) : Prop := mkOnce {
  once_exec : ∀ i, executions (trace cfg) i ≤ 1;
  once_ret : ∀ i, returns (trace cfg) i ≤ 1;
  once_started :
    ∀ i, 0 < executions (trace cfg) i →
         notPendingAt cfg i ∧ notWaitingAt cfg i AwaitNotifyStart;
  once_returned :
    ∀ i, 0 < returns (trace cfg) i →
         notPendingAt cfg i ∧ notWaitingAt cfg i AwaitNotifyStart ∧
         notWaitingAt cfg i AwaitExecuteTask
}.

(** The environments in which the agents are those of the source; who
    is resumed next and how the Lark client answers is left open. *)
Definition sourceAgents (sched : Config → nat) (answers : Phase → nat → Settled)
  : Collaborators :=
  mkCollaborators sched runAgent answers.

(** * The task decomposer

    [TaskDecomposer] turns an instruction into one of five fixed plans.
    An instruction is held as the UTF-8 encoding of its text; a regular
    expression of the source is an alternation of literal strings without
    flags, so that [test] is the search for one of them as a substring. *)

(** [hay.includes(needle)]. *)
Fixpoint includes (needle hay : string) : bool :=
  String.prefix needle hay ||
  match hay with
  | EmptyString => false
  | String _ hay' => includes needle hay'
  end.

(** [/a|b|c/.test(s)]. *)
Definition test (alternatives : list string) (s : string) : bool :=
  existsb (λ a, includes a s) alternatives.

Definition webPattern : list string := ["web"; "サイト"; "ページ"; "フロント"].
Definition apiPattern : list string := ["api"; "バックエンド"; "サーバー"].
Definition databasePattern : list string := ["データベース"; "db"; "sql"].
Definition createPattern : list string := ["作成"; "作る"; "構築"; "開発"].
Definition fixPattern : list string := ["修正"; "直す"; "fix"].
Definition testPattern : list string := ["テスト"; "test"].
Definition deployPattern : list string := ["デプロイ"; "deploy"; "公開"].
Definition analysisPattern : list string := ["分析"; "解析"; "レポート"].
Definition automationPattern : list string := ["自動"; "workflow"; "ワークフロー"].

(** [if (pattern.test(instruction)) keywords.push(...)]. *)
Definition pushIf (pattern : list string) (instruction : string)
           (pushed keywords : list string) : list string :=
  if test pattern instruction then keywords ++ pushed else keywords.

Definition extractKeywords (instruction : string) : list string :=
  let keywords := [] in
  let keywords := pushIf webPattern instruction ["web"; "frontend"] keywords in
  let keywords := pushIf apiPattern instruction ["api"; "backend"] keywords in
  let keywords := pushIf databasePattern instruction ["database"] keywords in
  let keywords := pushIf createPattern instruction ["create"] keywords in
  let keywords := pushIf fixPattern instruction ["fix"] keywords in
  let keywords := pushIf testPattern instruction ["test"] keywords in
  let keywords := pushIf deployPattern instruction ["deploy"] keywords in
  keywords.

(** [keywords.includes(k)]. *)
Definition hasKeyword (k : string) (keywords : list string) : bool :=
  bool_decide (k ∈ keywords).

Definition inferTaskType (instruction : string) (keywords : list string)
  : string :=
  if hasKeyword "web" keywords && hasKeyword "frontend" keywords
  then "web_development"
  else if hasKeyword "api" keywords || hasKeyword "backend" keywords
  then "api_development"
  else if test analysisPattern instruction then "data_analysis"
  else if test automationPattern instruction then "automation"
  else "general".

(** A task literal of the decomposer: pending, without result or error. *)
Definition planned (i n d a : string) (deps : list string) : TaskStep :=
  mkTaskStep i n d a deps pending None None.

Definition decomposeWebDevelopment (instruction : string)
           (keywords : list string) : list TaskStep :=
  [ planned "plan" "要件定義・設計" "機能要件を整理し、アーキテクチャを設計"
            "Plan" [];
    planned "scaffold" "プロジェクト初期化" "フレームワーク選定とプロジェクト構築"
            "CodeGenAgent" ["plan"];
    planned "implement" "コンポーネント実装" "UI/UXコンポーネントの実装"
            "CodeGenAgent" ["scaffold"];
    planned "test" "テスト作成・実行" "ユニットテスト・E2Eテストの作成と実行"
            "TestAgent" ["implement"];
    planned "review" "コードレビュー" "品質チェックとセキュリティスキャン"
            "ReviewAgent" ["test"];
    planned "deploy" "デプロイ" "アプリケーションのビルドとデプロイ"
            "DeploymentAgent" ["review"] ].

Definition decomposeApiDevelopment (instruction : string)
           (keywords : list string) : list TaskStep :=
  [ planned "design" "API設計" "エンドポイント設計とスキーマ定義"
            "APIAgent" [];
    planned "database" "データベース設計" "スキーマ設計とマイグレーション"
            "DatabaseAgent" ["design"];
    planned "implement" "API実装" "ハンドラーとビジネスロジックの実装"
            "CodeGenAgent" ["database"];
    planned "test" "APIテスト" "統合テストとAPIテストの作成・実行"
            "TestAgent" ["implement"];
    planned "security" "セキュリティスキャン" "脆弱性スキャンと認証・認可チェック"
            "SecurityAgent" ["test"];
    planned "docs" "APIドキュメント生成" "OpenAPI/Swaggerドキュメントの生成"
            "DocumentationAgent" ["implement"] ].

Definition decomposeDataAnalysis (instruction : string)
           (keywords : list string) : list TaskStep :=
  [ planned "collect" "データ収集" "必要なデータソースからデータを収集"
            "general-purpose" [];
    planned "clean" "データクリーニング" "データの前処理と整形"
            "general-purpose" ["collect"];
    planned "analyze" "データ分析" "統計分析と可視化"
            "general-purpose" ["clean"];
    planned "report" "レポート作成" "分析結果のレポート作成"
            "DocumentationAgent" ["analyze"] ].

Definition decomposeAutomation (instruction : string)
           (keywords : list string) : list TaskStep :=
  [ planned "design" "ワークフロー設計" "自動化フローの設計とステップ定義"
            "Plan" [];
    planned "implement" "スクリプト実装" "自動化スクリプトの実装"
            "CodeGenAgent" ["design"];
    planned "test" "テスト実行" "ワークフローのテスト"
            "TestAgent" ["implement"];
    planned "schedule" "スケジュール設定" "GitHub ActionsやCron等でスケジュール設定"
            "DeploymentAgent" ["test"] ].

Definition decomposeGeneral (instruction : string) : list TaskStep :=
  [ planned "analyze" "タスク分析" "指示内容を詳細に分析"
            "Explore" [];
    planned "plan" "実行計画立案" "実装方針とアプローチを決定"
            "Plan" ["analyze"];
    planned "execute" "タスク実行" "計画に基づいてタスクを実行"
            "general-purpose" ["plan"];
    planned "verify" "検証" "結果の検証と品質チェック"
            "ReviewAgent" ["execute"] ].

(** The [switch (taskType)]. *)
Definition analyzeAndDecompose (instruction : string) : list TaskStep :=
  let keywords := extractKeywords instruction in
  let taskType := inferTaskType instruction keywords in
  if String.eqb taskType "web_development"
  then decomposeWebDevelopment instruction keywords
  else if String.eqb taskType "api_development"
  then decomposeApiDevelopment instruction keywords
  else if String.eqb taskType "data_analysis"
  then decomposeDataAnalysis instruction keywords
  else if String.eqb taskType "automation"
  then decomposeAutomation instruction keywords
  else decomposeGeneral instruction.

(** The dependencies are set already; the steps are returned as they
    are. *)
Definition buildDAG (steps : list TaskStep) : list TaskStep := steps.

Definition decompose (instruction : string) : list TaskStep :=
  let steps := analyzeAndDecompose instruction in
  let dag := buildDAG steps in
  dag.

(** The position of the task with id [d] in [ts]. *)
Definition positionIn (ts : list TaskStep) (d : string) : nat :=
  default 0 (mkTaskMap ts !! d).

(** * The executor

    [executeMiyabiTask] reports progress to Lark, has the instruction
    decomposed, hands the plan to an [AgentCoordinator] and reports the
    outcome.  Its Lark calls are logged in the order in which they are
    issued; how each of them settles is decided by an oracle that sees the
    calls issued before.  The body of the report document holds the time
    of day and is left out of the log. *)

Module Params.
Record MiyabiTaskParams := mk {
  instruction : string;
  chatId : option string;
  agentType : option string;
  larkClient : bool
}.
End Params.

Module Result.
Record MiyabiResult := mk {
  success : bool;
  steps : list TaskStep;
  results : gmap string Any;
  deliverable : Any
}.
End Result.

(** The calls of the executor to the Lark client.  [SendMessage] carries
    the [text] whose JSON is the [content]; a [receive_id] that is
    [undefined] is [None]. *)
Inductive LarkCall :=
| SendProgressCard (chat taskName : string) (progress : nat) (details : string)
| CreateDocument (title : string)
| SendMessage (receive_id : option string) (msg_type text : string).

(** How the client settles a call.  The executor uses the value of a
    fulfilled call only for [CreateDocument], where it is the object
    [{ document_id, url }] that [LarkClient.createDocument] builds from
    the id of the new document. *)
Inductive Reply :=
| Accepted (documentId : string)
| Refused (msg : string).

(** How an [async] function completes.  [Unsettled] stands for a call of
    [executeTaskDAG] that has not settled within the fuel. *)
Inductive Completion (A : Type) :=
| Normal (a : A)
| Thrown (msg : string)
| Unsettled.

Arguments Normal {A} a.
Arguments Thrown {A} msg.
Arguments Unsettled {A}.

(** An asynchronous computation: from the calls logged so far to its
    completion and the log after it. *)
Definition Async (A : Type) : Type :=
  list LarkCall → Completion A * list LarkCall.

Definition ret {A} (a : A) : Async A := λ log, (Normal a, log).

Definition throw {A} (msg : string) : Async A := λ log, (Thrown msg, log).

Definition bind {A B} (m : Async A) (f : A → Async B) : Async B :=
  λ log,
    match m log with
    | (Normal a, log') => f a log'
    | (Thrown msg, log') => (Thrown msg, log')
    | (Unsettled, log') => (Unsettled, log')
    end.

(** [try { body } catch (error) { handler }]. *)
Definition tryCatch {A} (body : Async A) (handler : string → Async A) : Async A :=
  λ log,
    match body log with
    | (Thrown msg, log') => handler msg log'
    | done => done
    end.

#[global] Instance Async_ret : MRet Async := @ret.
#[global] Instance Async_bind : MBind Async := λ A B f m, bind m f.

(** The progress values and titles of the source. *)
Definition failureTitle : string := "❌ タスク失敗".

Definition failureDetails (msg : string) : string :=
  "エラーが発生しました: " ++ msg.

Definition newline : string := String (Ascii.ascii_of_nat 10) EmptyString.

(** [`${taskSteps.length}個のサブタスクに分解しました:\n${...join('\n')}`]. *)
Definition decomposedDetails (taskSteps : list TaskStep) : string :=
  pretty (length taskSteps) ++ "個のサブタスクに分解しました:" ++ newline ++
  String.concat newline (imap (λ i s, pretty (i + 1) ++ ". " ++ name s) taskSteps).

Definition runQualityChecks (results : gmap string Any) : bool * list Any :=
  (true, []).

Definition createDeliverable (results : gmap string Any) : Any :=
  AObj [("files", AArr []); ("summary", AStr "タスク完了"); ("metrics", AObj [])].

Definition reportUrl (documentId : string) : string :=
  "https://feishu.cn/docx/" ++ documentId.

Definition completionText (instruction docUrl : string) : string :=
  "🎉 タスク「" ++ instruction ++ "」が完了しました！" ++ newline ++ newline ++
  "📄 詳細レポート: " ++ docUrl.

(** The chat id is truthy. *)
Definition truthy (chatId : option string) : bool :=
  match chatId with
  | Some s => negb (String.eqb s "")
  | None => false
  end.

Section Executor.

(** How the Lark client settles a call, given the calls before it. *)
Variable lark : list LarkCall → LarkCall → Reply.

(** The environment of the coordinator's run, and its fuel. *)
Variable env : Config → Choice.
Variable fuel : nat.

Definition call (c : LarkCall) : Async string :=
  λ log,
    match lark log c with
    | Accepted documentId => (Normal documentId, (log ++ [c])%list)
    | Refused msg => (Thrown msg, (log ++ [c])%list)
    end.

Definition reportProgress (larkClient : bool) (chatId : option string)
           (title : string) (progress : nat) (details : string) : Async unit :=
  match chatId with
  | Some chat =>
      if larkClient && truthy chatId
      then call (SendProgressCard chat title progress details) ;; ret tt
      else ret tt
  | None => ret tt
  end.

(** [await coordinator.executeTaskDAG(taskSteps)]: the configuration the
    run ends in holds [results] and the task array as the run left it. *)
Definition awaitTaskDAG (coordinator : AgentCoordinator)
           (taskSteps : list TaskStep) : Async Config :=
  match executeTaskDAG coordinator env fuel taskSteps with
  | Some cfg =>
      match control cfg with
      | Returned => ret cfg
      | Aborted msg => throw msg
      | _ => λ log, (Unsettled, log)
      end
  | None => λ log, (Unsettled, log)
  end.

Definition autoFixIssues (issues : list Any) (coordinator : AgentCoordinator)
  : Async unit :=
  ret tt.

Definition createLarkReport (instruction : string) : Async string :=
  documentId ← call (CreateDocument ("Miyabi Report: " ++ instruction));
  ret (reportUrl documentId).

Definition executeMiyabiTask (params : Params.MiyabiTaskParams)
  : Async Result.MiyabiResult :=
  let instruction := Params.instruction params in
  let chatId := Params.chatId params in
  let larkClient := Params.larkClient params in
  tryCatch
    (reportProgress larkClient chatId "📋 タスク分析中" 0
       "あなたの指示を分析して、実行計画を立てています..." ;;
     let taskSteps := decompose instruction in
     reportProgress larkClient chatId "✅ タスク分解完了" 10
       (decomposedDetails taskSteps) ;;
     let coordinator := mkCoordinator larkClient chatId in
     cfg ← awaitTaskDAG coordinator taskSteps;
     let results := results cfg in
     reportProgress larkClient chatId "🔍 品質チェック実行中" 80
       "コード品質、セキュリティ、テストをチェックしています..." ;;
     let qualityCheck := runQualityChecks results in
     (if negb (fst qualityCheck)
      then reportProgress larkClient chatId "🔧 自動修正実行中" 85
             (pretty (length (snd qualityCheck)) ++
              "件の問題を検出。自動修正を試みています...") ;;
           autoFixIssues (snd qualityCheck) coordinator
      else ret tt) ;;
     reportProgress larkClient chatId "📦 成果物を準備中" 90
       "最終成果物をまとめています..." ;;
     let deliverable := createDeliverable results in
     reportProgress larkClient chatId "✅ タスク完了" 100
       "すべてのタスクが正常に完了しました！" ;;
     (if larkClient
      then docUrl ← createLarkReport instruction;
           call (SendMessage chatId "text" (completionText instruction docUrl)) ;;
           ret tt
      else ret tt) ;;
     ret (Result.mk true (tasks cfg) results deliverable))
    (λ msg,
       reportProgress larkClient chatId failureTitle 0 (failureDetails msg) ;;
       throw msg).

End Executor.

(** The progress values of the cards in a log, in the order of the
    calls. *)
Definition progressValues (log : list LarkCall) : list nat :=
  omap (λ c, match c with
             | SendProgressCard _ _ progress _ => Some progress
             | _ => None
             end) log.

(** * The Lark client

    [LarkClient] keeps a tenant access token and the time up to which it
    uses it.  Times are milliseconds and lifetimes seconds, both held as
    integers; each request is answered by a response body or fails (the
    [fetch], or reading the body, is rejected). *)

Module Lark.

Record LarkAPIResponse := mkResponse {
  code : Z;
  msg : option string;
  data : Any;
  tenant_access_token : option string;
  expire : option Z
}.

Inductive Fetched :=
| Answered (body : LarkAPIResponse)
| Failed (error : string).

Record LarkClient := mkClient {
  accessToken : string;
  tokenExpireTime : Z
}.

(** [new LarkClient(config)]. *)
Definition new : LarkClient := mkClient "" 0.

(** [s || d] for an optional string, and [n || d] for an optional
    number. *)
Definition stringOr (s : option string) (d : string) : string :=
  match s with
  | Some s' => if String.eqb s' "" then d else s'
  | None => d
  end.

Definition numberOr (n : option Z) (d : Z) : Z :=
  match n with
  | Some n' => if Z.eqb n' 0 then d else n'
  | None => d
  end.

(** The requests of the client. *)
Inductive Request :=
| TokenRequest
| MessageRequest (token receive_id msg_type content : string).

(** What a method leaves behind: how it completed, the client after
    it, and the requests it made. *)
Record Outcome (A : Type) := mkOutcome {
  completion : Completion A;
  after : LarkClient;
  requests : list Request
}.

Arguments mkOutcome {A} _ _ _.
Arguments completion {A} _.
Arguments after {A} _.
Arguments requests {A} _.

(** [getAccessToken], called at time [now]; [fetched] is the answer to
    the token request, should one be made. *)
Definition getAccessToken (now : Z) (fetched : Fetched) (this : LarkClient)
  : Outcome string :=
  if negb (String.eqb (accessToken this) "") && (now <? tokenExpireTime this)%Z
  then mkOutcome (Normal (accessToken this)) this []
  else
    match fetched with
    | Failed error => mkOutcome (Thrown error) this [TokenRequest]
    | Answered body =>
        if negb (code body =? 0)%Z
        then mkOutcome
               (Thrown ("Failed to get access token: " ++
                        stringOr (msg body) "Unknown error"))
               this [TokenRequest]
        else
          match tenant_access_token body with
          | Some token =>
              if String.eqb token ""
              then mkOutcome (Thrown "No access token in response")
                             this [TokenRequest]
              else mkOutcome
                     (Normal token)
                     (mkClient token
                        (now + (numberOr (expire body) 7200 - 300) * 1000)%Z)
                     [TokenRequest]
          | None => mkOutcome (Thrown "No access token in response")
                              this [TokenRequest]
          end
    end.

(** [sendMessage(params)], called at time [now]; [auth] and [sent] are
    the answers to the token request and to the message request. *)
Definition sendMessage (now : Z) (auth sent : Fetched)
           (receive_id msg_type content : string) (this : LarkClient)
  : Outcome Any :=
  let token := getAccessToken now auth this in
  match completion token with
  | Normal t =>
      let request := MessageRequest t receive_id msg_type content in
      match sent with
      | Failed error =>
          mkOutcome (Thrown error) (after token)
                    (requests token ++ [request])
      | Answered body =>
          if negb (code body =? 0)%Z
          then mkOutcome
                 (Thrown ("Failed to send message: " ++
                          stringOr (msg body) "Unknown error"))
                 (after token) (requests token ++ [request])
          else mkOutcome (Normal (data body)) (after token)
                         (requests token ++ [request])
      end
  | Thrown error => mkOutcome (Thrown error) (after token) (requests token)
  | Unsettled => mkOutcome Unsettled (after token) (requests token)
  end.

(** ** Markdown to blocks

    [markdownToLarkBlocks] reads a text line by line.  A string is the
    UTF-8 encoding of the text; [substring(n)] behind an ASCII prefix of
    [n] characters drops [n] bytes, and [line.trim()] is the empty string
    exactly when the line consists of the encodings of white space and
    line terminators. *)

Definition lineFeed : Ascii.ascii := Ascii.ascii_of_nat 10.

(** [s.split('\n')]. *)
Fixpoint split (s : string) : list string :=
  match s with
  | EmptyString => [EmptyString]
  | String c s' =>
      if Ascii.eqb c lineFeed then EmptyString :: split s'
      else match split s' with
           | line :: lines => String c line :: lines
           | [] => [String c EmptyString]
           end
  end.

(** [s.substring(n)]. *)
Fixpoint substring (n : nat) (s : string) : string :=
  match n, s with
  | S n', String _ s' => substring n' s'
  | _, _ => s
  end.

Definition encoded (bytes : list nat) : string :=
  String.string_of_list_ascii (Ascii.ascii_of_nat <$> bytes).

(** The code points that [trim] removes: U+0009 to U+000D, U+0020,
    U+00A0, U+1680, U+2000 to U+200A, U+2028, U+2029, U+202F, U+205F,
    U+3000 and U+FEFF. *)
Definition whiteSpace : list string :=
  ((encoded <$> [[9]; [10]; [11]; [12]; [13]; [32]; [194; 160]; [225; 154; 128]]) ++
   ((λ b, encoded [226; 128; b]) <$> seq 128 11) ++
   (encoded <$> [[226; 128; 168]; [226; 128; 169]; [226; 128; 175];
                 [226; 129; 159]; [227; 128; 128]; [239; 187; 191]]))%list.

(** Drop white space from the start, at most [fuel] times. *)
Fixpoint trimStart (fuel : nat) (s : string) : string :=
  match fuel with
  | 0 => s
  | S n =>
      match List.find (λ w, String.prefix w s) whiteSpace with
      | Some w => trimStart n (substring (String.length w) s)
      | None => s
      end
  end.

(** [!line.trim()]. *)
Definition blank (line : string) : bool :=
  String.eqb (trimStart (String.length line) line) "".

Record Block := mkBlock {
  block_type : nat;
  text : string
}.

Definition markdownToLarkBlocks (markdown : string) : list Block :=
  let lines := split markdown in
  foldl (λ (blocks : list Block) line,
           if String.prefix "# " line
           then (blocks ++ [mkBlock 1 (substring 2 line)])%list
           else if String.prefix "## " line
           then (blocks ++ [mkBlock 2 (substring 3 line)])%list
           else if negb (blank line)
           then (blocks ++ [mkBlock 3 line])%list
           else blocks)
        [] lines.

(** The line a block stands for. *)
Definition rendered (b : Block) : string :=
  match block_type b with
  | 1 => "# " ++ text b
  | 2 => "## " ++ text b
  | _ => text b
  end.

(** The lines that are kept: headings, and lines that are not blank. *)
Definition kept (line : string) : bool :=
  String.prefix "# " line || String.prefix "## " line || negb (blank line).

End Lark.

(** * Properties *)

(** Closes [∀ l, control cfg ≠ AwaitAll l] and the like from a hypothesis
    that tells what [control cfg] is. *)
Ltac other_control := intros ?; congruence.

(** ** Field updates *)

Lemma isPending_true t : isPending t = true ↔ status t = pending.
Proof. unfold isPending. by rewrite bool_decide_eq_true. Qed.

Lemma isPending_false t : isPending t = false ↔ status t ≠ pending.
Proof. unfold isPending. by rewrite bool_decide_eq_false. Qed.

Lemma isRunning_true t : isRunning t = true ↔ status t = running.
Proof. unfold isRunning. by rewrite bool_decide_eq_true. Qed.

Lemma isCompleted_true t : isCompleted t = true ↔ status t = completed.
Proof. unfold isCompleted. by rewrite bool_decide_eq_true. Qed.

Lemma dependsOn_true fid t : dependsOn fid t = true ↔ fid ∈ dependencies t.
Proof. unfold dependsOn. by rewrite bool_decide_eq_true. Qed.

Lemma sameStatic_refl t : sameStatic t t.
Proof. by repeat split. Qed.

(** ** The ready set *)

Lemma elem_of_seq_filter (f : nat → bool) n i :
  i ∈ List.filter f (seq 0 n) ↔ i < n ∧ f i = true.
Proof.
  rewrite list_elem_of_In, filter_In, in_seq. intuition lia.
Qed.

Lemma NoDup_seq_filter (f : nat → bool) n : NoDup (List.filter f (seq 0 n)).
Proof.
  apply NoDup_ListNoDup, List.NoDup_filter, List.seq_NoDup.
Qed.

Lemma depCompleted_true tm (σ : list TaskStep) d :
  depCompleted tm σ d = true ↔
  ∃ j depTask, tm !! d = Some j ∧ σ !! j = Some depTask ∧
               status depTask = completed.
Proof.
  unfold depCompleted. split.
  - destruct (tm !! d) as [j|]; [|done].
    destruct (σ !! j) as [dt|] eqn:E; [|done].
    rewrite isCompleted_true. eauto.
  - intros (j & dt & -> & -> & H). by apply isCompleted_true.
Qed.

Lemma isReady_true tm (σ : list TaskStep) t :
  isReady tm σ t = true ↔
  status t = pending ∧
  ∀ d, d ∈ dependencies t → depCompleted tm σ d = true.
Proof.
  unfold isReady. destruct (isPending t) eqn:E; simpl.
  - apply isPending_true in E. rewrite forallb_forall.
    setoid_rewrite <- list_elem_of_In. tauto.
  - apply isPending_false in E. split; [done|]. by intros [? _].
Qed.

Lemma elem_of_readyTasks tm (σ : list TaskStep) i :
  i ∈ readyTasks tm σ ↔
  ∃ t, σ !! i = Some t ∧ status t = pending ∧
       ∀ d, d ∈ dependencies t →
            ∃ j depTask, tm !! d = Some j ∧ σ !! j = Some depTask ∧
                         status depTask = completed.
Proof.
  unfold readyTasks. rewrite elem_of_seq_filter. unfold readyAt. split.
  - intros [Hi H]. destruct (σ !! i) as [t|] eqn:E; [|done].
    apply isReady_true in H as [Hp Hd]. exists t. split_and!; [done..|].
    intros d Hin. by apply depCompleted_true, Hd.
  - intros (t & E & Hp & Hd). split; [by eapply lookup_lt_Some|].
    rewrite E. apply isReady_true. split; [done|].
    intros d Hin. by apply depCompleted_true, Hd.
Qed.




(** ** [step] takes one of the listed steps *)

Lemma resumed_lookup (l : list (nat * Phase)) k (c : Choice) :
  l ≠ [] → k = resume c mod length l → is_Some (l !! k).
Proof.
  intros Hl ->. apply lookup_lt_is_Some.
  apply Nat.mod_upper_bound. by destruct l.
Qed.

Lemma step_Step this tm calm c cfg :
  final cfg = false →
  inflightInRange cfg →
  (calm = true → ¬ notifierThrows this AwaitNotifyComplete c cfg) →
  Step this tm calm cfg (step this tm c cfg).
Proof.
  intros Hf Hr Hcalm. unfold step.
  destruct (control cfg) as [|l| |] eqn:Hc; try (unfold final in Hf; by rewrite Hc in Hf).
  - unfold loopHead.
    destruct (existsb active (tasks cfg)) eqn:Ha; [|by apply Step_done].
    destruct (readyTasks tm (tasks cfg)) as [|r rs] eqn:Hrdy.
    + destruct (existsb isRunning (tasks cfg)) eqn:Hrun.
      * by apply Step_sleep.
      * by apply Step_break.
    + rewrite <- Hrdy. apply Step_dispatch; [done|]. by rewrite Hrdy.
  - destruct l as [|e l']; [by apply Step_barrier|].
    set (l := e :: l') in *.
    destruct (resumed_lookup l (resume c mod length l) c) as [[i ph] Hk]; [done..|].
    rewrite Hk.
    assert (is_Some (tasks cfg !! i)) as [t Ht].
    { apply lookup_lt_is_Some, Hr. unfold inflightOf. rewrite Hc.
      apply list_elem_of_fmap. exists (i, ph). split; [done|].
      by eapply list_elem_of_lookup_2. }
    unfold resumeClosure, catchBlock, idAt. rewrite Ht.
    destruct ph.
    + destruct (notifierSettled this (settle c)) as [v|msg] eqn:Hs; simpl.
      * unfold withControl; simpl. by eapply Step_started.
      * unfold withControl; simpl. eapply Step_caught; eauto.
        right. unfold notifierSettled in Hs. by destruct (notifierActive this).
    + destruct (settle c) as [v|msg]; unfold withControl; simpl.
      * by eapply Step_executed.
      * eapply Step_caught; eauto.
    + destruct (notifierSettled this (settle c)) as [v|msg] eqn:Hs; simpl.
      * by eapply Step_completed.
      * unfold withControl; simpl. eapply Step_caught; eauto.
        -- right. unfold notifierSettled in Hs. by destruct (notifierActive this).
        -- intros Hc' _. apply (Hcalm Hc'). exists i, msg. split; [|done].
           unfold resumed. by rewrite Hc.
    + destruct (notifierSettled this (settle c)) as [v|msg] eqn:Hs; simpl.
      * unfold withControl; simpl. by eapply Step_propagated.
      * eapply Step_aborted; eauto.
        unfold notifierSettled in Hs. by destruct (notifierActive this).
Qed.

Lemma step_final this tm c cfg : final cfg = true → step this tm c cfg = cfg.
Proof.
  unfold final, step. by destruct (control cfg).
Qed.

(** ** Counting pending tasks *)

Lemma pendingCount_cons t σ :
  pendingCount (t :: σ) = (if isPending t then 1 else 0) + pendingCount σ.
Proof. unfold pendingCount. simpl. by destruct (isPending t). Qed.

Lemma pendingCount_le_length σ : pendingCount σ ≤ length σ.
Proof.
  induction σ as [|t σ IH]; [done|]. rewrite pendingCount_cons. simpl.
  destruct (isPending t); lia.
Qed.

Lemma pendingCount_insert σ i t t' :
  σ !! i = Some t →
  pendingCount (<[i := t']> σ) + (if isPending t then 1 else 0)
  = pendingCount σ + (if isPending t' then 1 else 0).
Proof.
  revert i. induction σ as [|a σ IH]; intros [|i] H; try done; simpl in *.
  - inversion H; subst. rewrite !pendingCount_cons. lia.
  - rewrite !pendingCount_cons. specialize (IH i H). lia.
Qed.

Lemma pendingCount_mono (σ σ' : list TaskStep) :
  length σ' = length σ →
  (∀ i t', σ' !! i = Some t' → status t' = pending →
           ∃ t, σ !! i = Some t ∧ status t = pending) →
  pendingCount σ' ≤ pendingCount σ.
Proof.
  revert σ'. induction σ as [|a σ IH]; intros [|a' σ'] Hl H; try done.
  rewrite !pendingCount_cons. simpl in Hl.
  assert (pendingCount σ' ≤ pendingCount σ) as Hrec.
  { apply IH; [lia|]. intros i t' Hi Hp. by apply (H (S i) t'). }
  destruct (isPending a') eqn:Ea'; [|lia].
  destruct (H 0 a' eq_refl) as (t & Ht & Hp); [by apply isPending_true|].
  inversion Ht; subst. apply isPending_true in Hp. rewrite Hp. lia.
Qed.


(** ** Failure propagation *)

Lemma sameStatic_propagated d t : sameStatic t (propagated d t).
Proof. by repeat split. Qed.

Lemma propagated_ne d t : status t = pending → propagated d t ≠ t.
Proof. intros H E. apply (f_equal status) in E. simpl in E. congruence. Qed.

Lemma elem_of_dependents fid (σ : list TaskStep) i :
  i ∈ dependents fid σ ↔ ∃ t, σ !! i = Some t ∧ fid ∈ dependencies t.
Proof.
  unfold dependents. rewrite elem_of_seq_filter. split.
  - intros [_ H]. destruct (σ !! i) as [t|]; [|done].
    exists t. split; [done|]. by apply dependsOn_true.
  - intros (t & Ht & Hd). split; [by eapply lookup_lt_Some|].
    rewrite Ht. by apply dependsOn_true.
Qed.

Lemma collapses_pending fid (σ : list TaskStep) i t :
  collapses fid σ i → σ !! i = Some t → status t = pending.
Proof. intros H Hi. destruct H; congruence. Qed.

Lemma collapses_transfer f fid (σ1 σ : list TaskStep) k :
  (∀ j u, σ1 !! j = Some u → status u = pending → σ !! j = Some u) →
  (∀ j u1, σ1 !! j = Some u1 → ∃ u, σ !! j = Some u ∧ id u = id u1) →
  (∀ j u, σ1 !! j = Some u → status u = pending → f ∈ dependencies u →
          collapses fid σ j) →
  collapses f σ1 k → collapses fid σ k.
Proof.
  intros Hpend Hid Hseed H. induction H as [i t Hi Hp Hd|j u i t Hj IH Hju Hi Hp Hd].
  - by eapply Hseed.
  - destruct (Hid j u Hju) as (u0 & Hu0 & E).
    eapply collapses_chain; [exact IH|exact Hu0|by apply Hpend|done|by rewrite E].
Qed.

Lemma marksFrom_refl fid σ : marksFrom fid σ σ.
Proof. split; [done|]. intros i t H. by left. Qed.

(** A task that is still pending afterwards was not touched. *)
Lemma marksFrom_pending fid σ σ' j u :
  marksFrom fid σ σ' → σ' !! j = Some u → status u = pending →
  σ !! j = Some u.
Proof.
  intros [Hl H] Hj Hp.
  assert (is_Some (σ !! j)) as [t Ht].
  { apply lookup_lt_is_Some. rewrite <- Hl. by eapply lookup_lt_Some. }
  destruct (H j t Ht) as [E|(_ & d & _ & E & _)]; [congruence|].
  rewrite E in Hj. inversion Hj; subst. done.
Qed.

(** A task that was not pending is not touched. *)
Lemma marksFrom_settled fid σ σ' i t :
  marksFrom fid σ σ' → σ !! i = Some t → status t ≠ pending →
  σ' !! i = Some t.
Proof.
  intros [_ H] Hi Hp. destruct (H i t Hi) as [E|[Hc _]]; [done|].
  by apply (collapses_pending _ _ _ t) in Hc.
Qed.

Lemma marksFrom_static fid σ σ' i t :
  marksFrom fid σ σ' → σ !! i = Some t →
  ∃ t', σ' !! i = Some t' ∧ sameStatic t t' ∧ result t' = result t.
Proof.
  intros [_ H] Hi. destruct (H i t Hi) as [E|(_ & d & _ & E & _)].
  - exists t. split_and!; [done| apply sameStatic_refl |done].
  - exists (propagated d t). split_and!; [done| apply sameStatic_propagated |done].
Qed.

Lemma marksFrom_pendingCount fid σ σ' :
  marksFrom fid σ σ' → pendingCount σ' ≤ pendingCount σ.
Proof.
  intros H. apply pendingCount_mono; [apply H|].
  intros i t' Hi Hp. exists t'. split; [|done]. by eapply marksFrom_pending.
Qed.

Lemma closedUnder_mono fid σ σ' d :
  marksFrom fid σ σ' → closedUnder σ d → closedUnder σ' d.
Proof.
  intros H Hc j u Hj Hp. eapply Hc; [|done]. by eapply marksFrom_pending.
Qed.

(** One round of the [for] loop that fails task [i] and recurses, followed
    by the rest of the loop. *)
Lemma marks_compose fid σ i t σ2 σ' :
  σ !! i = Some t → status t = pending → fid ∈ dependencies t →
  marksFrom (id t) (<[i := propagated fid t]> σ) σ2 →
  closedUnder σ2 (id t) →
  changedClosed (<[i := propagated fid t]> σ) σ2 →
  marksFrom fid σ2 σ' → changedClosed σ2 σ' →
  marksFrom fid σ σ' ∧ changedClosed σ σ' ∧
  σ' !! i = Some (propagated fid t).
Proof.
  intros Hi Hp Hdep H12 Hcl Hcc12 H2' Hcc2'.
  set (σ1 := <[i := propagated fid t]> σ) in *.
  assert (σ1 !! i = Some (propagated fid t)) as F1.
  { apply list_lookup_insert_eq. by eapply lookup_lt_Some. }
  assert (∀ k, k ≠ i → σ1 !! k = σ !! k) as F2.
  { intros k Hk. by apply list_lookup_insert_ne. }
  assert (σ2 !! i = Some (propagated fid t)) as F3.
  { by eapply marksFrom_settled. }
  assert (σ' !! i = Some (propagated fid t)) as F4.
  { by eapply marksFrom_settled. }
  assert (∀ j u, σ1 !! j = Some u → status u = pending → σ !! j = Some u) as F5.
  { intros j u Hj Hpu. assert (j ≠ i) as Hne.
    { intros ->. rewrite F1 in Hj. by inversion Hj; subst. }
    by rewrite <- F2. }
  assert (∀ j u1, σ1 !! j = Some u1 → ∃ u, σ !! j = Some u ∧ id u = id u1) as F6.
  { intros j u1 Hj. destruct (decide (j = i)) as [->|Hne].
    - rewrite F1 in Hj. inversion Hj; subst. by exists t.
    - rewrite F2 in Hj by done. by exists u1. }
  assert (collapses fid σ i) as Ci by (by eapply collapses_direct).
  assert (∀ k, collapses (id t) σ1 k → collapses fid σ k) as T1.
  { intros k. apply collapses_transfer; [done..|].
    intros j u Hj Hpu Hd. eapply collapses_chain; [exact Ci|exact Hi| |done..].
    by apply F5. }
  assert (∀ k, collapses fid σ2 k → collapses fid σ k) as T2.
  { intros k. apply collapses_transfer.
    - intros j u Hj Hpu. apply F5; [|done]. by eapply marksFrom_pending.
    - intros j u2 Hj.
      assert (is_Some (σ1 !! j)) as [u1 Hu1].
      { apply lookup_lt_is_Some. rewrite <- (proj1 H12). by eapply lookup_lt_Some. }
      destruct (marksFrom_static _ _ _ _ _ H12 Hu1) as (u2' & E & Hst & _).
      rewrite E in Hj. inversion Hj; subst u2'.
      destruct (F6 j u1 Hu1) as (u & Hu & Hid). exists u. split; [done|].
      destruct Hst as (-> & _). done.
    - intros j u Hj Hpu Hd. eapply collapses_direct; [|done..].
      apply F5; [|done]. by eapply marksFrom_pending. }
  split_and!; [split| |done].
  - rewrite (proj1 H2'), (proj1 H12). apply length_insert.
  - intros k tk Hk. destruct (decide (k = i)) as [->|Hne].
    + rewrite Hi in Hk. inversion Hk; subst tk. right. split; [done|].
      exists fid. split_and!; [done..|by left].
    + rewrite <- F2 in Hk by done.
      destruct (proj2 H12 k tk Hk) as [E2|(Hck & d & Hd & E2 & Hpar)].
      * destruct (proj2 H2' k tk E2) as [E'|(Hck & d & Hd & E' & Hpar)];
          [by left|].
        right. split; [by apply T2|]. exists d. split_and!; [done..|].
        destruct Hpar as [->|(j & u & Hcj & Hj & Hid)]; [by left|].
        assert (status u = pending) as Hpu by (by eapply collapses_pending).
        right. exists j, u. split_and!; [by apply T2| |done].
        apply F5; [by eapply marksFrom_pending|done].
      * right. split; [by apply T1|]. exists d. split_and!; [done| |].
        { by eapply marksFrom_settled. }
        right. destruct Hpar as [->|(j & u & Hcj & Hj & Hid)].
        { by exists i, t. }
        exists j, u. split_and!; [by apply T1| |done].
        apply F5; [done|]. by eapply collapses_pending.
  - intros j u Hj Hch. destruct (decide (j = i)) as [->|Hne].
    + rewrite Hi in Hj. inversion Hj; subst u.
      by eapply closedUnder_mono.
    + rewrite <- F2 in Hj by done.
      destruct (proj2 H12 j u Hj) as [E2|(Hcu & d & Hd & E2 & _)].
      * by eapply Hcc2'.
      * eapply closedUnder_mono; [done|]. eapply Hcc12; [done|].
        rewrite E2. intros E. inversion E as [E1].
        apply propagated_ne in E1; [done|]. by eapply collapses_pending.
Qed.

Lemma markLoop_spec rec fid ds σ σ' :
  (∀ f s s', rec f s = Some s' →
             marksFrom f s s' ∧ closedUnder s' f ∧ changedClosed s s') →
  (∀ i t, i ∈ ds → σ !! i = Some t → fid ∈ dependencies t) →
  markLoop rec fid ds σ = Some σ' →
  marksFrom fid σ σ' ∧ changedClosed σ σ' ∧
  (∀ i t', i ∈ ds → σ' !! i = Some t' → status t' ≠ pending).
Proof.
  intros Hrec. revert σ. induction ds as [|i ds IH]; intros σ Hds H; simpl in H.
  - inversion H; subst. split_and!.
    + apply marksFrom_refl.
    + by intros j u Hj Hch.
    + intros i t' Hin. by apply elem_of_nil in Hin.
  - destruct (σ !! i) as [t|] eqn:Hi.
    + destruct (isPending t) eqn:Hp.
      * apply isPending_true in Hp.
        destruct (rec (id t) (<[i := propagated fid t]> σ)) as [σ2|] eqn:Hr;
          [|done].
        destruct (Hrec _ _ _ Hr) as (H12 & Hcl & Hcc12).
        assert (fid ∈ dependencies t) as Hdep by (eapply Hds; [by left|done]).
        assert (∀ k t2, k ∈ ds → σ2 !! k = Some t2 → fid ∈ dependencies t2)
          as Hds2.
        { intros k t2 Hk Hk2.
          assert (is_Some (<[i := propagated fid t]> σ !! k)) as [t1 Ht1].
          { apply lookup_lt_is_Some. rewrite <- (proj1 H12).
            by eapply lookup_lt_Some. }
          destruct (marksFrom_static _ _ _ _ _ H12 Ht1) as (t2' & E & Hst & _).
          rewrite E in Hk2. inversion Hk2; subst t2'.
          destruct Hst as (_ & _ & _ & _ & ->).
          destruct (decide (k = i)) as [->|Hne].
          - rewrite list_lookup_insert_eq in Ht1 by (by eapply lookup_lt_Some).
            by inversion Ht1; subst.
          - rewrite list_lookup_insert_ne in Ht1 by done.
            eapply Hds; [by right|done]. }
        destruct (IH σ2 Hds2 H) as (H2' & Hcc2' & Hnp).
        destruct (marks_compose fid σ i t σ2 σ') as (Hm & Hcc & Hi');
          try done.
        split_and!; [done..|].
        intros k t' Hk Hk'. apply elem_of_cons in Hk as [->|Hk].
        -- rewrite Hi' in Hk'. by inversion Hk'; subst.
        -- by eapply Hnp.
      * apply isPending_false in Hp.
        destruct (IH σ) as (Hm & Hcc & Hnp); [|done|].
        { intros k tk Hk. apply Hds. by right. }
        split_and!; [done..|].
        intros k t' Hk Hk'. apply elem_of_cons in Hk as [->|Hk]; [|by eapply Hnp].
        erewrite marksFrom_settled in Hk'; [|done..]. by inversion Hk'; subst.
    + destruct (IH σ) as (Hm & Hcc & Hnp); [|done|].
      { intros k tk Hk. apply Hds. by right. }
      split_and!; [done..|].
      intros k t' Hk Hk'. apply elem_of_cons in Hk as [->|Hk]; [|by eapply Hnp].
      apply lookup_lt_Some in Hk'. rewrite (proj1 Hm) in Hk'.
      apply lookup_ge_None in Hi. lia.
Qed.

Lemma mark_spec n fid σ σ' :
  mark n fid σ = Some σ' →
  marksFrom fid σ σ' ∧ closedUnder σ' fid ∧ changedClosed σ σ'.
Proof.
  revert fid σ σ'. induction n as [|n IH]; intros fid σ σ' H; [done|].
  simpl in H. apply markLoop_spec in H as (Hm & Hcc & Hnp); [|done|].
  - split_and!; [done| |done].
    intros j u Hj Hp Hd.
    assert (σ !! j = Some u) as Hj0 by (by eapply marksFrom_pending).
    eapply Hnp; [|done..]. apply elem_of_dependents. eauto.
  - intros i t Hi Ht. apply elem_of_dependents in Hi as (t0 & E & Hd).
    congruence.
Qed.

(** The recursion never runs out of fuel. *)
Lemma markLoop_total rec fid ds σ m :
  (∀ f s s', rec f s = Some s' → marksFrom f s s') →
  (∀ f s, pendingCount s < m → is_Some (rec f s)) →
  pendingCount σ ≤ m →
  is_Some (markLoop rec fid ds σ).
Proof.
  intros Hspec Htot. revert σ. induction ds as [|i ds IH]; intros σ Hm; simpl.
  - done.
  - destruct (σ !! i) as [t|] eqn:Hi; [|by apply IH].
    destruct (isPending t) eqn:Hp; [|by apply IH].
    assert (S (pendingCount (<[i := propagated fid t]> σ)) = pendingCount σ) as Hc.
    { pose proof (pendingCount_insert σ i t (propagated fid t) Hi) as Hc.
      rewrite Hp in Hc. change (isPending (propagated fid t)) with false in Hc.
      cbv iota in Hc. lia. }
    destruct (Htot (id t) (<[i := propagated fid t]> σ)) as [σ2 Hr]; [lia|].
    rewrite Hr. apply IH.
    apply Hspec, marksFrom_pendingCount in Hr. lia.
Qed.

Lemma mark_total n fid σ : pendingCount σ < n → is_Some (mark n fid σ).
Proof.
  revert fid σ. induction n as [|n IH]; intros fid σ H; [lia|].
  simpl. apply (markLoop_total _ _ _ _ n); [|done|lia].
  intros f s s' E. by apply mark_spec in E as [? _].
Qed.

Lemma mark_enough_fuel fid σ :
  mark (S (length σ)) fid σ = Some (markDependentTasksAsFailed fid σ).
Proof.
  unfold markDependentTasksAsFailed.
  destruct (mark_total (S (length σ)) fid σ) as [σ' ->]; [|done].
  pose proof (pendingCount_le_length σ). lia.
Qed.

Lemma markDependentTasksAsFailed_spec fid σ :
  marksFrom fid σ (markDependentTasksAsFailed fid σ) ∧
  closedUnder (markDependentTasksAsFailed fid σ) fid ∧
  changedClosed σ (markDependentTasksAsFailed fid σ).
Proof. eapply mark_spec, mark_enough_fuel. Qed.

(** Every task the invocation has to reach is failed by it. *)
Lemma marks_complete fid σ σ' i t :
  marksFrom fid σ σ' → closedUnder σ' fid → changedClosed σ σ' →
  collapses fid σ i → σ !! i = Some t → σ' !! i ≠ Some t.
Proof.
  intros Hm Hcl Hcc Hc. revert t.
  induction Hc as [i t0 Hi Hp Hd|j u i t0 Hj IH Hju Hi Hp Hd]; intros t Ht E;
    rewrite Hi in Ht; inversion Ht; subst t0.
  - by eapply Hcl.
  - eapply Hcc; [exact Hju|(by apply IH)|exact E|done..].
Qed.

(** ** The contracts of the two helpers *)

(** C5.  One invocation of the failure propagator for [fid] terminates and
    fails, with the error [Dependency <d> failed] for a dependency [d] of
    the task, exactly the tasks it has to reach: the pending tasks whose
    dependencies include [fid] and, recursively, the pending tasks whose
    dependencies include a task failed on the way.  Every other task, in
    particular every task that is running, completed or already failed,
    is left as it is, and afterwards no pending task depends on [fid] or on
    a task the invocation failed. *)
Theorem failure_propagation_contract fid σ :
  let σ' := markDependentTasksAsFailed fid σ in
  mark (S (length σ)) fid σ = Some σ' ∧
  length σ' = length σ ∧
  (∀ d t, propagated d t =
          mkTaskStep (id t) (name t) (description t) (agentType t)
                     (dependencies t) failed (result t)
                     (Some ("Dependency " ++ d ++ " failed")%string)) ∧
  (∀ i t, σ !! i = Some t → status t = pending → fid ∈ dependencies t →
          collapses fid σ i) ∧
  (∀ i t, σ !! i = Some t → collapses fid σ i →
          ∃ d, d ∈ dependencies t ∧ σ' !! i = Some (propagated d t) ∧
               (d = fid ∨
                ∃ j u, collapses fid σ j ∧ σ !! j = Some u ∧ id u = d)) ∧
  (∀ i t, σ !! i = Some t → ¬ collapses fid σ i → σ' !! i = Some t) ∧
  (∀ i t, σ !! i = Some t → status t ≠ pending → σ' !! i = Some t) ∧
  (∀ i t', σ' !! i = Some t' → status t' = pending →
           (fid ∉ dependencies t') ∧
           (∀ j u, collapses fid σ j → σ !! j = Some u →
                   id u ∉ dependencies t')).
Proof.
  intros σ'. destruct (markDependentTasksAsFailed_spec fid σ) as (Hm & Hcl & Hcc).
  fold σ' in Hm, Hcl, Hcc.
  split_and!.
  - apply mark_enough_fuel.
  - apply Hm.
  - done.
  - intros i t Hi Hp Hd. by eapply collapses_direct.
  - intros i t Hi Hc. destruct (proj2 Hm i t Hi) as [E|(_ & H)]; [|done].
    exfalso. by eapply (marks_complete fid σ σ' i t).
  - intros i t Hi Hn. by destruct (proj2 Hm i t Hi) as [E|(Hc & _)].
  - intros i t Hi Hp. by eapply marksFrom_settled.
  - intros i t' Hi Hp. split; [by eapply Hcl|].
    intros j u Hc Hj. eapply Hcc; [exact Hj| |exact Hi|done].
    by eapply (marks_complete fid σ σ' j u).
Qed.


(** ** The loop at a stall and on the empty collection *)

Lemma run_final this tm env fuel cfg :
  final cfg = true → run this tm env fuel cfg = Some cfg.
Proof. intros H. destruct fuel; simpl; by rewrite H. Qed.

Lemma run_step this tm env fuel cfg :
  final cfg = false →
  run this tm env (S fuel) cfg = run this tm env fuel (step this tm (env cfg) cfg).
Proof. intros H. simpl. by rewrite H. Qed.

(** C8.  When the loop reaches its head with an empty ready set and no
    running task, it ends there: the call returns (it is not rejected),
    the task array is as it was, so every task that was pending is still
    pending and none was failed, and no collaborator is called. *)
Theorem stall_ends_run_leaving_pending this tm env fuel cfg :
  control cfg = LoopHead →
  readyTasks tm (tasks cfg) = [] →
  existsb isRunning (tasks cfg) = false →
  ∃ cfg', run this tm env (S fuel) cfg = Some cfg' ∧
          control cfg' = Returned ∧
          tasks cfg' = tasks cfg ∧
          results cfg' = results cfg ∧
          trace cfg' = trace cfg ∧
          ∀ i t, tasks cfg !! i = Some t → status t = pending →
                 ∃ t', tasks cfg' !! i = Some t' ∧ status t' = pending.
Proof.
  intros Hc Hr Hn. exists (withControl Returned cfg).
  split_and!; try done.
  - rewrite run_step by (unfold final; by rewrite Hc).
    assert (step this tm (env cfg) cfg = withControl Returned cfg) as ->.
    { unfold step, loopHead. rewrite Hc, Hr, Hn. by destruct (existsb active (tasks cfg)). }
    by apply run_final.
  - intros i t Hi Hp. by exists t.
Qed.

(** C10.  On the empty task collection the loop condition is false at its
    first evaluation: the call returns an empty result map, and no agent
    and no notifier was called. *)
Theorem empty_collection_returns_empty this env fuel :
  executeTaskDAG this env (S fuel) [] = Some (mkConfig [] ∅ Returned []).
Proof.
  unfold executeTaskDAG. rewrite run_step by done.
  by rewrite run_final.
Qed.

(** ** Dispatch *)

Lemma setRunning_lookup ready (σ : list TaskStep) i :
  setRunning σ ready !! i =
  if decide (i ∈ ready) then setStatus running <$> σ !! i else σ !! i.
Proof.
  unfold setRunning. revert σ. induction ready as [|r ready IH]; intros σ; simpl.
  - destruct (decide (i ∈ [])) as [H|]; [by apply elem_of_nil in H|done].
  - rewrite IH. destruct (decide (i = r)) as [->|Hne].
    + rewrite list_lookup_alter_eq.
      destruct (decide (r ∈ ready)), (decide (r ∈ r :: ready)) as [|Hn];
        try (exfalso; apply Hn; by left); by destruct (σ !! r).
    + rewrite list_lookup_alter_ne by done.
      destruct (decide (i ∈ ready)), (decide (i ∈ r :: ready)) as [Hin|Hin];
        try done.
      * exfalso. apply Hin. by right.
      * by apply elem_of_cons in Hin as [->|].
Qed.

Lemma setRunning_length ready (σ : list TaskStep) :
  length (setRunning σ ready) = length σ.
Proof.
  unfold setRunning. revert σ. induction ready as [|r ready IH]; intros σ; simpl; [done|].
  by rewrite IH, length_alter.
Qed.

(** ** In-flight lists *)

Lemma inflight_insert_fst (l : list (nat * Phase)) k i ph ph' :
  l !! k = Some (i, ph) → (<[k := (i, ph')]> l).*1 = l.*1.
Proof.
  intros H. rewrite list_fmap_insert. simpl. apply list_insert_id.
  by rewrite list_lookup_fmap, H.
Qed.

Lemma inflight_insert_lookup (l : list (nat * Phase)) k k' e e' :
  <[k := e]> l !! k' = Some e' →
  (k' = k ∧ e' = e) ∨ (k' ≠ k ∧ l !! k' = Some e').
Proof.
  intros H. apply list_lookup_insert_Some in H as [(-> & -> & _)|[? ?]];
    [by left|right]. by split.
Qed.

Lemma inflight_delete_lookup (l : list (nat * Phase)) k k' e :
  delete k l !! k' = Some e → ∃ k'', k'' ≠ k ∧ l !! k'' = Some e.
Proof.
  intros H. destruct (decide (k' < k)).
  - rewrite list_lookup_delete_lt in H by done. exists k'. split; [lia|done].
  - rewrite list_lookup_delete_ge in H by lia. exists (S k'). split; [lia|done].
Qed.

Lemma inflight_delete_fst (l : list (nat * Phase)) k i ph j :
  NoDup l.*1 → l !! k = Some (i, ph) →
  j ∈ (delete k l).*1 ↔ j ∈ l.*1 ∧ j ≠ i.
Proof.
  intros Hnd Hk. rewrite delete_take_drop.
  rewrite <- (take_drop_middle l k (i, ph) Hk) in Hnd at 1.
  rewrite <- (take_drop_middle l k (i, ph) Hk) at 3.
  rewrite !fmap_app in *. rewrite fmap_cons in *. simpl in *.
  apply NoDup_app in Hnd as (_ & Hdis & Hnd2).
  apply NoDup_cons in Hnd2 as [Hni _].
  rewrite !elem_of_app, elem_of_cons. split.
  - intros [H|H].
    + split; [by left|]. intros ->. eapply Hdis; [done|]. by left.
    + split; [by right; right|]. by intros ->.
  - intros [[H|[->|H]] Hne]; [by left|done|by right].
Qed.

Lemma inflight_delete_NoDup (l : list (nat * Phase)) k :
  NoDup l.*1 → NoDup (delete k l).*1.
Proof.
  intros H. apply (sublist_NoDup _ (l.*1)); [exact H|].
  apply fmap_sublist, sublist_delete.
Qed.

Lemma inflight_lookup_NoDup (l : list (nat * Phase)) k k' i ph ph' :
  NoDup l.*1 → l !! k = Some (i, ph) → l !! k' = Some (i, ph') → k' = k.
Proof.
  intros Hnd Hk Hk'. eapply NoDup_lookup; [exact Hnd| |].
  - by rewrite list_lookup_fmap, Hk'.
  - by rewrite list_lookup_fmap, Hk.
Qed.

Lemma elem_of_inflight (l : list (nat * Phase)) i :
  i ∈ l.*1 ↔ ∃ k ph, l !! k = Some (i, ph).
Proof.
  rewrite list_elem_of_fmap. split.
  - intros ([j ph] & -> & Hin). apply list_elem_of_lookup_1 in Hin as [k Hk].
    by exists k, ph.
  - intros (k & ph & Hk). exists (i, ph). split; [done|].
    by eapply list_elem_of_lookup_2.
Qed.

(** ** The flight invariant *)

Lemma inflightOf_control cfg l : control cfg = AwaitAll l → inflightOf cfg = l.*1.
Proof. unfold inflightOf. by intros ->. Qed.

Lemma inflightOf_idle cfg :
  (∀ l, control cfg ≠ AwaitAll l) → inflightOf cfg = [].
Proof. unfold inflightOf. destruct (control cfg); naive_solver. Qed.

Lemma Flight_initial ts : noneRunning ts → Flight (initial ts).
Proof.
  intros H. split; simpl.
  - done.
  - apply NoDup_nil_2.
  - intros i t Hi Hr. by apply H in Hi.
Qed.

Lemma Flight_inRange cfg : Flight cfg → inflightInRange cfg.
Proof.
  intros F i Hi. unfold inflightOf in Hi.
  destruct (control cfg) as [|l| |] eqn:Hc; try by apply elem_of_nil in Hi.
  apply elem_of_inflight in Hi as (k & ph & Hk).
  destruct (flight_phase _ F l k i ph Hc Hk) as (t & Ht & _).
  by eapply lookup_lt_Some.
Qed.

(** At the head of the loop nothing is running. *)
Lemma Flight_idle cfg i t :
  Flight cfg → (∀ l, control cfg ≠ AwaitAll l) → (∀ m, control cfg ≠ Aborted m) →
  tasks cfg !! i = Some t → status t ≠ running.
Proof.
  intros F Hl Ha Hi Hr.
  destruct (flight_running _ F i t Hi Hr) as [Hin|[m Hm]].
  - rewrite inflightOf_idle in Hin by done. by apply elem_of_nil in Hin.
  - by eapply Ha.
Qed.

Lemma Flight_withControl cfg c :
  Flight cfg → (∀ l, control cfg ≠ AwaitAll l) → (∀ l, c ≠ AwaitAll l) →
  (∀ m, control cfg ≠ Aborted m) →
  Flight (withControl c cfg).
Proof.
  intros F Hl Hc Ha. split; simpl.
  - intros l k i ph E. by apply Hc in E.
  - rewrite inflightOf_idle by done. apply NoDup_nil_2.
  - intros i t Hi Hr. exfalso. by eapply (Flight_idle cfg i t).
Qed.

Lemma fst_awaitStart (ready : list nat) :
  ((λ i, (i, AwaitNotifyStart)) <$> ready).*1 = ready.
Proof.
  induction ready as [|r ready IH]; [done|].
  rewrite !fmap_cons. simpl. by f_equal.
Qed.

Lemma Flight_step this tm calm cfg cfg' :
  Flight cfg → Step this tm calm cfg cfg' → Flight cfg'.
Proof.
  intros F HS. destruct HS.
  - apply Flight_withControl; try done; other_control.
  - apply Flight_withControl; try done; other_control.
  - done.
  - (* dispatch *)
    set (ready := readyTasks tm (tasks cfg)).
    assert (∀ i t, tasks cfg !! i = Some t → status t ≠ running) as Hidle.
    { intros i t. apply Flight_idle; [done|other_control..]. }
    split; simpl.
    + intros l k i ph E Hk. inversion E; subst l.
      rewrite list_lookup_fmap in Hk.
      destruct (ready !! k) as [i'|] eqn:Hr; [|done]. simpl in Hk.
      inversion Hk; subst i' ph.
      apply list_elem_of_lookup_2 in Hr.
      pose proof Hr as Hr'. apply elem_of_readyTasks in Hr' as (t & Ht & _).
      rewrite setRunning_lookup, decide_True, Ht by done. by eexists.
    + unfold inflightOf; simpl. rewrite fst_awaitStart.
      apply NoDup_seq_filter.
    + intros i t Hi Hr. left. unfold inflightOf; simpl.
      rewrite fst_awaitStart. rewrite setRunning_lookup in Hi.
      destruct (decide (i ∈ ready)); [done|]. by apply Hidle in Hi.
  - (* barrier *)
    split; simpl.
    + done.
    + apply NoDup_nil_2.
    + intros i t Hi Hr.
      destruct (flight_running _ F i t Hi Hr) as [Hin|[m Hm]]; [|congruence].
      rewrite (inflightOf_control cfg []) in Hin by done.
      by apply elem_of_nil in Hin.
  - (* started *)
    split; simpl.
    + intros l' k' i' ph' E Hk'. inversion E; subst l'.
      apply inflight_insert_lookup in Hk' as [[-> Ee]|[Hne Hk']].
      * inversion Ee; subst i' ph'.
        destruct (flight_phase _ F l k i _ H H0) as (t' & Ht' & Hs). eauto.
      * by eapply (flight_phase _ F).
    + unfold inflightOf; simpl. erewrite inflight_insert_fst by done.
      rewrite <- (inflightOf_control cfg l) by done. apply F.
    + intros i' t' Hi' Hr. unfold inflightOf; simpl.
      erewrite inflight_insert_fst by done.
      destruct (flight_running _ F i' t' Hi' Hr) as [Hin|[m Hm]]; [|congruence].
      left. by rewrite <- (inflightOf_control cfg l).
  - (* executed *)
    pose proof (flight_nodup _ F) as Hnd.
    rewrite (inflightOf_control cfg l) in Hnd by done.
    split; simpl.
    + intros l' k' i' ph' E Hk'. inversion E; subst l'.
      apply inflight_insert_lookup in Hk' as [[-> Ee]|[Hne Hk']].
      * inversion Ee; subst i' ph'.
        rewrite list_lookup_alter_eq, H1. by eexists.
      * assert (i' ≠ i) as Hi'.
        { intros ->. apply Hne. by eapply inflight_lookup_NoDup. }
        rewrite list_lookup_alter_ne by done. by eapply (flight_phase _ F).
    + unfold inflightOf; simpl. by erewrite inflight_insert_fst.
    + intros i' t' Hi' Hr. unfold inflightOf; simpl.
      erewrite inflight_insert_fst by done.
      destruct (decide (i' = i)) as [->|Hne].
      * left. apply elem_of_inflight. eauto.
      * rewrite list_lookup_alter_ne in Hi' by done.
        destruct (flight_running _ F i' t' Hi' Hr) as [Hin|[m Hm]]; [|congruence].
        left. by rewrite <- (inflightOf_control cfg l).
  - (* caught *)
    pose proof (flight_nodup _ F) as Hnd.
    rewrite (inflightOf_control cfg l) in Hnd by done.
    destruct (flight_phase _ F l k i ph H H0) as (t & Ht & Hs).
    split; simpl.
    + intros l' k' i' ph' E Hk'. inversion E; subst l'.
      apply inflight_insert_lookup in Hk' as [[-> Ee]|[Hne Hk']].
      * inversion Ee; subst i' ph'.
        rewrite list_lookup_alter_eq, Ht. by eexists.
      * assert (i' ≠ i) as Hi'.
        { intros ->. apply Hne. by eapply inflight_lookup_NoDup. }
        rewrite list_lookup_alter_ne by done. by eapply (flight_phase _ F).
    + unfold inflightOf; simpl. by erewrite inflight_insert_fst.
    + intros i' t' Hi' Hr. unfold inflightOf; simpl.
      erewrite inflight_insert_fst by done.
      destruct (decide (i' = i)) as [->|Hne].
      * left. apply elem_of_inflight. eauto.
      * rewrite list_lookup_alter_ne in Hi' by done.
        destruct (flight_running _ F i' t' Hi' Hr) as [Hin|[m Hm]]; [|congruence].
        left. by rewrite <- (inflightOf_control cfg l).
  - (* completed *)
    pose proof (flight_nodup _ F) as Hnd.
    rewrite (inflightOf_control cfg l) in Hnd by done.
    destruct (flight_phase _ F l k i _ H H0) as (t & Ht & Hs).
    split; simpl.
    + intros l' k' i' ph' E Hk'. inversion E; subst l'.
      apply inflight_delete_lookup in Hk' as (k'' & _ & Hk'').
      by eapply (flight_phase _ F).
    + unfold inflightOf; simpl. by apply inflight_delete_NoDup.
    + intros i' t' Hi' Hr. unfold inflightOf; simpl. left.
      eapply inflight_delete_fst; [done..|].
      destruct (flight_running _ F i' t' Hi' Hr) as [Hin|[m Hm]]; [|congruence].
      rewrite (inflightOf_control cfg l) in Hin by done. split; [done|].
      intros ->. rewrite Ht in Hi'. inversion Hi'; subst. simpl in Hs. congruence.
  - (* propagated *)
    pose proof (flight_nodup _ F) as Hnd.
    rewrite (inflightOf_control cfg l) in Hnd by done.
    destruct (markDependentTasksAsFailed_spec (id t) (tasks cfg)) as (Hm & _ & _).
    split; simpl.
    + intros l' k' i' ph' E Hk'. inversion E; subst l'.
      apply inflight_delete_lookup in Hk' as (k'' & _ & Hk'').
      destruct (flight_phase _ F l k'' i' ph' H Hk'') as (t' & Ht' & Hs').
      exists t'. split; [|done]. eapply marksFrom_settled; [done..|].
      rewrite Hs'. by destruct ph'.
    + unfold inflightOf; simpl. by apply inflight_delete_NoDup.
    + intros i' t' Hi' Hr. unfold inflightOf; simpl. left.
      assert (tasks cfg !! i' = Some t') as Hi0.
      { assert (is_Some (tasks cfg !! i')) as [t0 Ht0].
        { apply lookup_lt_is_Some. rewrite <- (proj1 Hm). by eapply lookup_lt_Some. }
        destruct (proj2 Hm i' t0 Ht0) as [E|(_ & d & _ & E & _)].
        - congruence.
        - rewrite E in Hi'. inversion Hi'; subst. done. }
      eapply inflight_delete_fst; [done..|].
      destruct (flight_running _ F i' t' Hi0 Hr) as [Hin|[m Hm']]; [|congruence].
      rewrite (inflightOf_control cfg l) in Hin by done. split; [done|].
      intros ->. destruct (flight_phase _ F l k i _ H H0) as (t0 & Ht0 & Hs).
      rewrite Ht0 in Hi0. inversion Hi0; subst. simpl in Hs. congruence.
  - (* aborted *)
    split; simpl.
    + done.
    + apply NoDup_nil_2.
    + intros i' t' Hi' Hr. right. by eexists.
Qed.

Lemma reaches_Flight this tm allowed ts cfg :
  noneRunning ts →
  reaches this tm allowed (initial ts) cfg → Flight cfg.
Proof.
  intros H0 H. induction H as [|c cfg H IH Hok].
  - by apply Flight_initial.
  - destruct (final cfg) eqn:Hf.
    + by rewrite step_final.
    + eapply (Flight_step this tm false); [exact IH|].
      apply step_Step; [done| |done]. by apply Flight_inRange.
Qed.

(** ** Every step makes progress *)

Lemma flightRank_insert l k i ph ph' :
  l !! k = Some (i, ph) →
  flightRank (<[k := (i, ph')]> l) + phaseRank ph = flightRank l + phaseRank ph'.
Proof.
  revert k. induction l as [|[j q] l IH]; intros [|k] H; try done; simpl in *.
  - inversion H; subst. lia.
  - specialize (IH k H). lia.
Qed.

Lemma flightRank_delete l k i ph :
  l !! k = Some (i, ph) →
  flightRank (delete k l) + phaseRank ph = flightRank l.
Proof.
  revert k. induction l as [|[j q] l IH]; intros [|k] H; try done; simpl in *.
  - inversion H; subst. lia.
  - specialize (IH k H). lia.
Qed.

Lemma flightRank_awaitStart (ready : list nat) :
  flightRank ((λ i, (i, AwaitNotifyStart)) <$> ready) = 4 * length ready.
Proof.
  induction ready as [|r ready IH]; [done|].
  rewrite fmap_cons. simpl. rewrite IH. lia.
Qed.

Lemma alter_as_insert (f : TaskStep → TaskStep) (σ : list TaskStep) i t :
  σ !! i = Some t → alter f i σ = <[i := f t]> σ.
Proof.
  revert i. induction σ as [|a σ IH]; intros [|i] H; try done; simpl in *.
  - by inversion H.
  - f_equal. by apply IH.
Qed.

Lemma pendingCount_alter_settled (f : TaskStep → TaskStep) σ i t :
  σ !! i = Some t → status t ≠ pending → status (f t) ≠ pending →
  pendingCount (alter f i σ) = pendingCount σ.
Proof.
  intros Hi Hp Hp'. rewrite (alter_as_insert f σ i t Hi).
  pose proof (pendingCount_insert σ i t (f t) Hi) as E.
  apply isPending_false in Hp, Hp'. rewrite Hp, Hp' in E. lia.
Qed.

Lemma pendingCount_setRunning ready σ :
  NoDup ready →
  (∀ i, i ∈ ready → ∃ t, σ !! i = Some t ∧ status t = pending) →
  pendingCount (setRunning σ ready) + length ready = pendingCount σ.
Proof.
  revert σ. induction ready as [|r ready IH]; intros σ Hnd H; simpl.
  - unfold setRunning. simpl. lia.
  - apply NoDup_cons in Hnd as [Hr Hnd].
    destruct (H r) as (t & Ht & Hp); [by left|].
    change (setRunning σ (r :: ready))
      with (setRunning (alter (setStatus running) r σ) ready).
    assert (S (pendingCount (alter (setStatus running) r σ)) = pendingCount σ) as E.
    { rewrite (alter_as_insert _ σ r t Ht).
      pose proof (pendingCount_insert σ r t (setStatus running t) Ht) as E.
      apply isPending_true in Hp. rewrite Hp in E.
      change (isPending (setStatus running t)) with false in E.
      cbv iota in E. lia. }
    rewrite <- E, <- (IH (alter (setStatus running) r σ)); [lia|done|].
    intros i Hi. destruct (H i) as (ti & Hti & Hpi); [by right|].
    exists ti. split; [|done].
    rewrite list_lookup_alter_ne; [done|]. by intros ->.
Qed.

Lemma readyTasks_pending tm (σ : list TaskStep) i :
  i ∈ readyTasks tm σ → ∃ t, σ !! i = Some t ∧ status t = pending.
Proof. intros (t & ? & ? & _)%elem_of_readyTasks. eauto. Qed.

Lemma existsb_isRunning_true (σ : list TaskStep) :
  existsb isRunning σ = true → ∃ i t, σ !! i = Some t ∧ status t = running.
Proof.
  intros H. apply existsb_exists in H as (t & Hin & Hr).
  apply list_elem_of_In, list_elem_of_lookup_1 in Hin as [i Hi].
  exists i, t. split; [done|]. by apply isRunning_true.
Qed.

(** What a step does to the number of pending tasks. *)
Lemma Step_pendingCount this tm calm cfg cfg' :
  Flight cfg → Step this tm calm cfg cfg' →
  pendingCount (tasks cfg') ≤ pendingCount (tasks cfg).
Proof.
  intros F HS. destruct HS; simpl; try done.
  - pose proof (pendingCount_setRunning (readyTasks tm (tasks cfg)) (tasks cfg)
                  (NoDup_seq_filter _ _) (readyTasks_pending tm (tasks cfg))).
    lia.
  - destruct (flight_phase _ F l k i _ H H0) as (t' & Ht' & Hs).
    rewrite (pendingCount_alter_settled _ _ i t'); [done..| |done].
    rewrite Hs. done.
  - destruct (flight_phase _ F l k i _ H H0) as (t' & Ht' & Hs).
    rewrite (pendingCount_alter_settled _ _ i t'); [done..| |done].
    rewrite Hs. by destruct ph.
  - eapply marksFrom_pendingCount, markDependentTasksAsFailed_spec.
Qed.

Lemma Step_measure this tm calm cfg cfg' :
  Flight cfg → Step this tm calm cfg cfg' →
  final cfg' = true ∨ measure cfg' < measure cfg.
Proof.
  intros F HS. pose proof (Step_pendingCount this tm calm cfg cfg' F HS) as Hle.
  destruct HS; simpl in *; try (by left); right; unfold measure; simpl.
  - (* sleep *)
    exfalso. apply existsb_isRunning_true in H1 as (i & t & Hi & Hr).
    eapply (Flight_idle cfg i t); [done| | |done..]; other_control.
  - (* dispatch *)
    rewrite H. rewrite flightRank_awaitStart.
    pose proof (pendingCount_setRunning (readyTasks tm (tasks cfg)) (tasks cfg)
                  (NoDup_seq_filter _ _) (readyTasks_pending tm (tasks cfg))).
    destruct (readyTasks tm (tasks cfg)); [done|]. simpl in *. lia.
  - rewrite H. simpl. lia.
  - rewrite H. pose proof (flightRank_insert l k i _ AwaitExecuteTask H0).
    simpl in *. lia.
  - rewrite H. pose proof (flightRank_insert l k i _ AwaitNotifyComplete H0).
    simpl in *. lia.
  - rewrite H. pose proof (flightRank_insert l k i _ AwaitNotifyFailed H0).
    destruct ph; simpl in *; try done; lia.
  - rewrite H. pose proof (flightRank_delete l k i _ H0). simpl in *. lia.
  - rewrite H. pose proof (flightRank_delete l k i _ H0). simpl in *. lia.
Qed.

Lemma run_terminates this tm env fuel cfg :
  Flight cfg → measure cfg < fuel →
  ∃ cfg', run this tm env fuel cfg = Some cfg' ∧ final cfg' = true.
Proof.
  revert cfg. induction fuel as [|n IH]; intros cfg F Hm; [lia|].
  destruct (final cfg) eqn:Hf.
  - exists cfg. split; [by apply run_final|done].
  - rewrite run_step by done.
    assert (Step this tm false cfg (step this tm (env cfg) cfg)) as HS.
    { apply step_Step; [done| |done]. by apply Flight_inRange. }
    pose proof (Flight_step _ _ _ _ _ F HS) as F'.
    destruct (Step_measure _ _ _ _ _ F HS) as [Hf'|Hlt].
    + eexists. split; [by apply run_final|done].
    + apply IH; [done|lia].
Qed.

(** ** Who becomes running, and when *)

(** What a step can do to the task array, whatever the configuration. *)
Lemma step_tasks_cases this tm c cfg :
  tasks (step this tm c cfg) = tasks cfg ∨
  (control cfg = LoopHead ∧
   tasks (step this tm c cfg) = setRunning (tasks cfg) (readyTasks tm (tasks cfg))) ∨
  (∃ i v, tasks (step this tm c cfg) = alter (completedWith v) i (tasks cfg)) ∨
  (∃ i msg, tasks (step this tm c cfg) = alter (failedWith msg) i (tasks cfg)) ∨
  (∃ fid, tasks (step this tm c cfg) = markDependentTasksAsFailed fid (tasks cfg)).
Proof.
  unfold step. destruct (control cfg) as [|l| |] eqn:Hc; try by left.
  - unfold loopHead. destruct (existsb active (tasks cfg)); [|by left].
    destruct (readyTasks tm (tasks cfg)) as [|r rs] eqn:Hr.
    + destruct (existsb isRunning (tasks cfg)); by left.
    + right; left. by rewrite <- Hr.
  - destruct l as [|e l']; [by left|].
    destruct ((e :: l') !! (resume c mod length (e :: l'))) as [[i ph]|]; [|by left].
    unfold resumeClosure, catchBlock.
    destruct ph; [destruct (notifierSettled this (settle c))
                 |destruct (settle c)
                 |destruct (notifierSettled this (settle c))
                 |destruct (notifierSettled this (settle c))]; simpl; eauto 10.
Qed.

Lemma setRunning_settled ready (σ : list TaskStep) j u :
  (∀ i, i ∈ ready → ∃ t, σ !! i = Some t ∧ status t = pending) →
  σ !! j = Some u → status u ≠ pending →
  setRunning σ ready !! j = Some u.
Proof.
  intros Hr Hj Hp. rewrite setRunning_lookup.
  destruct (decide (j ∈ ready)) as [Hin|]; [|done].
  destruct (Hr j Hin) as (t & Ht & Hpt). congruence.
Qed.

(** C3.  A task becomes running only in the dispatch that follows a
    ready-set computation, only when it is in that ready set, and every
    one of its dependency ids is mapped by [taskMap] to a task that is
    completed when the ready set is computed and at every moment of the
    dispatch that follows ([n] counts the ready tasks already set to
    running). *)
Theorem no_premature_dispatch this tm c cfg i t t' :
  tasks cfg !! i = Some t →
  tasks (step this tm c cfg) !! i = Some t' →
  status t ≠ running → status t' = running →
  control cfg = LoopHead ∧
  i ∈ readyTasks tm (tasks cfg) ∧
  ∀ d, d ∈ dependencies t →
       ∃ j, tm !! d = Some j ∧
            ∀ n, ∃ depTask,
                setRunning (tasks cfg) (take n (readyTasks tm (tasks cfg))) !! j
                = Some depTask ∧
                status depTask = completed.
Proof.
  intros Hi Hi' Hs Hs'.
  destruct (step_tasks_cases this tm c cfg)
    as [E|[[Hc E]|[(k & v & E)|[(k & msg & E)|[fid E]]]]]; rewrite E in Hi'.
  - congruence.
  - rewrite setRunning_lookup in Hi'.
    destruct (decide (i ∈ readyTasks tm (tasks cfg))) as [Hin|]; [|congruence].
    split_and!; [done..|].
    pose proof Hin as Hin'. apply elem_of_readyTasks in Hin' as (t0 & Ht0 & _ & Hd).
    rewrite Hi in Ht0. inversion Ht0; subst t0.
    intros d Hdep. destruct (Hd d Hdep) as (j & dt & Hj & Hdt & Hcomp).
    exists j. split; [done|]. intros n. exists dt. split; [|done].
    apply setRunning_settled; [|done|congruence].
    intros r Hr. apply readyTasks_pending with (tm := tm).
    apply elem_of_take in Hr as (m & Hm & _). by eapply list_elem_of_lookup_2.
  - destruct (decide (k = i)) as [->|Hne].
    + rewrite list_lookup_alter_eq, Hi in Hi'. inversion Hi'; subst. done.
    + rewrite list_lookup_alter_ne in Hi' by done. congruence.
  - destruct (decide (k = i)) as [->|Hne].
    + rewrite list_lookup_alter_eq, Hi in Hi'. inversion Hi'; subst. done.
    + rewrite list_lookup_alter_ne in Hi' by done. congruence.
  - destruct (markDependentTasksAsFailed_spec fid (tasks cfg)) as ([_ Hm] & _).
    destruct (Hm i t Hi) as [E'|(_ & d & _ & E' & _)]; rewrite E' in Hi';
      inversion Hi'; subst; done.
Qed.

(** ** Every step moves every task along its life cycle *)

Lemma TaskMove_static calm t t' : TaskMove calm t t' → sameStatic t t'.
Proof. intros H. destruct H; by repeat split. Qed.

(** A task that is still pending was not touched. *)
Lemma TaskMove_pending calm t t' :
  TaskMove calm t t' → status t' = pending → t' = t.
Proof. intros H Hp. by destruct H. Qed.

Lemma Step_TaskMove this tm calm cfg cfg' :
  Flight cfg → Step this tm calm cfg cfg' →
  length (tasks cfg') = length (tasks cfg) ∧
  ∀ i t, tasks cfg !! i = Some t →
         ∃ t', tasks cfg' !! i = Some t' ∧ TaskMove calm t t'.
Proof.
  intros F HS.
  assert (∀ σ : list TaskStep,
    length σ = length σ ∧
    ∀ i t, σ !! i = Some t → ∃ t', σ !! i = Some t' ∧ TaskMove calm t t') as Hsame.
  { intros σ. split; [done|]. intros i t Hi. exists t. split; [done|constructor]. }
  destruct HS; simpl; try apply Hsame.
  - (* dispatch *)
    split; [apply setRunning_length|]. intros i t Hi.
    rewrite setRunning_lookup, Hi.
    destruct (decide (i ∈ readyTasks tm (tasks cfg))) as [Hin|].
    + apply readyTasks_pending in Hin as (t0 & Ht0 & Hp).
      rewrite Hi in Ht0. inversion Ht0; subst t0.
      eexists. split; [done|]. by constructor.
    + exists t. split; [done|constructor].
  - (* executed *)
    split; [apply length_alter|]. intros i' t' Hi'.
    destruct (decide (i' = i)) as [->|Hne].
    + destruct (flight_phase _ F l k i _ H H0) as (t0 & Ht0 & Hs).
      rewrite Hi' in Ht0. inversion Ht0; subst t0.
      rewrite list_lookup_alter_eq, Hi'. eexists. split; [done|].
      by constructor.
    + rewrite list_lookup_alter_ne by done. exists t'. split; [done|constructor].
  - (* caught *)
    split; [apply length_alter|]. intros i' t' Hi'.
    destruct (decide (i' = i)) as [->|Hne].
    + destruct (flight_phase _ F l k i _ H H0) as (t0 & Ht0 & Hs).
      rewrite Hi' in Ht0. inversion Ht0; subst t0.
      rewrite list_lookup_alter_eq, Hi'. eexists. split; [done|].
      destruct ph; simpl in Hs; try done.
      * by apply Move_fail.
      * by apply Move_fail.
      * apply Move_overwrite; [|done]. destruct calm; [|done].
        by exfalso; apply H3.
    + rewrite list_lookup_alter_ne by done. exists t'. split; [done|constructor].
  - (* propagated *)
    destruct (markDependentTasksAsFailed_spec (id t) (tasks cfg)) as (Hm & _ & _).
    split; [apply Hm|]. intros i' t' Hi'.
    destruct (proj2 Hm i' t' Hi') as [E|(Hc & d & Hd & E & _)].
    + exists t'. split; [done|constructor].
    + eexists. split; [done|]. apply Move_propagate; [|done].
      by eapply collapses_pending.
Qed.

(** The other direction: what a task of the new array was before. *)
Lemma Step_TaskMove_inv this tm calm cfg cfg' i t' :
  Flight cfg → Step this tm calm cfg cfg' →
  tasks cfg' !! i = Some t' →
  ∃ t, tasks cfg !! i = Some t ∧ TaskMove calm t t'.
Proof.
  intros F HS Hi'. destruct (Step_TaskMove _ _ _ _ _ F HS) as [Hl Hm].
  assert (is_Some (tasks cfg !! i)) as [t Ht].
  { apply lookup_lt_is_Some. rewrite <- Hl. by eapply lookup_lt_Some. }
  destruct (Hm i t Ht) as (t'' & E & Hmv). exists t. split; [done|]. congruence.
Qed.

Lemma Step_staticView this tm calm cfg cfg' :
  Flight cfg → Step this tm calm cfg cfg' →
  staticView (tasks cfg') = staticView (tasks cfg).
Proof.
  intros F HS. destruct (Step_TaskMove _ _ _ _ _ F HS) as [Hl Hm].
  unfold staticView. apply list_eq. intros i. rewrite !list_lookup_fmap.
  destruct (tasks cfg !! i) as [t|] eqn:Ht.
  - destruct (Hm i t Ht) as (t' & -> & Hmv). simpl.
    apply TaskMove_static in Hmv as (-> & _ & _ & _ & ->). done.
  - apply lookup_ge_None in Ht. rewrite <- Hl in Ht.
    apply lookup_ge_None in Ht. by rewrite Ht.
Qed.

(** ** The records *)

Lemma elem_of_notifyTaskFailed this i msg e :
  e ∈ notifyTaskFailed this i msg → e = SendFailed i msg.
Proof.
  unfold notifyTaskFailed. destruct (notifierActive this).
  - by intros ->%list_elem_of_singleton.
  - by intros ?%elem_of_nil.
Qed.

Lemma elem_of_notifyTaskComplete this i e :
  e ∈ notifyTaskComplete this i → e = SendComplete i.
Proof.
  unfold notifyTaskComplete. destruct (notifierActive this).
  - by intros ->%list_elem_of_singleton.
  - by intros ?%elem_of_nil.
Qed.

Lemma elem_of_notifyTaskStart this ready e :
  e ∈ flat_map (notifyTaskStart this) ready → ∃ i, e = SendStart i.
Proof.
  rewrite list_elem_of_In, in_flat_map. intros (i & _ & Hin).
  apply list_elem_of_In in Hin. unfold notifyTaskStart in Hin.
  destruct (notifierActive this).
  - apply list_elem_of_singleton in Hin. eauto.
  - by apply elem_of_nil in Hin.
Qed.

Lemma TaskMove_fieldsOk calm t t' : fieldsOk t → TaskMove calm t t' → fieldsOk t'.
Proof.
  unfold fieldsOk. intros Hf H. destruct H; simpl; try done.
  - by rewrite H in Hf.
  - rewrite H in Hf. destruct Hf as [_ ->]. split; [by eexists|done].
Qed.

(** Steps that write no result and record no agent return. *)
Lemma returnedOk_keep (σ σ' : list TaskStep) (tr tr' : list Event) :
  returnedOk σ tr →
  (∀ i, result <$> σ' !! i = result <$> σ !! i) →
  (∀ i v, AgentReturned i v ∈ tr' ↔ AgentReturned i v ∈ tr) →
  returnedOk σ' tr'.
Proof.
  intros [H1 H2] Hres Htr. split.
  - intros i v Hin. apply Htr, H1 in Hin as (t & Ht & Hv).
    specialize (Hres i). rewrite Ht in Hres.
    destruct (σ' !! i) as [t'|]; [|done]. simpl in Hres.
    exists t'. split; [done|]. congruence.
  - intros i t' v Ht' Hv. apply Htr. specialize (Hres i). rewrite Ht' in Hres.
    destruct (σ !! i) as [t|] eqn:Ht; [|done]. simpl in Hres.
    eapply H2; [done|]. congruence.
Qed.

Lemma result_alter_failedWith (σ : list TaskStep) msg i j :
  result <$> alter (failedWith msg) i σ !! j = result <$> σ !! j.
Proof.
  destruct (decide (i = j)) as [->|Hne].
  - rewrite list_lookup_alter_eq. by destruct (σ !! j).
  - by rewrite list_lookup_alter_ne.
Qed.

Lemma Recorded_step this tm calm cfg cfg' :
  Flight cfg → Recorded cfg → Step this tm calm cfg cfg' → Recorded cfg'.
Proof.
  intros F [Hf Htr] HS. split.
  - intros i t' Hi'.
    destruct (Step_TaskMove_inv _ _ _ _ _ i t' F HS Hi') as (t & Ht & Hmv).
    eapply TaskMove_fieldsOk; [|done]. by eapply Hf.
  - destruct HS; simpl; try done.
    + (* dispatch *)
      eapply returnedOk_keep; [done| |].
      * intros i. rewrite setRunning_lookup.
        destruct (decide _); [|done]. by destruct (tasks cfg !! i).
      * intros i v. rewrite elem_of_app. split; [|by left].
        intros [?|Hin]; [done|]. by apply elem_of_notifyTaskStart in Hin as [? ?].
    + (* started *)
      eapply returnedOk_keep; [done|done|].
      intros i' v. rewrite elem_of_app. split; [|by left].
      intros [?|Hin]; [done|]. by apply list_elem_of_singleton in Hin.
    + (* executed *)
      destruct (flight_phase _ F l k i _ H H0) as (t0 & Ht0 & Hs).
      rewrite H1 in Ht0. inversion Ht0; subst t0. simpl in Hs.
      pose proof (Hf i t H1) as Hfi. unfold fieldsOk in Hfi. rewrite Hs in Hfi.
      destruct Hfi as [Hnone _]. destruct Htr as [H1' H2'].
      split.
      * intros i' v' Hin. apply elem_of_app in Hin as [Hin|Hin].
        -- destruct (H1' i' v' Hin) as (t' & Ht' & Hv').
           assert (i' ≠ i) by (intros ->; congruence).
           exists t'. by rewrite list_lookup_alter_ne.
        -- apply elem_of_cons in Hin as [E|Hin].
           ++ inversion E; subst i' v'.
              rewrite list_lookup_alter_eq, H1. by eexists.
           ++ by apply elem_of_notifyTaskComplete in Hin.
      * intros i' t' v' Hi' Hv'. apply elem_of_app.
        destruct (decide (i' = i)) as [->|Hne].
        -- rewrite list_lookup_alter_eq, H1 in Hi'. inversion Hi'; subst t'.
           simpl in Hv'. inversion Hv'; subst v'. right. by left.
        -- rewrite list_lookup_alter_ne in Hi' by done. left. by eapply H2'.
    + (* caught *)
      eapply returnedOk_keep; [done| |].
      * intros j. apply result_alter_failedWith.
      * intros i' v. rewrite elem_of_app. split; [|by left].
        intros [?|Hin]; [done|]. by apply elem_of_notifyTaskFailed in Hin.
    + (* propagated *)
      eapply returnedOk_keep; [done| |done].
      intros j.
      destruct (markDependentTasksAsFailed_spec (id t) (tasks cfg)) as (Hm & _ & _).
      destruct (tasks cfg !! j) as [tj|] eqn:Hj.
      * destruct (marksFrom_static _ _ _ _ _ Hm Hj) as (t' & -> & _ & Hr).
        simpl. by rewrite Hr.
      * apply lookup_ge_None in Hj. rewrite <- (proj1 Hm) in Hj.
        apply lookup_ge_None in Hj. by rewrite Hj.
Qed.

Lemma allFresh_lookup ts i t :
  allFresh ts = true → ts !! i = Some t →
  status t = pending ∧ result t = None ∧ error t = None.
Proof.
  intros H Hi. unfold allFresh in H. rewrite forallb_forall in H.
  specialize (H t). unfold isFresh in H.
  apply list_elem_of_lookup_2, list_elem_of_In in Hi. apply H in Hi.
  apply andb_true_iff in Hi as [Hp Hr]. apply isPending_true in Hp.
  by destruct (result t), (error t).
Qed.

Lemma allFresh_noneRunning ts : allFresh ts = true → noneRunning ts.
Proof.
  intros H i t Hi. destruct (allFresh_lookup ts i t H Hi) as (-> & _). done.
Qed.

Lemma Recorded_initial ts : allFresh ts = true → Recorded (initial ts).
Proof.
  intros H. split; simpl.
  - intros i t Hi. destruct (allFresh_lookup ts i t H Hi) as (Hp & Hr & He).
    unfold fieldsOk. by rewrite Hp.
  - split.
    + intros i v Hin. by apply elem_of_nil in Hin.
    + intros i t v Hi Hv. destruct (allFresh_lookup ts i t H Hi) as (_ & Hr & _).
      congruence.
Qed.

(** Invariants along a run: [I] holds at the start and every step from a
    configuration with [Flight] and [I] keeps it. *)
Lemma reaches_invariant this tm calm allowed ts (I : Config → Prop) cfg :
  noneRunning ts →
  (∀ cfg c, calm = true → allowed cfg c →
            ¬ notifierThrows this AwaitNotifyComplete c cfg) →
  I (initial ts) →
  (∀ cfg cfg', Flight cfg → I cfg → Step this tm calm cfg cfg' → I cfg') →
  reaches this tm allowed (initial ts) cfg → I cfg.
Proof.
  intros H0 Hcalm Hinit Hstep H. induction H as [|c cfg H IH Hok].
  - done.
  - destruct (final cfg) eqn:Hf.
    + by rewrite step_final.
    + pose proof (reaches_Flight _ _ _ _ _ H0 H) as F.
      eapply Hstep; [exact F|exact IH|].
      apply step_Step; [done|by apply Flight_inRange|].
      intros Hc. by apply Hcalm.
Qed.


(** ** The result map *)

Lemma NoDup_ids_lookup (σ : list TaskStep) i j t u :
  NoDup (id <$> σ) → σ !! i = Some t → σ !! j = Some u → id t = id u → i = j.
Proof.
  intros Hnd Hi Hj E. eapply NoDup_lookup; [exact Hnd| |].
  - by rewrite list_lookup_fmap, Hi.
  - rewrite list_lookup_fmap, Hj. simpl. by rewrite E.
Qed.

Lemma staticView_ids (σ σ' : list TaskStep) :
  staticView σ' = staticView σ → id <$> σ' = id <$> σ.
Proof.
  unfold staticView. intros H. apply (f_equal (fmap fst)) in H.
  by rewrite <- !list_fmap_compose in H.
Qed.

Lemma ResultsAgree_step this tm calm cfg cfg' :
  Flight cfg → NoDup (id <$> tasks cfg) →
  ResultsAgree cfg → Step this tm calm cfg cfg' → ResultsAgree cfg'.
Proof.
  intros F Hnd [Ht Hk] HS.
  pose proof (Step_TaskMove _ _ _ _ _ F HS) as [Hl Hmv].
  assert (∀ k v, results cfg !! k = Some v →
                 ∃ i t, tasks cfg' !! i = Some t ∧ id t = k) as Hk'.
  { intros k0 v Hr. destruct (Hk k0 v Hr) as (i & t & Hi & Hid).
    destruct (Hmv i t Hi) as (t' & Hi' & Hm). exists i, t'. split; [done|].
    apply TaskMove_static in Hm as (-> & _). done. }
  assert (results cfg' = results cfg →
          (∀ i, result <$> tasks cfg' !! i = result <$> tasks cfg !! i) →
          ResultsAgree cfg') as Hkeep.
  { intros Er Hres. split.
    - intros i t' Hi'. rewrite Er.
      destruct (Step_TaskMove_inv _ _ _ _ _ i t' F HS Hi') as (t & Hi & Hm).
      specialize (Hres i). rewrite Hi, Hi' in Hres. simpl in Hres.
      apply TaskMove_static in Hm as (-> & _). rewrite (Ht i t Hi). congruence.
    - intros k0 v. rewrite Er. apply Hk'. }
  destruct HS; simpl in *; try (by apply Hkeep).
  - (* dispatch *)
    apply Hkeep; [done|]. intros i. rewrite setRunning_lookup.
    destruct (decide _); [|done]. by destruct (tasks cfg !! i).
  - (* executed *)
    split; simpl.
    + intros i' t' Hi'. destruct (decide (i' = i)) as [->|Hne].
      * rewrite list_lookup_alter_eq, H1 in Hi'. inversion Hi'; subst t'.
        simpl. by rewrite lookup_insert_eq.
      * rewrite list_lookup_alter_ne in Hi' by done.
        rewrite lookup_insert_ne; [exact (Ht i' t' Hi')|].
        intros E. apply Hne. symmetry.
        exact (NoDup_ids_lookup (tasks cfg) i i' t t' Hnd H1 Hi' E).
    + intros k0 v0 Hr. destruct (decide (id t = k0)) as [<-|Hne].
      * exists i, (completedWith v t). split; [|done].
        by rewrite list_lookup_alter_eq, H1.
      * rewrite lookup_insert_ne in Hr by done. by eapply Hk'.
  - (* caught *)
    apply Hkeep; [done|]. intros j. apply result_alter_failedWith.
  - (* propagated *)
    apply Hkeep; [done|]. intros j.
    destruct (markDependentTasksAsFailed_spec (id t) (tasks cfg)) as (Hm & _ & _).
    destruct (tasks cfg !! j) as [tj|] eqn:Hj.
    + destruct (marksFrom_static _ _ _ _ _ Hm Hj) as (t' & -> & _ & Hr).
      simpl. by rewrite Hr.
    + apply lookup_ge_None in Hj. rewrite <- (proj1 Hm) in Hj.
      apply lookup_ge_None in Hj. by rewrite Hj.
Qed.

Lemma ResultsAgree_initial ts : allFresh ts = true → ResultsAgree (initial ts).
Proof.
  intros H. split; simpl.
  - intros i t Hi. destruct (allFresh_lookup ts i t H Hi) as (_ & -> & _).
    apply lookup_empty.
  - intros k v Hr. by rewrite lookup_empty in Hr.
Qed.

(** Ids and dependency lists never change along a run. *)
Lemma reaches_staticView this tm allowed ts cfg :
  noneRunning ts →
  reaches this tm allowed (initial ts) cfg →
  staticView (tasks cfg) = staticView ts.
Proof.
  intros H0. apply (reaches_invariant this tm false allowed ts
                      (λ cfg, staticView (tasks cfg) = staticView ts)); try done.
  intros c c' F IH HS. rewrite <- IH. by eapply Step_staticView.
Qed.

Lemma reaches_Recorded this tm allowed ts cfg :
  allFresh ts = true →
  reaches this tm allowed (initial ts) cfg → Recorded cfg.
Proof.
  intros H0. apply (reaches_invariant this tm false allowed ts Recorded).
  - by apply allFresh_noneRunning.
  - done.
  - by apply Recorded_initial.
  - intros c c' F IH HS. by eapply Recorded_step.
Qed.

Lemma reaches_ResultsAgree this tm allowed ts cfg :
  allFresh ts = true → uniqueIds ts = true →
  reaches this tm allowed (initial ts) cfg → ResultsAgree cfg.
Proof.
  intros H0 Hu Hr.
  pose proof (allFresh_noneRunning ts H0) as Hn.
  assert (ResultsAgree cfg ∧ staticView (tasks cfg) = staticView ts) as [? _];
    [|done].
  revert Hr.
  apply (reaches_invariant this tm false allowed ts
           (λ cfg, ResultsAgree cfg ∧ staticView (tasks cfg) = staticView ts));
    try done.
  - split; [by apply ResultsAgree_initial|done].
  - intros c c' F [IH Hst] HS. split.
    + eapply ResultsAgree_step; [done| |done..].
      rewrite (staticView_ids _ _ Hst). by apply bool_decide_eq_true in Hu.
    + rewrite <- Hst. by eapply Step_staticView.
Qed.


(** ** The dispatch discipline *)

Lemma Step_closedUnder this tm calm cfg cfg' d :
  Flight cfg → Step this tm calm cfg cfg' →
  closedUnder (tasks cfg) d → closedUnder (tasks cfg') d.
Proof.
  intros F HS Hc j u' Hj Hp.
  destruct (Step_TaskMove_inv _ _ _ _ _ j u' F HS Hj) as (u & Hu & Hmv).
  apply TaskMove_pending in Hmv; [|done]. subst u'. by eapply Hc.
Qed.

Lemma Step_settled this tm calm cfg cfg' d :
  Flight cfg → Step this tm calm cfg cfg' →
  settled tm cfg d → settled tm cfg' d.
Proof.
  intros F HS (j & dt & Hj & Hdt & Hc & Hnin).
  pose proof (flight_nodup _ F) as Hnd.
  exists j, dt. split; [done|].
  destruct HS; simpl; try (split_and!; [done..|]).
  - apply not_elem_of_nil.
  - apply not_elem_of_nil.
  - done.
  - (* dispatch *)
    split_and!; [|done|].
    + apply setRunning_settled; [apply readyTasks_pending|done|congruence].
    + unfold inflightOf; simpl. rewrite fst_awaitStart.
      intros (t0 & Ht0 & Hp)%readyTasks_pending. congruence.
  - apply not_elem_of_nil.
  - unfold inflightOf; simpl. erewrite inflight_insert_fst by done.
    by rewrite <- (inflightOf_control cfg l).
  - (* executed *)
    rewrite (inflightOf_control cfg l) in Hnin by done.
    assert (j ≠ i) by (intros ->; apply Hnin, elem_of_inflight; eauto).
    split_and!; [by rewrite list_lookup_alter_ne|done|].
    unfold inflightOf; simpl. by erewrite inflight_insert_fst.
  - (* caught *)
    rewrite (inflightOf_control cfg l) in Hnin by done.
    assert (j ≠ i) by (intros ->; apply Hnin, elem_of_inflight; eauto).
    split_and!; [by rewrite list_lookup_alter_ne|done|].
    unfold inflightOf; simpl. by erewrite inflight_insert_fst.
  - (* completed *)
    rewrite (inflightOf_control cfg l) in Hnin, Hnd by done.
    unfold inflightOf; simpl. intros Hin.
    eapply inflight_delete_fst in Hin as [Hin _]; done.
  - (* propagated *)
    rewrite (inflightOf_control cfg l) in Hnin, Hnd by done.
    destruct (markDependentTasksAsFailed_spec (id t) (tasks cfg)) as (Hm & _ & _).
    split_and!; [|done|].
    + eapply marksFrom_settled; [done..|congruence].
    + unfold inflightOf; simpl. intros Hin.
      eapply inflight_delete_fst in Hin as [Hin _]; done.
  - apply not_elem_of_nil.
Qed.

Lemma existsb_false_lookup (f : TaskStep → bool) (σ : list TaskStep) i t :
  existsb f σ = false → σ !! i = Some t → f t = false.
Proof.
  intros H Hi. destruct (f t) eqn:E; [|done].
  assert (existsb f σ = true) as Ht; [|congruence].
  apply existsb_exists. exists t. split; [|done].
  by apply list_elem_of_In, (list_elem_of_lookup_2 _ i).
Qed.

Lemma idle_exit tm (σ : list TaskStep) :
  existsb active σ = false →
  readyTasks tm σ = [] ∧ existsb isRunning σ = false.
Proof.
  intros H. split.
  - destruct (readyTasks tm σ) as [|r rs] eqn:E; [done|].
    assert (r ∈ readyTasks tm σ) as Hr by (rewrite E; by left).
    apply readyTasks_pending in Hr as (t & Ht & Hp).
    pose proof (existsb_false_lookup active σ r t H Ht) as Ha.
    unfold active in Ha. apply isPending_true in Hp. by rewrite Hp in Ha.
  - destruct (existsb isRunning σ) eqn:E; [|done].
    apply existsb_isRunning_true in E as (i & t & Hi & Hr).
    pose proof (existsb_false_lookup active σ i t H Hi) as Ha.
    unfold active in Ha. apply isRunning_true in Hr. rewrite Hr in Ha.
    by rewrite orb_true_r in Ha.
Qed.

Lemma Discipline_step this tm calm cfg cfg' :
  Flight cfg → Discipline tm cfg → Step this tm calm cfg cfg' →
  Discipline tm cfg'.
Proof.
  intros F D HS.
  pose proof (flight_nodup _ F) as Hnd.
  assert (∀ d, settled tm cfg d → settled tm cfg' d) as Hset.
  { intros d. by eapply Step_settled. }
  assert (∀ d, closedUnder (tasks cfg) d → closedUnder (tasks cfg') d) as Hclo.
  { intros d. by eapply Step_closedUnder. }
  split.
  - (* disc_deps *)
    intros i t' Hi' Hs' d Hd. apply Hset. revert d Hd.
    destruct HS; simpl in *; try (by eapply (disc_deps _ _ D)).
    + (* dispatch *)
      rewrite setRunning_lookup in Hi'.
      destruct (decide (i ∈ readyTasks tm (tasks cfg))) as [Hin|];
        [|by eapply (disc_deps _ _ D)].
      apply elem_of_readyTasks in Hin as (t & Ht & Hp & Hdeps).
      rewrite Ht in Hi'. inversion Hi'; subst t'. simpl.
      intros d Hd. destruct (Hdeps d Hd) as (j & dt & ? & ? & ?).
      exists j, dt. split_and!; [done..|].
      rewrite inflightOf_idle; [apply not_elem_of_nil|]. other_control.
    + (* executed *)
      destruct (decide (i = i0)) as [->|Hne].
      * destruct (flight_phase _ F l k i0 _ H H0) as (t0 & Ht0 & Hs0).
        rewrite list_lookup_alter_eq, Ht0 in Hi'. inversion Hi'; subst t'.
        simpl. eapply (disc_deps _ _ D); [done|]. by left.
      * rewrite list_lookup_alter_ne in Hi' by done.
        by eapply (disc_deps _ _ D).
    + (* caught *)
      destruct (decide (i = i0)) as [->|Hne].
      * destruct (flight_phase _ F l k i0 _ H H0) as (t0 & Ht0 & Hs0).
        rewrite list_lookup_alter_eq, Ht0 in Hi'. inversion Hi'; subst t'.
        simpl in Hs'. by destruct Hs'.
      * rewrite list_lookup_alter_ne in Hi' by done.
        by eapply (disc_deps _ _ D).
    + (* propagated *)
      destruct (markDependentTasksAsFailed_spec (id t) (tasks cfg)) as (Hm & _ & _).
      assert (tasks cfg !! i = Some t') as Hi0.
      { assert (is_Some (tasks cfg !! i)) as [t0 Ht0].
        { apply lookup_lt_is_Some. rewrite <- (proj1 Hm). by eapply lookup_lt_Some. }
        destruct (proj2 Hm i t0 Ht0) as [E|(_ & d & _ & E & _)]; [congruence|].
        rewrite E in Hi'. inversion Hi'; subst t'. simpl in Hs'. by destruct Hs'. }
      by eapply (disc_deps _ _ D).
  - (* disc_exec *)
    intros i deps t' Hev Hi' d Hd. apply Hset.
    destruct (Step_TaskMove_inv _ _ _ _ _ i t' F HS Hi') as (t & Ht & Hmv).
    apply TaskMove_static in Hmv as (_ & _ & _ & _ & Hdeps). rewrite Hdeps in Hd.
    assert (Execute i deps ∈ trace cfg ∨ status t = running) as [Hold|Hrun].
    { destruct HS; simpl in *; try (by left);
        apply elem_of_app in Hev as [?|Hev]; try (by left).
      - by apply elem_of_notifyTaskStart in Hev as [? ?].
      - apply list_elem_of_singleton in Hev. inversion Hev; subst.
        destruct (flight_phase _ F l k _ _ H H0) as (t1 & Ht1 & Hs1).
        simpl in Hs1. right. congruence.
      - apply elem_of_cons in Hev as [?|Hev]; [done|].
        by apply elem_of_notifyTaskComplete in Hev.
      - by apply elem_of_notifyTaskFailed in Hev. }
    + by eapply (disc_exec _ _ D).
    + eapply (disc_deps _ _ D); [done| |done]. by left.
  - (* disc_closed *)
    intros Hna i t' Hi' Hs' Hnin.
    destruct HS; simpl in *.
    + apply (disc_closed _ _ D) with (i := i); try done.
      * other_control.
      * rewrite inflightOf_idle; [apply not_elem_of_nil|]. other_control.
    + apply (disc_closed _ _ D) with (i := i); try done.
      * other_control.
      * rewrite inflightOf_idle; [apply not_elem_of_nil|]. other_control.
    + by apply (disc_closed _ _ D) with (i := i).
    + (* dispatch *)
      rewrite setRunning_lookup in Hi'.
      destruct (decide (i ∈ readyTasks tm (tasks cfg))) as [Hin|].
      * destruct (tasks cfg !! i); [|done]. inversion Hi'; subst t'. done.
      * apply Hclo. apply (disc_closed _ _ D) with (i := i); try done.
        -- other_control.
        -- rewrite inflightOf_idle; [apply not_elem_of_nil|]. other_control.
    + (* barrier *)
      apply (disc_closed _ _ D) with (i := i); try done.
      * other_control.
      * rewrite (inflightOf_control cfg []) by done. apply not_elem_of_nil.
    + (* started *)
      apply (disc_closed _ _ D) with (i := i); try done.
      * other_control.
      * rewrite (inflightOf_control cfg l) by done.
        unfold inflightOf in Hnin; simpl in Hnin.
        by erewrite inflight_insert_fst in Hnin.
    + (* executed *)
      unfold inflightOf in Hnin; simpl in Hnin.
      erewrite inflight_insert_fst in Hnin by done.
      assert (i ≠ i0) by (intros ->; apply Hnin, elem_of_inflight; eauto).
      rewrite list_lookup_alter_ne in Hi' by done.
      apply Hclo. apply (disc_closed _ _ D) with (i := i); try done.
      * other_control.
      * by rewrite (inflightOf_control cfg l).
    + (* caught *)
      unfold inflightOf in Hnin; simpl in Hnin.
      erewrite inflight_insert_fst in Hnin by done.
      assert (i ≠ i0) by (intros ->; apply Hnin, elem_of_inflight; eauto).
      rewrite list_lookup_alter_ne in Hi' by done.
      apply Hclo. apply (disc_closed _ _ D) with (i := i); try done.
      * other_control.
      * by rewrite (inflightOf_control cfg l).
    + (* completed *)
      rewrite (inflightOf_control cfg l) in Hnd by done.
      unfold inflightOf in Hnin; simpl in Hnin.
      apply (disc_closed _ _ D) with (i := i); try done.
      * other_control.
      * rewrite (inflightOf_control cfg l) by done. intros Hin. apply Hnin.
        eapply inflight_delete_fst; [done..|]. split; [done|]. intros ->.
        destruct (flight_phase _ F l k i0 _ H H0) as (t0 & Ht0 & Hs0).
        rewrite Ht0 in Hi'. inversion Hi'; subst. simpl in Hs0. congruence.
    + (* propagated *)
      rewrite (inflightOf_control cfg l) in Hnd by done.
      unfold inflightOf in Hnin; simpl in Hnin.
      destruct (markDependentTasksAsFailed_spec (id t) (tasks cfg))
        as (Hm & Hcl & Hcc).
      destruct (flight_phase _ F l k i0 _ H H0) as (t0 & Ht0 & Hs0).
      rewrite H1 in Ht0. inversion Ht0; subst t0. simpl in Hs0.
      destruct (decide (i = i0)) as [->|Hne].
      * erewrite marksFrom_settled in Hi'; [|done..|congruence].
        inversion Hi'; subst t'. done.
      * assert (i ∉ l.*1) as Hnl.
        { intros Hin. apply Hnin. eapply inflight_delete_fst; done. }
        assert (is_Some (tasks cfg !! i)) as [u Hu].
        { apply lookup_lt_is_Some. rewrite <- (proj1 Hm). by eapply lookup_lt_Some. }
        destruct (proj2 Hm i u Hu) as [E|(Hcu & d & _ & E & _)].
        -- rewrite E in Hi'. inversion Hi'; subst t'.
           apply Hclo. apply (disc_closed _ _ D) with (i := i); try done.
           ++ other_control.
           ++ by rewrite (inflightOf_control cfg l).
        -- rewrite E in Hi'. inversion Hi'; subst t'. simpl.
           eapply Hcc; [exact Hu|]. rewrite E. intros E'. inversion E' as [E''].
           apply propagated_ne in E''; [done|]. by eapply collapses_pending.
    + (* aborted *)
      by exfalso; eapply Hna.
  - (* disc_exit *)
    intros Hc. destruct HS; simpl in *; try congruence.
    + by apply idle_exit.
    + done.
Qed.

Lemma Discipline_initial tm ts : allFresh ts = true → Discipline tm (initial ts).
Proof.
  intros H. split; simpl.
  - intros i t Hi Hs. destruct (allFresh_lookup ts i t H Hi) as (Hp & _).
    destruct Hs; congruence.
  - intros i deps t Hin. by apply elem_of_nil in Hin.
  - intros _ i t Hi Hs. destruct (allFresh_lookup ts i t H Hi) as (Hp & _).
    congruence.
  - done.
Qed.

Lemma reaches_Discipline this tm allowed ts cfg :
  allFresh ts = true →
  reaches this tm allowed (initial ts) cfg → Discipline tm cfg.
Proof.
  intros H0. apply (reaches_invariant this tm false allowed ts (Discipline tm)).
  - by apply allFresh_noneRunning.
  - done.
  - by apply Discipline_initial.
  - intros c c' F IH HS. by eapply Discipline_step.
Qed.

(** ** [taskMap] *)

Lemma taskMapFrom_lookup n ts m d j :
  taskMapFrom n ts m !! d = Some j →
  (∃ k t, ts !! k = Some t ∧ id t = d ∧ j = n + k) ∨
  (m !! d = Some j ∧ d ∉ id <$> ts).
Proof.
  revert n m. induction ts as [|t ts IH]; intros n m H; simpl in H.
  - right. split; [done|]. apply not_elem_of_nil.
  - apply IH in H as [(k & t' & Hk & Hid & ->)|[H Hnin]].
    + left. exists (S k), t'. split_and!; [done..|lia].
    + destruct (decide (id t = d)) as [<-|Hne].
      * rewrite lookup_insert_eq in H. inversion H; subst j.
        left. exists 0, t. split_and!; [done..|lia].
      * rewrite lookup_insert_ne in H by done. right. split; [done|].
        rewrite fmap_cons. intros [E|Hin]%elem_of_cons; [by apply Hne|done].
Qed.

Lemma taskMapFrom_is_Some n ts m d :
  d ∈ id <$> ts ∨ is_Some (m !! d) → is_Some (taskMapFrom n ts m !! d).
Proof.
  revert n m. induction ts as [|t ts IH]; intros n m H; simpl.
  - destruct H as [H|H]; [by apply elem_of_nil in H|done].
  - apply IH. rewrite fmap_cons in H.
    destruct (decide (id t = d)) as [<-|Hne].
    + right. rewrite lookup_insert_eq. by eexists.
    + destruct H as [[E|H]%elem_of_cons|H]; [by destruct Hne|by left|].
      right. by rewrite lookup_insert_ne.
Qed.

Lemma mkTaskMap_lookup ts d j :
  mkTaskMap ts !! d = Some j → ∃ t, ts !! j = Some t ∧ id t = d.
Proof.
  intros [(k & t & Hk & Hid & ->)|[H _]]%taskMapFrom_lookup.
  - by exists t.
  - by rewrite lookup_empty in H.
Qed.

Lemma mkTaskMap_is_Some ts d : d ∈ id <$> ts → is_Some (mkTaskMap ts !! d).
Proof. intros H. apply taskMapFrom_is_Some. by left. Qed.

Lemma mkTaskMap_unique ts i t :
  NoDup (id <$> ts) → ts !! i = Some t → mkTaskMap ts !! id t = Some i.
Proof.
  intros Hnd Hi.
  destruct (mkTaskMap_is_Some ts (id t)) as [j Hj].
  { apply list_elem_of_fmap. exists t. split; [done|].
    by eapply list_elem_of_lookup_2. }
  destruct (mkTaskMap_lookup ts (id t) j Hj) as (u & Hu & Hid).
  rewrite Hj. f_equal. symmetry in Hid.
  exact (NoDup_ids_lookup ts j i u t Hnd Hu Hi (eq_sym Hid)).
Qed.

(** ** From [run] to [reaches] *)

Lemma run_reaches_allowed this tm (allowed : Config → Choice → Prop)
      env fuel start cfg cfg' :
  (∀ c, allowed c (env c)) →
  reaches this tm allowed start cfg →
  run this tm env fuel cfg = Some cfg' →
  reaches this tm allowed start cfg' ∧ final cfg' = true.
Proof.
  intros Hok. revert cfg. induction fuel as [|n IH]; intros cfg Hr H; simpl in H.
  - destruct (final cfg) eqn:Hf; [|done]. inversion H; subst. done.
  - destruct (final cfg) eqn:Hf.
    + inversion H; subst. done.
    + eapply IH; [|exact H]. by apply reaches_step.
Qed.

Lemma executeTaskDAG_reaches this (allowed : Config → Choice → Prop)
      env fuel ts cfg :
  (∀ c, allowed c (env c)) →
  executeTaskDAG this env fuel ts = Some cfg →
  reaches this (mkTaskMap ts) allowed (initial ts) cfg ∧ final cfg = true.
Proof.
  intros Hok H. eapply run_reaches_allowed; [done| |exact H]. constructor.
Qed.

Lemma run_more_fuel this tm env n m cfg cfg' :
  run this tm env n cfg = Some cfg' → n ≤ m →
  run this tm env m cfg = Some cfg'.
Proof.
  revert m cfg. induction n as [|n IH]; intros m cfg H Hle; simpl in H.
  - destruct (final cfg) eqn:Hf; [|done]. inversion H; subst.
    by apply run_final.
  - destruct (final cfg) eqn:Hf.
    + inversion H; subst. by apply run_final.
    + destruct m as [|m]; [lia|]. rewrite run_step by done.
      apply IH; [done|lia].
Qed.


(** ** Failure reaches every dependent *)

Lemma dependsVia_failed tm (cfg : Config) a b ta tb :
  Flight cfg → Discipline tm cfg → control cfg = Returned →
  (∀ i t, tasks cfg !! i = Some t → tm !! id t = Some i) →
  tasks cfg !! a = Some ta → status ta = failed →
  tasks cfg !! b = Some tb → id ta ∈ dependencies tb →
  status tb = failed ∧ ∀ deps, Execute b deps ∉ trace cfg.
Proof.
  intros F D Hc Htm Ha Hfa Hb Hdep.
  assert (∀ l, control cfg ≠ AwaitAll l) as Hnl by (other_control).
  assert (∀ m, control cfg ≠ Aborted m) as Hna by (other_control).
  assert (¬ settled tm cfg (id ta)) as Hns.
  { intros (j & dt & Hj & Hdt & Hcomp & _).
    rewrite (Htm a ta Ha) in Hj. inversion Hj; subst j. congruence. }
  split.
  - destruct (status tb) eqn:Hs; try done.
    + exfalso. eapply (disc_closed _ _ D Hna a ta); try done.
      rewrite inflightOf_idle by done. apply not_elem_of_nil.
    + exfalso. by eapply (Flight_idle cfg b tb).
    + exfalso. apply Hns. eapply (disc_deps _ _ D); [done| |done]. by right.
  - intros deps Hin. apply Hns. by eapply (disc_exec _ _ D).
Qed.

(** C4, as amended.  In every run from tasks that all start fresh (pending,
    no result, no error) and have unique ids, if [executeTaskDAG] returns
    and task [a] has ended failed, then every task [b] that depends on
    [a], directly or through a chain, has ended failed as well, and the
    agent of [b] was never invoked. *)
Theorem failure_reaches_all_dependents this env fuel ts cfg a b ta tb :
  allFresh ts = true → uniqueIds ts = true →
  executeTaskDAG this env fuel ts = Some cfg →
  control cfg = Returned →
  tasks cfg !! a = Some ta → status ta = failed →
  dependsVia (tasks cfg) b a →
  tasks cfg !! b = Some tb →
  status tb = failed ∧ ∀ deps, Execute b deps ∉ trace cfg.
Proof.
  intros Hfresh Hu Hrun Hc Ha Hfa Hdep Hb.
  pose proof (allFresh_noneRunning ts Hfresh) as Hnr.
  destruct (executeTaskDAG_reaches this anyChoice env fuel ts cfg) as [Hr _];
    [done..|].
  pose proof (reaches_Flight _ _ _ _ _ Hnr Hr) as F.
  pose proof (reaches_Discipline _ _ _ _ _ Hfresh Hr) as D.
  pose proof (reaches_staticView _ _ _ _ _ Hnr Hr) as Hst.
  assert (∀ i t, tasks cfg !! i = Some t → mkTaskMap ts !! id t = Some i) as Htm.
  { intros i t Hi. apply staticView_ids in Hst.
    assert (id <$> ts !! i = Some (id t)) as Hi0.
    { by rewrite <- list_lookup_fmap, <- Hst, list_lookup_fmap, Hi. }
    destruct (ts !! i) as [t0|] eqn:Ht0; [|done]. simpl in Hi0.
    assert (id t = id t0) as -> by congruence. apply mkTaskMap_unique; [|done].
    by apply bool_decide_eq_true in Hu. }
  revert tb Hb. induction Hdep as [a b ta' tb' Ha' Hb' Hd|a c b tc tb' Hca IH Hc' Hb' Hd];
    intros tb Hb; rewrite Hb in Hb'; inversion Hb'; subst tb'.
  - rewrite Ha in Ha'. inversion Ha'; subst ta'.
    by eapply (dependsVia_failed (mkTaskMap ts) cfg a b ta tb).
  - destruct (IH Ha tc Hc') as [Hfc _].
    by eapply (dependsVia_failed (mkTaskMap ts) cfg c b tc tb).
Qed.

(** ** The returned mapping *)


(** ** Terminal statuses *)



(** ** Notifier failures *)

(** C1, as amended.  A notification can only be rejected when a Lark
    client and a chat id are configured.  A rejected task-started or
    task-completed notification is handled as a failure of the task: the
    status becomes [failed], the error the message of the rejection, the
    result stays as it is, the task-failed notification is sent and the
    closure goes on to wait for it (after which the dependents are
    failed); no agent is invoked by that step.  A rejected task-failed
    notification leaves every task as it is and rejects [executeTaskDAG]
    with that error: the run ends there. *)
Theorem notifier_failure_fails_task_or_run this tm c cfg l i ph t msg :
  control cfg = AwaitAll l →
  l !! (resume c mod length l) = Some (i, ph) →
  tasks cfg !! i = Some t →
  ph ≠ AwaitExecuteTask →
  notifierSettled this (settle c) = Rejected msg →
  notifierActive this = true ∧
  failedWith msg t =
    mkTaskStep (id t) (name t) (description t) (agentType t) (dependencies t)
               failed (result t) (Some msg) ∧
  match ph with
  | AwaitNotifyFailed => step this tm c cfg = withControl (Aborted msg) cfg
  | _ =>
      step this tm c cfg =
      mkConfig (<[i := failedWith msg t]> (tasks cfg))
               (results cfg)
               (AwaitAll (<[resume c mod length l := (i, AwaitNotifyFailed)]> l))
               (trace cfg ++ [SendFailed i msg])
  end.
Proof.
  intros Hc Hk Hi Hph Hs.
  assert (notifierActive this = true) as Ha.
  { unfold notifierSettled in Hs. by destruct (notifierActive this). }
  split_and!; [done..|].
  unfold step. rewrite Hc. destruct l as [|e l']; [done|].
  rewrite Hk. unfold resumeClosure, catchBlock, notifyTaskFailed.
  rewrite Hs, Ha. rewrite (alter_as_insert _ _ i t Hi).
  by destruct ph.
Qed.

(** ** Termination *)


Lemma forallb_false_exists {A} (f : A → bool) (l : list A) :
  forallb f l = false → ∃ x, x ∈ l ∧ f x = false.
Proof.
  induction l as [|a l IH]; simpl; [done|].
  destruct (f a) eqn:E; simpl.
  - intros (x & Hin & Hx)%IH. exists x. split; [by right|done].
  - intros _. exists a. split; [by left|done].
Qed.

Lemma staticView_lookup (σ σ' : list TaskStep) i t :
  staticView σ' = staticView σ → σ' !! i = Some t →
  ∃ t0, σ !! i = Some t0 ∧ id t0 = id t ∧ dependencies t0 = dependencies t.
Proof.
  intros H Hi. apply (f_equal (λ l, l !! i)) in H. unfold staticView in H.
  rewrite !list_lookup_fmap, Hi in H. destruct (σ !! i) as [t0|]; [|done].
  simpl in H. inversion H. by exists t0.
Qed.

Lemma closedDeps_lookup ts i t d :
  closedDeps ts = true → ts !! i = Some t → d ∈ dependencies t → d ∈ id <$> ts.
Proof.
  unfold closedDeps. rewrite forallb_forall. intros H Hi Hd.
  specialize (H t). rewrite forallb_forall in H.
  eapply bool_decide_eq_true, H; apply list_elem_of_In; [|done].
  by eapply list_elem_of_lookup_2.
Qed.

Lemma ranked_lookup rank ts i t d :
  ranked rank ts = true → ts !! i = Some t → d ∈ dependencies t →
  rank d < rank (id t).
Proof.
  unfold ranked. rewrite forallb_forall. intros H Hi Hd.
  specialize (H t). rewrite forallb_forall in H.
  eapply Nat.ltb_lt, H; apply list_elem_of_In; [|done].
  by eapply list_elem_of_lookup_2.
Qed.

(** [x] depends on [h] and [h] on [j]: [x] depends on [j]. *)
Lemma dependsVia_extend (σ : list TaskStep) x h j t u :
  dependsVia σ x h → σ !! h = Some t → σ !! j = Some u →
  id u ∈ dependencies t → dependsVia σ x j.
Proof.
  intros H Hh Hj Hd.
  induction H as [a b ta tb Ha Hb Hdab|a c b tc tb Hca IH Hc Hb Hdcb].
  - eapply dependsVia_chain; [|exact Ha|exact Hb|exact Hdab].
    by eapply dependsVia_direct.
  - eapply dependsVia_chain; [|exact Hc|exact Hb|exact Hdcb]. by apply IH.
Qed.

Lemma dependsVia_static (σ σ' : list TaskStep) b a :
  staticView σ' = staticView σ → dependsVia σ' b a → dependsVia σ b a.
Proof.
  intros Hst H.
  induction H as [a b ta tb Ha Hb Hd|a c b tc tb Hca IH Hc Hb Hd].
  - destruct (staticView_lookup _ _ a ta Hst Ha) as (ta0 & Ha0 & Hida & _).
    destruct (staticView_lookup _ _ b tb Hst Hb) as (tb0 & Hb0 & _ & Hdb).
    eapply dependsVia_direct; [exact Ha0|exact Hb0|]. by rewrite Hida, Hdb.
  - destruct (staticView_lookup _ _ c tc Hst Hc) as (tc0 & Hc0 & Hidc & _).
    destruct (staticView_lookup _ _ b tb Hst Hb) as (tb0 & Hb0 & _ & Hdb).
    eapply dependsVia_chain; [exact IH|exact Hc0|exact Hb0|].
    by rewrite Hidc, Hdb.
Qed.

(** In an acyclic collection no set of tasks has, for each of its members,
    a dependency inside the set: following the dependencies from one
    member would visit more tasks than there are. *)
Lemma no_endless_descent (σ : list TaskStep) (P : nat → Prop) :
  acyclic σ →
  (∀ i, P i → ∃ t j u, σ !! i = Some t ∧ P j ∧ σ !! j = Some u ∧
                       id u ∈ dependencies t) →
  ∀ i, ¬ P i.
Proof.
  intros Hacyc Hsucc i Hi.
  assert (∀ k, ∃ path h,
             length path = S k ∧ NoDup path ∧ P h ∧
             ∀ x, x ∈ path → x < length σ ∧ (x = h ∨ dependsVia σ x h))
    as Hpath.
  { induction k as [|k (path & h & Hlen & Hnd & Hh & Hall)].
    - exists [i], i. split_and!; [done|apply NoDup_singleton|done|].
      intros x ->%list_elem_of_singleton. split; [|by left].
      destruct (Hsucc i Hi) as (t & _ & _ & Ht & _). by eapply lookup_lt_Some.
    - destruct (Hsucc h Hh) as (t & j & u & Ht & Hj & Hu & Hd).
      assert (dependsVia σ h j) as Hhj by (by eapply dependsVia_direct).
      exists (j :: path), j. split_and!; [simpl; lia| |done|].
      + apply NoDup_cons. split; [|done]. intros Hin.
        destruct (Hall j Hin) as [_ [->|Hjh]].
        * by eapply Hacyc.
        * eapply Hacyc. by eapply dependsVia_extend.
      + intros x [->|Hin]%elem_of_cons.
        * split; [by eapply lookup_lt_Some|by left].
        * destruct (Hall x Hin) as [Hlt [->|Hxh]]; (split; [done|right]);
            [done|by eapply dependsVia_extend]. }
  destruct (Hpath (length σ)) as (path & h & Hlen & Hnd & _ & Hall).
  assert (path ⊆+ seq 0 (length σ)) as Hsub.
  { apply NoDup_submseteq; [done|]. intros x Hx. apply elem_of_seq.
    destruct (Hall x Hx). lia. }
  apply submseteq_length in Hsub. rewrite length_seq in Hsub. lia.
Qed.

(** With closed and acyclic dependencies, a pending task at the head of
    the loop means that some task is ready. *)
Lemma no_stall this allowed ts cfg :
  allFresh ts = true → closedDeps ts = true → acyclic ts →
  reaches this (mkTaskMap ts) allowed (initial ts) cfg →
  (∀ l, control cfg ≠ AwaitAll l) → (∀ m, control cfg ≠ Aborted m) →
  readyTasks (mkTaskMap ts) (tasks cfg) = [] →
  ∀ i t, tasks cfg !! i = Some t → status t ≠ pending.
Proof.
  intros Hfresh Hcl Hacyc Hr Hnl Hna Hready.
  pose proof (allFresh_noneRunning ts Hfresh) as Hnr.
  pose proof (reaches_Flight _ _ _ _ _ Hnr Hr) as F.
  pose proof (reaches_Discipline _ _ _ _ _ Hfresh Hr) as D.
  pose proof (reaches_staticView _ _ _ _ _ Hnr Hr) as Hst.
  assert (∀ i, ¬ (∃ t, tasks cfg !! i = Some t ∧ status t = pending)) as Hnone;
    [|by intros i t Hi Hp; eapply Hnone; eauto].
  apply (no_endless_descent (tasks cfg)).
  { intros a Ha. eapply Hacyc, dependsVia_static; [|exact Ha]. done. }
  intros i (t & Hi & Hp).
  assert (readyAt (mkTaskMap ts) (tasks cfg) i = false) as Hnot.
  { destruct (readyAt (mkTaskMap ts) (tasks cfg) i) eqn:E; [|done].
    assert (i ∈ readyTasks (mkTaskMap ts) (tasks cfg)) as Hin.
    { apply elem_of_seq_filter. split; [by eapply lookup_lt_Some|done]. }
    rewrite Hready in Hin. by apply elem_of_nil in Hin. }
  unfold readyAt, isReady in Hnot. rewrite Hi in Hnot.
  pose proof Hp as Hp'. apply isPending_true in Hp'. rewrite Hp' in Hnot.
  simpl in Hnot.
  apply forallb_false_exists in Hnot as (d & Hd & Hnc).
  destruct (staticView_lookup _ _ i t Hst Hi) as (t0 & Ht0 & Hid0 & Hdeps0).
  destruct (mkTaskMap_is_Some ts d) as [j Hj].
  { eapply closedDeps_lookup; [done..|]. by rewrite Hdeps0. }
  destruct (mkTaskMap_lookup ts d j Hj) as (u0 & Hu0 & Hidu).
  assert (is_Some (tasks cfg !! j)) as [u Hu].
  { apply lookup_lt_is_Some. apply (f_equal length) in Hst.
    unfold staticView in Hst. rewrite !length_fmap in Hst. rewrite Hst.
    by eapply lookup_lt_Some. }
  destruct (staticView_lookup _ _ j u Hst Hu) as (u0' & Hu0' & Hidu' & _).
  rewrite Hu0 in Hu0'. inversion Hu0'; subst u0'.
  assert (id u = d) as Hud by congruence.
  unfold depCompleted in Hnc. rewrite Hj, Hu in Hnc.
  exists t, j, u. split_and!; [done| |done|by rewrite Hud].
  exists u. split; [done|].
  destruct (status u) eqn:Hsu; [done| | |].
  - exfalso. by eapply (Flight_idle cfg j u).
  - unfold isCompleted in Hnc. rewrite Hsu in Hnc. done.
  - exfalso. assert (closedUnder (tasks cfg) (id u)) as Hclosed.
    { eapply (disc_closed _ _ D Hna j u); [done..|].
      rewrite inflightOf_idle by done. apply not_elem_of_nil. }
    apply (Hclosed i t Hi Hp). by rewrite Hud.
Qed.

Lemma reaches_Aborted this tm allowed ts cfg msg :
  noneRunning ts →
  reaches this tm allowed (initial ts) cfg →
  control cfg = Aborted msg → notifierActive this = true.
Proof.
  intros Hnr Hr. revert msg.
  apply (reaches_invariant this tm false allowed ts
           (λ cfg, ∀ msg, control cfg = Aborted msg → notifierActive this = true));
    try done.
  intros c c' F IH HS msg Hc. destruct HS; simpl in *; try congruence.
Qed.


(** The loop waits for a task that is handed over as running forever. *)
Lemma running_at_start_never_returns this tm env fuel cfg :
  control cfg = LoopHead →
  readyTasks tm (tasks cfg) = [] →
  existsb isRunning (tasks cfg) = true →
  run this tm env fuel cfg = None.
Proof.
  intros Hc Hr Hrun.
  assert (existsb active (tasks cfg) = true) as Ha.
  { apply existsb_exists. apply existsb_exists in Hrun as (t & Hin & Ht).
    exists t. split; [done|]. unfold active. by rewrite Ht, orb_true_r. }
  assert (step this tm (env cfg) cfg = cfg) as Hs.
  { unfold step, loopHead. by rewrite Hc, Ha, Hr, Hrun. }
  induction fuel as [|n IH]; simpl; unfold final; rewrite Hc; [done|].
  by rewrite Hs.
Qed.

(** A topological ranking shows that there is no dependency cycle. *)
Lemma ranked_dependsVia rank ts a b ta tb :
  ranked rank ts = true → dependsVia ts b a →
  ts !! a = Some ta → ts !! b = Some tb → rank (id ta) < rank (id tb).
Proof.
  intros Hrk H. revert ta tb.
  induction H as [a b ta' tb' Ha' Hb' Hd|a c b tc tb' Hca IH Hc Hb' Hd];
    intros ta tb Ha Hb.
  - rewrite Ha in Ha'. rewrite Hb in Hb'. inversion Ha'; inversion Hb'; subst.
    by eapply ranked_lookup.
  - rewrite Hb in Hb'. inversion Hb'; subst tb'.
    pose proof (IH ta tc Ha Hc).
    pose proof (ranked_lookup rank ts b tb (id tc) Hrk Hb Hd). lia.
Qed.

Lemma ranked_acyclic rank ts :
  ranked rank ts = true → acyclic ts.
Proof.
  intros Hrk a H.
  assert (∀ x y, dependsVia ts x y → is_Some (ts !! x)) as Hx.
  { intros x y Hxy. destruct Hxy; by eexists. }
  destruct (Hx a a H) as [t Ht].
  pose proof (ranked_dependsVia rank ts a a t t Hrk H Ht Ht). lia.
Qed.

(** ** The theorems at concrete runs *)

Lemma advance_reaches this tm env n start cfg :
  reaches this tm anyChoice start cfg →
  reaches this tm anyChoice start (advance this tm env n cfg).
Proof.
  revert cfg. induction n as [|n IH]; intros cfg H; simpl; [done|].
  apply IH. by apply reaches_step.
Qed.

(** C8 on the cycle [x -> y -> x]: the first ready set is empty, the call
    returns and both tasks are still pending. *)
Lemma stall_ends_run_leaving_pending_witness :
  ∃ cfg', run silent (mkTaskMap cycle) (envOf larkUp) 1 (initial cycle) = Some cfg' ∧
          control cfg' = Returned ∧
          tasks cfg' = tasks (initial cycle) ∧
          results cfg' = results (initial cycle) ∧
          trace cfg' = trace (initial cycle) ∧
          ∀ i t, tasks (initial cycle) !! i = Some t → status t = pending →
                 ∃ t', tasks cfg' !! i = Some t' ∧ status t' = pending.
Proof.
  apply (stall_ends_run_leaving_pending silent (mkTaskMap cycle) (envOf larkUp) 0
           (initial cycle)); vm_compute; reflexivity.
Defined.

(** C3 on the chain [a <- b], at the loop head after [a] completed: [b]
    becomes running, and [a] is completed all through the dispatch. *)
Lemma no_premature_dispatch_witness :
  let tm := mkTaskMap chain in
  let cfg := advance silent tm (envOf larkUp) 5 (initial chain) in
  control cfg = LoopHead ∧
  1 ∈ readyTasks tm (tasks cfg) ∧
  ∀ d, d ∈ dependencies (task "b" ["a"]) →
       ∃ j, tm !! d = Some j ∧
            ∀ n, ∃ depTask,
                setRunning (tasks cfg) (take n (readyTasks tm (tasks cfg))) !! j
                = Some depTask ∧
                status depTask = completed.
Proof.
  apply (no_premature_dispatch silent (mkTaskMap chain)
           (mkChoice 0 (Fulfilled AUndefined))
           (advance silent (mkTaskMap chain) (envOf larkUp) 5 (initial chain))
           1 (task "b" ["a"]) (setStatus running (task "b" ["a"])));
    vm_compute; (reflexivity || discriminate).
Defined.

(** C4 on the diamond, the agent of [b] failing: [d] depends on [b], ends
    failed, and its agent was never invoked. *)
Lemma failure_reaches_all_dependents_witness :
  let cfg := finalOf silent (envOf (failingAgent "b")) diamond in
  let tb := mkTaskStep "b" "b" "" "general-purpose" ["a"] failed None
                       (Some "agent failed") in
  let td := mkTaskStep "d" "d" "" "general-purpose" ["b"; "c"] failed None
                       (Some "Dependency b failed") in
  (control cfg = Returned ∧ tasks cfg !! 1 = Some tb ∧ tasks cfg !! 3 = Some td ∧
   dependsVia (tasks cfg) 3 1) ∧
  status td = failed ∧ ∀ deps, Execute 3 deps ∉ trace cfg.
Proof.
  intros cfg tb td.
  assert (dependsVia (tasks cfg) 3 1) as Hdep.
  { apply (dependsVia_direct (tasks cfg) 1 3 tb td);
      [vm_compute; reflexivity..|]. by left. }
  split; [split_and!; [vm_compute; reflexivity..|exact Hdep]|].
  apply (failure_reaches_all_dependents silent (envOf (failingAgent "b"))
           (S (6 * length diamond)) diamond cfg 1 3 tb td);
    try (vm_compute; reflexivity).
  exact Hdep.
Defined.



(** C1: the Lark client rejects the task-started notification of [a]. *)
Lemma notifier_failure_fails_task_or_run_witness :
  let tm := mkTaskMap chain in
  let cfg := advance reporting tm (envOf larkStartDown) 1 (initial chain) in
  let c := mkChoice 0 (Rejected sendError) in
  let ta := setStatus running (task "a" []) in
  step reporting tm c cfg =
  mkConfig (<[0 := failedWith sendError ta]> (tasks cfg))
           (results cfg)
           (AwaitAll (<[resume c mod length [(0, AwaitNotifyStart)]
                        := (0, AwaitNotifyFailed)]>
                      [(0, AwaitNotifyStart)]))
           (trace cfg ++ [SendFailed 0 sendError]).
Proof.
  intros tm cfg c ta.
  apply (notifier_failure_fails_task_or_run reporting tm c cfg
           [(0, AwaitNotifyStart)] 0 AwaitNotifyStart ta sendError);
    (vm_compute; reflexivity) || discriminate.
Defined.


(** ** Runs in which the Lark client rejects *)

(** Against C1: with a client that rejects the task-started
    notification, [a] ends failed instead of completed (and [b] with it);
    with a client that rejects every notification, the call is rejected
    after the first task and [b] is never dispatched. *)
Lemma notifier_failure_changes_the_run :
  outcome <$> executeTaskDAG reporting (envOf larkUp) 13 chain
  = Some (Returned, [("a", completed); ("b", completed)]) ∧
  tasks <$> executeTaskDAG reporting (envOf larkStartDown) 13 chain
  = Some [mkTaskStep "a" "a" "" "general-purpose" [] failed None
                     (Some sendError);
          mkTaskStep "b" "b" "" "general-purpose" ["a"] failed None
                     (Some "Dependency a failed")] ∧
  outcome <$> executeTaskDAG reporting (envOf larkDown) 13 chain
  = Some (Aborted sendError, [("a", failed); ("b", pending)]).
Proof. split_and!; vm_compute; reflexivity. Qed.


(** Against C4: with a client that rejects every notification, [a] ends
    failed and [b], which depends on [a] and was pending all along, is
    still pending when the call is rejected. *)
Lemma rejected_failure_notification_skips_propagation :
  dependsVia chain 1 0 ∧
  (λ cfg, (control cfg, statuses cfg, trace cfg))
    <$> executeTaskDAG reporting (envOf larkDown) 13 chain
  = Some (Aborted sendError, [("a", failed); ("b", pending)],
          [SendStart 0; SendFailed 0 sendError]).
Proof.
  split; [|vm_compute; reflexivity].
  apply (dependsVia_direct chain 0 1 (task "a" []) (task "b" ["a"]));
    [reflexivity..|]. by left.
Qed.



(** A task handed over as running blocks the loop for good: no amount of
    fuel lets the call return. *)
Example running_task_blocks_loop fuel :
  executeTaskDAG silent (envOf larkUp) fuel [setStatus running (task "a" [])]
  = None.
Proof.
  unfold executeTaskDAG. apply running_at_start_never_returns; reflexivity.
Qed.

(** The four scenarios of the design notes. *)
Example scenario_all_succeed :
  (λ cfg, (outcome cfg, trace cfg))
    <$> executeTaskDAG silent (envOf larkUp) 25 diamond
  = Some ((Returned, [("a", completed); ("b", completed);
                      ("c", completed); ("d", completed)]),
          [Execute 0 []; AgentReturned 0 generalResult;
           Execute 1 [("a", Some generalResult)];
           AgentReturned 1 generalResult;
           Execute 2 [("a", Some generalResult)];
           AgentReturned 2 generalResult;
           Execute 3 [("b", Some generalResult);
                      ("c", Some generalResult)];
           AgentReturned 3 generalResult]).
Proof. vm_compute; reflexivity. Qed.

Example scenario_b_fails :
  tasks <$> executeTaskDAG silent (envOf (failingAgent "b")) 25 diamond
  = Some [mkTaskStep "a" "a" "" "general-purpose" [] completed
                     (Some generalResult) None;
          mkTaskStep "b" "b" "" "general-purpose" ["a"] failed None
                     (Some "agent failed");
          mkTaskStep "c" "c" "" "general-purpose" ["a"] completed
                     (Some generalResult) None;
          mkTaskStep "d" "d" "" "general-purpose" ["b"; "c"] failed None
                     (Some "Dependency b failed")].
Proof. vm_compute; reflexivity. Qed.

Example scenario_cycle :
  outcome <$> executeTaskDAG silent (envOf larkUp) 13 cycle
  = Some (Returned, [("x", pending); ("y", pending)]).
Proof. vm_compute; reflexivity. Qed.

Example scenario_missing_dependency :
  outcome <$> executeTaskDAG silent (envOf larkUp) 7 [task "z" ["missing"]]
  = Some (Returned, [("z", pending)]).
Proof. vm_compute; reflexivity. Qed.

(** One invocation of the propagator on a three-level chain. *)
Example propagation_collapses_chain :
  (λ t, (id t, status t, error t))
    <$> markDependentTasksAsFailed "a"
          [setStatus failed (task "a" []); task "b" ["a"]; task "c" ["b"];
           setStatus running (task "d" ["a"]); task "e" []]
  = [("a", failed, None);
     ("b", failed, Some "Dependency a failed");
     ("c", failed, Some "Dependency b failed");
     ("d", running, None);
     ("e", pending, None)].
Proof. vm_compute; reflexivity. Qed.

(** The agents of the source never fail: a task of the source fails only
    through a rejected notification. *)
Lemma executeTask_fulfilled t previousResults :
  ∃ v, executeTask t previousResults = Fulfilled v.
Proof. unfold executeTask, runAgent. by eexists. Qed.

(** * Further properties of the coordinator *)

(** ** Shared facts about whole runs *)

(** A run from fresh, closed, acyclic tasks settles within
    [6 * length ts + 1] steps: returned with every task terminal, or
    rejected (which takes a configured notifier). *)
Lemma run_settles this (allowed : Config → Choice → Prop) env ts :
  allFresh ts = true → closedDeps ts = true → acyclic ts →
  (∀ c, allowed c (env c)) →
  ∃ cfg, (∀ fuel, 6 * length ts < fuel →
                  executeTaskDAG this env fuel ts = Some cfg) ∧
         reaches this (mkTaskMap ts) allowed (initial ts) cfg ∧
         ((control cfg = Returned ∧
           ∀ i t, tasks cfg !! i = Some t →
                  status t = completed ∨ status t = failed) ∨
          (notifierActive this = true ∧ ∃ msg, control cfg = Aborted msg)).
Proof.
  intros Hfresh Hcl Hacyc Hok.
  pose proof (allFresh_noneRunning ts Hfresh) as Hnr.
  destruct (run_terminates this (mkTaskMap ts) env (S (6 * length ts)) (initial ts))
    as (cfg & Hrun & Hfin).
  { by apply Flight_initial. }
  { unfold measure; simpl. pose proof (pendingCount_le_length ts). lia. }
  exists cfg.
  destruct (executeTaskDAG_reaches this allowed env (S (6 * length ts)) ts cfg)
    as [Hr _]; [done..|].
  split_and!; [|done|].
  { intros fuel Hfuel. eapply run_more_fuel; [exact Hrun|lia]. }
  pose proof (reaches_Flight _ _ _ _ _ Hnr Hr) as F.
  pose proof (reaches_Discipline _ _ _ _ _ Hfresh Hr) as D.
  unfold final in Hfin. destruct (control cfg) as [|l| |msg] eqn:Hc; try done.
  - left. split; [done|]. intros i t Hi.
    destruct (disc_exit _ _ D Hc) as [Hready _].
    assert (status t ≠ pending) as Hp.
    { eapply (no_stall this allowed ts cfg); try done; other_control. }
    assert (status t ≠ running) as Hrun'.
    { apply (Flight_idle cfg i t); try done; other_control. }
    destruct (status t); try done; eauto.
  - right. split; [|by eexists]. by eapply reaches_Aborted.
Qed.

(** ** When nothing is rejected *)

Lemma step_neverRejects this tm c cfg :
  Flight cfg → neverRejects this cfg c →
  (∀ i t, tasks cfg !! i = Some t → status t ≠ failed) →
  (∀ m, control cfg ≠ Aborted m) →
  (∀ i t, tasks (step this tm c cfg) !! i = Some t → status t ≠ failed) ∧
  (∀ m, control (step this tm c cfg) ≠ Aborted m).
Proof.
  intros F Hok Hnf Hna. unfold step.
  destruct (control cfg) as [|l| |] eqn:Hc; try (by split; [done|rewrite ?Hc]).
  - unfold loopHead. destruct (existsb active (tasks cfg)); [|by split].
    destruct (readyTasks tm (tasks cfg)) as [|r rs] eqn:Hr.
    + destruct (existsb isRunning (tasks cfg)); split; try done. by rewrite Hc.
    + split; [|done]. unfold dispatch. cbn [tasks]. intros i t Hi.
      rewrite setRunning_lookup in Hi. destruct (decide _).
      * destruct (tasks cfg !! i) as [t0|]; simpl in Hi; [|done].
        by inversion Hi; subst.
      * by eapply Hnf.
  - destruct l as [|e l']; [by split|].
    unfold neverRejects, resumed in Hok. rewrite Hc in Hok.
    destruct ((e :: l') !! (resume c mod length (e :: l'))) as [[i ph]|] eqn:Hk;
      [|by split; [done|rewrite Hc]].
    destruct (flight_phase _ F _ _ i ph Hc Hk) as (t & Ht & Hs).
    unfold resumeClosure. destruct ph; simpl in Hs.
    + destruct Hok as [v ->]. simpl. by split.
    + destruct Hok as [v ->]. simpl. split; [|done]. intros j u Hj.
      destruct (decide (i = j)) as [->|Hne].
      * rewrite list_lookup_alter_eq, Ht in Hj. by inversion Hj; subst.
      * rewrite list_lookup_alter_ne in Hj by done. by eapply Hnf.
    + destruct Hok as [v ->]. simpl. by split.
    + exfalso. by eapply Hnf.
Qed.

Lemma reaches_neverRejects this ts cfg :
  allFresh ts = true →
  reaches this (mkTaskMap ts) (neverRejects this) (initial ts) cfg →
  (∀ i t, tasks cfg !! i = Some t → status t ≠ failed) ∧
  (∀ m, control cfg ≠ Aborted m).
Proof.
  intros Hfresh Hr.
  pose proof (allFresh_noneRunning ts Hfresh) as Hnr.
  induction Hr as [|c cfg Hr IH Hok].
  - split; [|done]. intros i t Hi.
    destruct (allFresh_lookup ts i t Hfresh Hi) as (-> & _). done.
  - destruct IH as [Hnf Hna].
    apply step_neverRejects; [|done..]. by eapply reaches_Flight.
Qed.

Lemma reaches_mono this tm (A B : Config → Choice → Prop) start cfg :
  (∀ cfg c, A cfg c → B cfg c) →
  reaches this tm A start cfg → reaches this tm B start cfg.
Proof.
  intros HAB H. induction H as [|c cfg H IH Hok]; [constructor|].
  apply reaches_step; [done|by apply HAB].
Qed.

Lemma run_all_complete this (allowed : Config → Choice → Prop) env ts :
  allFresh ts = true → closedDeps ts = true → acyclic ts →
  (∀ cfg c, allowed cfg c → neverRejects this cfg c) →
  (∀ cfg, allowed cfg (env cfg)) →
  ∃ cfg, (∀ fuel, 6 * length ts < fuel →
                  executeTaskDAG this env fuel ts = Some cfg) ∧
         reaches this (mkTaskMap ts) allowed (initial ts) cfg ∧
         control cfg = Returned ∧
         (∀ i t, tasks cfg !! i = Some t →
                 status t = completed ∧ is_Some (result t) ∧ error t = None).
Proof.
  intros Hfresh Hcl Hacyc Hsub Hok.
  destruct (run_settles this allowed env ts Hfresh Hcl Hacyc Hok)
    as (cfg & Hrun & Hr & Hend).
  destruct (reaches_neverRejects this ts cfg Hfresh) as [Hnf Hna].
  { by eapply reaches_mono. }
  pose proof (reaches_Recorded _ _ _ _ _ Hfresh Hr) as [Hf _].
  exists cfg. destruct Hend as [[Hc Hterm]|[_ [msg Hc]]]; [|by apply Hna in Hc].
  split_and!; [done..|].
  intros i t Hi. destruct (Hterm i t Hi) as [Hs|Hs]; [|by apply Hnf in Hi].
  pose proof (Hf i t Hi) as Hfi. unfold fieldsOk in Hfi. rewrite Hs in Hfi.
  by destruct Hfi.
Qed.

(** X1.  When no awaited call is rejected (no agent fails, and no
    notification fails or none is sent), every run from fresh tasks with
    closed, acyclic dependencies returns, under every interleaving, with
    every task completed, carrying a result and no error; with unique ids
    the returned mapping holds that result under the id of every task. *)
Theorem all_tasks_complete_when_nothing_rejects this env ts :
  allFresh ts = true → closedDeps ts = true → acyclic ts →
  (∀ cfg, neverRejects this cfg (env cfg)) →
  ∃ cfg, (∀ fuel, 6 * length ts < fuel →
                  executeTaskDAG this env fuel ts = Some cfg) ∧
         control cfg = Returned ∧
         (∀ i t, tasks cfg !! i = Some t →
                 status t = completed ∧ is_Some (result t) ∧ error t = None) ∧
         (uniqueIds ts = true →
          ∀ i t, tasks cfg !! i = Some t →
                 results cfg !! id t = result t ∧ is_Some (results cfg !! id t)).
Proof.
  intros Hfresh Hcl Hacyc Hok.
  destruct (run_all_complete this (neverRejects this) env ts Hfresh Hcl Hacyc)
    as (cfg & Hrun & Hr & Hc & Hall); [done..|].
  exists cfg. split_and!; [done..|]. intros Hu i t Hi.
  pose proof (reaches_ResultsAgree _ _ _ _ _ Hfresh Hu Hr) as [Ht _].
  rewrite (Ht i t Hi). split; [done|]. by apply Hall in Hi as (_ & ? & _).
Qed.

Lemma envOf_neverRejects this w cfg :
  (∀ t deps, ∃ v, agent w t deps = Fulfilled v) →
  (∀ ph i, ∃ v, notifierSettled this (lark w ph i) = Fulfilled v) →
  neverRejects this cfg (envOf w cfg).
Proof.
  intros Ha Hl. unfold neverRejects, resumed, envOf. simpl.
  destruct (control cfg) as [|l| |]; try done.
  destruct (l !! (scheduler w cfg mod length l)) as [[i ph]|]; [|done].
  destruct ph; try apply Hl.
  destruct (tasks cfg !! i); [apply Ha|by eexists].
Qed.

(** X1 on the diamond, run by the agents of the source, with a Lark
    client that accepts every message. *)
Lemma all_tasks_complete_when_nothing_rejects_witness :
  (allFresh diamond = true ∧ closedDeps diamond = true ∧ acyclic diamond ∧
   ∀ cfg, neverRejects reporting cfg (envOf larkUp cfg)) ∧
  ∃ cfg, (∀ fuel, 6 * length diamond < fuel →
                  executeTaskDAG reporting (envOf larkUp) fuel diamond = Some cfg) ∧
         control cfg = Returned ∧
         (∀ i t, tasks cfg !! i = Some t →
                 status t = completed ∧ is_Some (result t) ∧ error t = None) ∧
         (uniqueIds diamond = true →
          ∀ i t, tasks cfg !! i = Some t →
                 results cfg !! id t = result t ∧ is_Some (results cfg !! id t)).
Proof.
  assert (acyclic diamond) as Hacyc.
  { apply (ranked_acyclic alphabetical). reflexivity. }
  assert (∀ cfg, neverRejects reporting cfg (envOf larkUp cfg)) as Hok.
  { intros cfg. apply envOf_neverRejects; intros; by eexists. }
  split; [split_and!; [reflexivity..|exact Hacyc|exact Hok]|].
  apply (all_tasks_complete_when_nothing_rejects reporting (envOf larkUp) diamond);
    [reflexivity..|exact Hacyc|exact Hok].
Defined.

(** ** A coordinator without Lark configuration *)

Lemma notifyTaskStart_off this ready :
  notifierActive this = false → flat_map (notifyTaskStart this) ready = [].
Proof.
  intros H. induction ready as [|r rs IH]; [done|].
  simpl. unfold notifyTaskStart at 1. by rewrite H.
Qed.

Lemma step_unconfigured this tm c cfg :
  notifierActive this = false →
  (∀ e, e ∈ trace cfg → isLarkCall e = false) →
  (∀ m, control cfg ≠ Aborted m) →
  (∀ e, e ∈ trace (step this tm c cfg) → isLarkCall e = false) ∧
  (∀ m, control (step this tm c cfg) ≠ Aborted m).
Proof.
  intros Hoff Htr Hna. unfold step.
  destruct (control cfg) as [|l| |] eqn:Hc; try (by split; [done|rewrite ?Hc]).
  - unfold loopHead. destruct (existsb active (tasks cfg)); [|by split].
    destruct (readyTasks tm (tasks cfg)) as [|r rs].
    + destruct (existsb isRunning (tasks cfg)); split; try done. by rewrite Hc.
    + split; [|done]. unfold dispatch. cbn [trace].
      rewrite notifyTaskStart_off, app_nil_r by done. exact Htr.
  - destruct l as [|e0 l']; [by split|].
    destruct ((e0 :: l') !! (resume c mod length (e0 :: l'))) as [[i ph]|];
      [|by split; [done|rewrite Hc]].
    unfold resumeClosure, notifierSettled, catchBlock, notifyTaskFailed,
      notifyTaskComplete.
    rewrite Hoff.
    destruct ph; [| destruct (settle c) | |]; simpl; (split; [|done]);
      rewrite ?app_nil_r; try exact Htr;
      intros e [He|He]%elem_of_app; try (by apply Htr);
      by apply list_elem_of_singleton in He as ->.
Qed.

Lemma reaches_unconfigured this tm ts cfg :
  notifierActive this = false →
  reaches this tm anyChoice (initial ts) cfg →
  (∀ e, e ∈ trace cfg → isLarkCall e = false) ∧
  (∀ m, control cfg ≠ Aborted m).
Proof.
  intros Hoff Hr. induction Hr as [|c cfg Hr IH _].
  - split; [|done]. by intros e ?%elem_of_nil.
  - destruct IH. by apply step_unconfigured.
Qed.

(** X2.  A coordinator without Lark client, without chat id or with an
    empty chat id sends no message, and its call is never rejected: when
    it settles it has returned, whatever the tasks are, however the agents
    settle and in whatever order the closures are resumed. *)
Theorem unconfigured_coordinator_is_silent this env fuel ts cfg :
  larkClient this = false ∨ chatId this = None ∨ chatId this = Some "" →
  executeTaskDAG this env fuel ts = Some cfg →
  control cfg = Returned ∧ ∀ e, e ∈ trace cfg → isLarkCall e = false.
Proof.
  intros Hcfg Hrun.
  assert (notifierActive this = false) as Hoff.
  { unfold notifierActive. destruct Hcfg as [->|[->| ->]]; [done|..];
      by destruct (larkClient this). }
  destruct (executeTaskDAG_reaches this anyChoice env fuel ts cfg) as [Hr Hfin];
    [done..|].
  destruct (reaches_unconfigured _ _ _ _ Hoff Hr) as [Htr Hna].
  split; [|done]. unfold final in Hfin.
  destruct (control cfg) eqn:Hc; try done. by destruct (Hna msg).
Qed.

(** X2 on the chain with the agent of [b] failing, run by a
    coordinator that has a client but an empty chat id. *)
Lemma unconfigured_coordinator_is_silent_witness :
  let this := mkCoordinator true (Some "") in
  let cfg := finalOf this (envOf (failingAgent "b")) chain in
  (larkClient this = false ∨ chatId this = None ∨ chatId this = Some "") ∧
  executeTaskDAG this (envOf (failingAgent "b")) 13 chain = Some cfg ∧
  control cfg = Returned ∧ ∀ e, e ∈ trace cfg → isLarkCall e = false.
Proof.
  intros this cfg.
  assert (larkClient this = false ∨ chatId this = None ∨ chatId this = Some "")
    as H1 by (right; right; reflexivity).
  assert (executeTaskDAG this (envOf (failingAgent "b")) 13 chain = Some cfg)
    as H2 by (vm_compute; reflexivity).
  split_and!; [exact H1|exact H2|..];
    apply (unconfigured_coordinator_is_silent this (envOf (failingAgent "b")) 13
             chain cfg H1 H2).
Defined.

(** ** Failure propagation, repeated *)

Lemma markLoop_settled rec fid ds (σ : list TaskStep) :
  (∀ i t, i ∈ ds → σ !! i = Some t → status t ≠ pending) →
  markLoop rec fid ds σ = Some σ.
Proof.
  induction ds as [|i ds IH]; intros H; simpl; [done|].
  assert (markLoop rec fid ds σ = Some σ) as E.
  { apply IH. intros j t Hj. apply H. by right. }
  destruct (σ !! i) as [t|] eqn:Hi; [|done].
  destruct (isPending t) eqn:Hp; [|done].
  apply isPending_true in Hp. exfalso. eapply (H i t); [by left|done..].
Qed.

Lemma markDependentTasksAsFailed_closed fid σ :
  closedUnder σ fid → markDependentTasksAsFailed fid σ = σ.
Proof.
  intros Hcl. unfold markDependentTasksAsFailed. simpl.
  rewrite markLoop_settled; [done|].
  intros i t Hi Ht Hp. apply elem_of_dependents in Hi as (t' & Ht' & Hd).
  rewrite Ht in Ht'. inversion Ht'; subst t'. by eapply Hcl.
Qed.

(** X3.  Failure propagation is idempotent, and it leaves the collection
    as it is exactly when no pending task depends on the failed id (an
    empty collection, an id nobody depends on, dependents that are already
    settled). *)
Theorem failure_propagation_idempotent fid σ :
  let σ' := markDependentTasksAsFailed fid σ in
  markDependentTasksAsFailed fid σ' = σ' ∧
  (σ' = σ ↔ closedUnder σ fid).
Proof.
  intros σ'. destruct (markDependentTasksAsFailed_spec fid σ) as (_ & Hcl & _).
  fold σ' in Hcl. split.
  - by apply markDependentTasksAsFailed_closed.
  - split.
    + intros E. by rewrite <- E.
    + apply markDependentTasksAsFailed_closed.
Qed.
(** ** A task handed over as running *)

Lemma step_keeps_stray_running this tm c cfg i0 :
  (∃ t, tasks cfg !! i0 = Some t ∧ status t = running) →
  i0 ∉ inflightOf cfg → control cfg ≠ Returned →
  (∃ t, tasks (step this tm c cfg) !! i0 = Some t ∧ status t = running) ∧
  (i0 ∉ inflightOf (step this tm c cfg)) ∧
  control (step this tm c cfg) ≠ Returned.
Proof.
  intros (t & Ht & Hs) Hin Hnr. unfold step.
  destruct (control cfg) as [|l| |] eqn:Hc; try done.
  - assert (existsb isRunning (tasks cfg) = true) as Hrun.
    { apply existsb_exists. exists t. split.
      - by eapply list_elem_of_In, list_elem_of_lookup_2.
      - unfold isRunning. by rewrite Hs. }
    assert (existsb active (tasks cfg) = true) as Ha.
    { apply existsb_exists. apply existsb_exists in Hrun as (u & ? & Hu).
      exists u. split; [done|]. unfold active. by rewrite Hu, orb_true_r. }
    unfold loopHead. rewrite Ha, Hrun.
    destruct (readyTasks tm (tasks cfg)) as [|r rs] eqn:Hr.
    + split_and!; [by exists t|done|by rewrite Hc].
    + assert (i0 ∉ r :: rs) as Hni.
      { rewrite <- Hr. intros (u & Hu & Hp)%readyTasks_pending. congruence. }
      unfold dispatch, inflightOf. cbn [tasks control].
      split_and!; [|by rewrite fst_awaitStart|done].
      exists t. split; [|done]. rewrite setRunning_lookup.
      by destruct (decide (i0 ∈ r :: rs)).
  - destruct l as [|e0 l'];
      [split_and!; [by exists t|by intros ?%elem_of_nil|done]|].
    remember (e0 :: l') as l eqn:El.
    destruct (l !! (resume c mod length l)) as [[i ph]|] eqn:Hk;
      [|split_and!; [by exists t|done|by rewrite Hc]].
    rewrite (inflightOf_control cfg l Hc) in Hin.
    assert (i ≠ i0) as Hne.
    { intros ->. apply Hin, elem_of_inflight. eauto. }
    assert (i0 ∉ (delete (resume c mod length l) l).*1) as Hdel.
    { intros (k' & ph' & H)%elem_of_inflight. apply Hin, elem_of_inflight.
      apply inflight_delete_lookup in H as (k'' & _ & H). eauto. }
    assert (∀ f, ∃ t', alter f i (tasks cfg) !! i0 = Some t' ∧ status t' = running)
      as Halt.
    { intros f. exists t. by rewrite list_lookup_alter_ne. }
    unfold resumeClosure, catchBlock.
    destruct ph; [destruct (notifierSettled this (settle c))
                 |destruct (settle c)
                 |destruct (notifierSettled this (settle c))
                 |destruct (notifierSettled this (settle c))];
      simpl; unfold inflightOf; simpl; 
      try (split_and!; [(by exists t) || apply Halt
                       |first [exact Hdel|by erewrite inflight_insert_fst]
                       |done]).
    + split_and!; [|exact Hdel|done]. exists t. split; [|done].
      eapply marksFrom_settled; [apply markDependentTasksAsFailed_spec|done|].
      by rewrite Hs.
    + split_and!; [by exists t| |done]. by intros ?%elem_of_nil.
  - split_and!; [by exists t|done|by rewrite Hc].
Qed.

(** X4.  A collection that is handed over with a task already marked
    running never makes the call return: if the call settles at all, it
    is rejected, which takes a configured notifier; a coordinator without
    Lark configuration stays in the loop for ever. *)
Theorem running_task_at_start_blocks_return this env fuel ts i t cfg :
  ts !! i = Some t → status t = running →
  executeTaskDAG this env fuel ts = Some cfg →
  notifierActive this = true ∧ ∃ msg, control cfg = Aborted msg.
Proof.
  intros Hi Hs Hrun.
  destruct (executeTaskDAG_reaches this anyChoice env fuel ts cfg) as [Hr Hfin];
    [done..|].
  assert ((∃ t, tasks cfg !! i = Some t ∧ status t = running) ∧
          (i ∉ inflightOf cfg) ∧ control cfg ≠ Returned) as (_ & _ & Hnr).
  { clear Hrun Hfin. induction Hr as [|c cfg Hr IH _].
    - split_and!; [by exists t| |done]. by intros ?%elem_of_nil.
    - destruct IH as (? & ? & ?). by apply step_keeps_stray_running. }
  unfold final in Hfin. destruct (control cfg) as [| | |msg] eqn:Hc; try done.
  split; [|by eexists].
  destruct (notifierActive this) eqn:Hoff; [done|exfalso].
  destruct (reaches_unconfigured _ _ _ _ Hoff Hr) as [_ Hna].
  by destruct (Hna msg).
Qed.

(** X4 on a collection of a running task and a fresh one, with a Lark
    client that rejects every message: the fresh task is dispatched, both
    its notifications are rejected and so is the call. *)
Lemma running_task_at_start_blocks_return_witness :
  let ts := [setStatus running (task "a" []); task "b" []] in
  let cfg := default (initial ts) (executeTaskDAG reporting (envOf larkDown) 5 ts) in
  (ts !! 0 = Some (setStatus running (task "a" [])) ∧
   status (setStatus running (task "a" [])) = running ∧
   executeTaskDAG reporting (envOf larkDown) 5 ts = Some cfg) ∧
  notifierActive reporting = true ∧ ∃ msg, control cfg = Aborted msg.
Proof.
  intros ts cfg.
  assert (executeTaskDAG reporting (envOf larkDown) 5 ts = Some cfg) as H
    by (vm_compute; reflexivity).
  split; [split_and!; [reflexivity..|exact H]|].
  apply (running_task_at_start_blocks_return reporting (envOf larkDown) 5 ts 0
           (setStatus running (task "a" [])) cfg); [reflexivity..|exact H].
Defined.
(** ** Every agent is invoked at most once *)

Lemma executions_app tr evs i :
  executions (tr ++ evs) i = executions tr i + executions evs i.
Proof. unfold executions. by rewrite List.filter_app, length_app. Qed.

Lemma returns_app tr evs i :
  returns (tr ++ evs) i = returns tr i + returns evs i.
Proof. unfold returns. by rewrite List.filter_app, length_app. Qed.

Lemma larkCalls_count evs i :
  (∀ e, e ∈ evs → isLarkCall e = true) →
  executions evs i = 0 ∧ returns evs i = 0.
Proof.
  unfold executions, returns. induction evs as [|e evs IH]; intros H; [done|].
  assert (isLarkCall e = true) as He by (apply H; by left).
  destruct IH as [IH1 IH2]; [intros; apply H; by right|].
  simpl. by destruct e.
Qed.

Lemma notifyTaskStart_count this ready i :
  executions (flat_map (notifyTaskStart this) ready) i = 0 ∧
  returns (flat_map (notifyTaskStart this) ready) i = 0.
Proof.
  apply larkCalls_count. by intros e [j ->]%elem_of_notifyTaskStart.
Qed.

Lemma notifyTaskComplete_count this j i :
  executions (notifyTaskComplete this j) i = 0 ∧
  returns (notifyTaskComplete this j) i = 0.
Proof.
  apply larkCalls_count. by intros e ->%elem_of_notifyTaskComplete.
Qed.

Lemma notifyTaskFailed_count this j msg i :
  executions (notifyTaskFailed this j msg) i = 0 ∧
  returns (notifyTaskFailed this j msg) i = 0.
Proof.
  apply larkCalls_count. by intros e ->%elem_of_notifyTaskFailed.
Qed.

Lemma Once_keep cfg cfg' :
  Once cfg →
  (∀ i, executions (trace cfg') i = executions (trace cfg) i) →
  (∀ i, returns (trace cfg') i = returns (trace cfg) i) →
  (∀ i, notPendingAt cfg i → notPendingAt cfg' i) →
  (∀ i ph, ph = AwaitNotifyStart ∨ ph = AwaitExecuteTask →
           notPendingAt cfg i → notWaitingAt cfg i ph → notWaitingAt cfg' i ph) →
  Once cfg'.
Proof.
  intros [He Hr Hs Hd] Ee Er Hp Hw. split; intros i.
  - rewrite Ee. apply He.
  - rewrite Er. apply Hr.
  - rewrite Ee. intros H. destruct (Hs i H) as [? ?].
    split; [by apply Hp|apply Hw; auto].
  - rewrite Er. intros H. destruct (Hd i H) as (? & ? & ?).
    split_and!; [by apply Hp|apply Hw; auto..].
Qed.

Lemma notPendingAt_alter cfg i j f (σ' : list TaskStep) :
  (∀ t, status (f t) ≠ pending) →
  σ' = alter f j (tasks cfg) →
  notPendingAt cfg i → ∀ t, σ' !! i = Some t → status t ≠ pending.
Proof.
  intros Hf -> Hp t Ht. destruct (decide (j = i)) as [->|Hne].
  - rewrite list_lookup_alter_eq in Ht.
    destruct (tasks cfg !! i); simpl in Ht; [|done]. inversion Ht; subst. apply Hf.
  - rewrite list_lookup_alter_ne in Ht by done. by apply Hp.
Qed.

Lemma notWaitingAt_moved cfg cfg' l k i0 ph0 ph1 i ph :
  control cfg = AwaitAll l → l !! k = Some (i0, ph0) → NoDup l.*1 →
  control cfg' = AwaitAll (<[k := (i0, ph1)]> l) →
  (i = i0 → ph ≠ ph1) →
  (i ≠ i0 → notWaitingAt cfg i ph) →
  notWaitingAt cfg' i ph.
Proof.
  intros Hc Hk Hnd Hc' Hne Hw l' k' Hl' Hlk.
  rewrite Hc' in Hl'. inversion Hl'; subst l'.
  apply inflight_insert_lookup in Hlk as [[_ E]|[Hk' H]].
  - inversion E; subst. by apply Hne.
  - destruct (decide (i = i0)) as [->|Hn].
    + apply Hk'. by eapply inflight_lookup_NoDup.
    + by eapply Hw.
Qed.

Lemma notWaitingAt_dropped cfg cfg' l k i ph :
  control cfg = AwaitAll l →
  control cfg' = AwaitAll (delete k l) →
  notWaitingAt cfg i ph → notWaitingAt cfg' i ph.
Proof.
  intros Hc Hc' Hw l' k' Hl' Hlk. rewrite Hc' in Hl'. inversion Hl'; subst l'.
  apply inflight_delete_lookup in Hlk as (k'' & _ & H). by eapply Hw.
Qed.

Lemma Once_step this tm calm cfg cfg' :
  Flight cfg → Once cfg → Step this tm calm cfg cfg' → Once cfg'.
Proof.
  intros F O HS. pose proof (flight_nodup _ F) as Hnd.
  destruct HS as [cfg Hc Ha|cfg Hc Hrdy Hrun|cfg Hc Hrdy Hrun|cfg Hc Hrdy
                 |cfg Hc|cfg l k i0 t Hc Hk Ht|cfg l k i0 t v Hc Hk Ht
                 |cfg l k i0 ph msg Hc Hk Hph Hwhy Hcalm
                 |cfg l k i0 Hc Hk|cfg l k i0 t Hc Hk Ht|cfg l k i0 msg Hc Hk Hon];
    try rewrite (inflightOf_control _ _ Hc) in Hnd.
  - by apply (Once_keep cfg).
  - by apply (Once_keep cfg).
  - done.
  - apply (Once_keep cfg); try done; unfold dispatch; cbn [trace tasks control].
    + intros i. rewrite executions_app.
      destruct (notifyTaskStart_count this (readyTasks tm (tasks cfg)) i) as [-> _].
      lia.
    + intros i. rewrite returns_app.
      destruct (notifyTaskStart_count this (readyTasks tm (tasks cfg)) i) as [_ ->].
      lia.
    + intros i Hp t Ht. cbn [tasks] in Ht. rewrite setRunning_lookup in Ht.
      destruct (decide _).
      * destruct (tasks cfg !! i); simpl in Ht; [|done]. by inversion Ht; subst.
      * by apply Hp.
    + intros i ph _ Hp _ l k Hl Hlk. cbn [control] in Hl. inversion Hl; subst l.
      rewrite list_lookup_fmap in Hlk.
      destruct (readyTasks tm (tasks cfg) !! k) as [j|] eqn:Hj; [|done].
      simpl in Hlk. inversion Hlk; subst.
      apply list_elem_of_lookup_2, readyTasks_pending in Hj as (u & Hu & Hpu).
      by eapply Hp.
  - by apply (Once_keep cfg).
  - destruct (flight_phase _ F l k i0 _ Hc Hk) as (t0 & Ht0 & Hs0). simpl in Hs0.
    destruct O as [He Hr Hs Hd].
    assert (executions (trace cfg) i0 = 0) as E0.
    { destruct (executions (trace cfg) i0) eqn:E; [done|exfalso].
      destruct (Hs i0) as [_ Hw]; [lia|]. by eapply Hw. }
    assert (returns (trace cfg) i0 = 0) as R0.
    { destruct (returns (trace cfg) i0) eqn:E; [done|exfalso].
      destruct (Hd i0) as (_ & Hw & _); [lia|]. by eapply Hw. }
    set (cfg' := mkConfig _ _ _ _).
    assert (∀ i ph, (i = i0 → ph ≠ AwaitExecuteTask) →
                    (i ≠ i0 → notWaitingAt cfg i ph) → notWaitingAt cfg' i ph)
      as Hkeep.
    { intros i ph. by eapply notWaitingAt_moved. }
    assert (∀ i, executions (trace cfg') i
                 = executions (trace cfg) i + (if decide (i0 = i) then 1 else 0))
      as Ee.
    { intros i. unfold cfg'. cbn [trace]. rewrite executions_app.
      unfold executions at 2. simpl.
      destruct (decide (i0 = i)) as [->|Hne];
        by rewrite ?bool_decide_eq_true_2, ?bool_decide_eq_false_2 by done. }
    assert (∀ i, returns (trace cfg') i = returns (trace cfg) i) as Er.
    { intros i. unfold cfg'. cbn [trace]. rewrite returns_app.
      unfold returns at 2. simpl. lia. }
    split; intros i; rewrite ?Ee, ?Er; specialize (He i); specialize (Hr i);
      destruct (decide (i0 = i)) as [<-|Hne]; cbv iota; try lia.
    + intros _. split.
      * intros u Hu. unfold cfg' in Hu. cbn [tasks] in Hu.
        rewrite Ht0 in Hu. inversion Hu; subst. by rewrite Hs0.
      * by apply Hkeep.
    + intros H. destruct (Hs i) as [Hp Hw]; [lia|]. split; [done|].
      apply Hkeep; [congruence|done].
    + intros H. destruct (Hd i) as (Hp & Hw1 & Hw2); [lia|].
      split_and!; [done|apply Hkeep; [congruence|done]..].
  - destruct (flight_phase _ F l k i0 _ Hc Hk) as (t0 & Ht0 & Hs0). simpl in Hs0.
    destruct O as [He Hr Hs Hd].
    assert (returns (trace cfg) i0 = 0) as R0.
    { destruct (returns (trace cfg) i0) eqn:E; [done|exfalso].
      destruct (Hd i0) as (_ & _ & Hw); [lia|]. by eapply Hw. }
    set (cfg' := mkConfig _ _ _ _).
    assert (∀ i ph, (i = i0 → ph ≠ AwaitNotifyComplete) →
                    (i ≠ i0 → notWaitingAt cfg i ph) → notWaitingAt cfg' i ph)
      as Hkeep.
    { intros i ph. by eapply notWaitingAt_moved. }
    assert (∀ i, notPendingAt cfg i → notPendingAt cfg' i) as Hp'.
    { intros i Hp u Hu. eapply (notPendingAt_alter cfg i i0 (completedWith v));
        [done|reflexivity|done|exact Hu]. }
    assert (notPendingAt cfg' i0) as Hp0.
    { intros u Hu. unfold cfg' in Hu. cbn [tasks] in Hu.
      rewrite list_lookup_alter_eq, Ht0 in Hu. by inversion Hu; subst. }
    assert (∀ i, executions (trace cfg') i = executions (trace cfg) i) as Ee.
    { intros i. unfold cfg'. cbn [trace]. rewrite executions_app.
      change (AgentReturned i0 v :: notifyTaskComplete this i0)
        with ([AgentReturned i0 v] ++ notifyTaskComplete this i0)%list.
      rewrite executions_app.
      destruct (notifyTaskComplete_count this i0 i) as [-> _].
      unfold executions at 2. simpl. lia. }
    assert (∀ i, returns (trace cfg') i
                 = returns (trace cfg) i + (if decide (i0 = i) then 1 else 0))
      as Er.
    { intros i. unfold cfg'. cbn [trace]. rewrite returns_app.
      change (AgentReturned i0 v :: notifyTaskComplete this i0)
        with ([AgentReturned i0 v] ++ notifyTaskComplete this i0)%list.
      rewrite returns_app.
      destruct (notifyTaskComplete_count this i0 i) as [_ ->].
      unfold returns at 2. simpl.
      destruct (decide (i0 = i)) as [->|Hne];
        rewrite ?bool_decide_eq_true_2, ?bool_decide_eq_false_2 by done;
        simpl; lia. }
    split; intros i; rewrite ?Ee, ?Er; specialize (He i); specialize (Hr i);
      destruct (decide (i0 = i)) as [<-|Hne]; cbv iota; try lia.
    + intros H. split; [done|]. by apply Hkeep.
    + intros H. destruct (Hs i) as [Hp Hw]; [lia|]. split; [by apply Hp'|].
      apply Hkeep; [congruence|done].
    + intros _. split_and!; [done|by apply Hkeep..].
    + intros H. destruct (Hd i) as (Hp & Hw1 & Hw2); [lia|].
      split_and!; [by apply Hp'|apply Hkeep; [congruence|done]..].
  - apply (Once_keep cfg); try done; cbn [trace].
    + intros i. rewrite executions_app.
      destruct (notifyTaskFailed_count this i0 msg i) as [-> _]. lia.
    + intros i. rewrite returns_app.
      destruct (notifyTaskFailed_count this i0 msg i) as [_ ->]. lia.
    + intros i Hp u Hu. eapply (notPendingAt_alter cfg i i0 (failedWith msg));
        [done|reflexivity|done|exact Hu].
    + intros i ph' Hph' _ Hw. eapply notWaitingAt_moved; try done.
      intros _ ->. by destruct Hph'.
  - apply (Once_keep cfg); try done.
    intros i ph' _ _ Hw. by eapply notWaitingAt_dropped.
  - apply (Once_keep cfg); try done.
    + intros i Hp u Hu Hpu. cbn [tasks] in Hu.
      eapply Hp; [|exact Hpu].
      eapply marksFrom_pending;
        [apply (markDependentTasksAsFailed_spec (id t))|exact Hu|exact Hpu].
    + intros i ph' _ _ Hw. by eapply notWaitingAt_dropped.
  - by apply (Once_keep cfg).
Qed.

Lemma Once_initial ts : Once (initial ts).
Proof.
  split; intros i; unfold executions, returns; simpl; try lia.
Qed.

Lemma returns_pos tr i v : AgentReturned i v ∈ tr → 0 < returns tr i.
Proof.
  unfold returns. induction tr as [|e tr IH]; [by intros ?%elem_of_nil|].
  intros [<-|H]%elem_of_cons; simpl.
  - rewrite bool_decide_eq_true_2 by done. simpl. lia.
  - destruct (isReturnOf i e); simpl; [lia|by apply IH].
Qed.

(** X5.  In a run from fresh tasks the agent of every task is invoked at
    most once and returns at most once, whatever the dependencies are,
    however the awaited calls settle and in whatever order the closures
    are resumed; the agent of a pending task was not invoked, and the
    agent of a completed task returned exactly once. *)
Theorem agent_invoked_at_most_once this tm ts cfg i :
  allFresh ts = true →
  reaches this tm anyChoice (initial ts) cfg →
  executions (trace cfg) i ≤ 1 ∧ returns (trace cfg) i ≤ 1 ∧
  ∀ t, tasks cfg !! i = Some t →
       (status t = pending →
        executions (trace cfg) i = 0 ∧ returns (trace cfg) i = 0) ∧
       (status t = completed → returns (trace cfg) i = 1).
Proof.
  intros Hfresh Hr. pose proof (allFresh_noneRunning ts Hfresh) as Hnr.
  assert (Once cfg) as [He Hret Hs Hd].
  { apply (reaches_invariant this tm false anyChoice ts Once); try done.
    - apply Once_initial.
    - intros c c' F O HS. by eapply Once_step. }
  split_and!; [done..|]. intros t Ht. split.
  - intros Hp. split.
    + destruct (executions (trace cfg) i) eqn:E; [done|exfalso].
      destruct (Hs i) as [Hnp _]; [lia|]. by eapply Hnp.
    + destruct (returns (trace cfg) i) eqn:E; [done|exfalso].
      destruct (Hd i) as [Hnp _]; [lia|]. by eapply Hnp.
  - intros Hc.
    pose proof (reaches_Recorded _ _ _ _ _ Hfresh Hr) as [Hf [_ Hres]].
    pose proof (Hf i t Ht) as Hfi. unfold fieldsOk in Hfi. rewrite Hc in Hfi.
    destruct Hfi as [[v Hv] _].
    pose proof (returns_pos _ _ _ (Hres i t v Ht Hv)). specialize (Hret i). lia.
Qed.

(** X5 on the diamond with the agent of [b] failing, at the end of the
    run and for task [a]. *)
Lemma agent_invoked_at_most_once_witness :
  let tm := mkTaskMap diamond in
  let cfg := advance reporting tm (envOf (failingAgent "b")) 25 (initial diamond) in
  allFresh diamond = true ∧
  executions (trace cfg) 0 ≤ 1 ∧ returns (trace cfg) 0 ≤ 1 ∧
  ∀ t, tasks cfg !! 0 = Some t →
       (status t = pending →
        executions (trace cfg) 0 = 0 ∧ returns (trace cfg) 0 = 0) ∧
       (status t = completed → returns (trace cfg) 0 = 1).
Proof.
  intros tm cfg. split; [reflexivity|].
  apply (agent_invoked_at_most_once reporting tm diamond cfg 0);
    [reflexivity|]. apply advance_reaches. constructor.
Defined.
(** ** What the agents are called with *)

Lemma reaches_strong_invariant this tm allowed ts (I : Config → Prop) cfg :
  noneRunning ts →
  I (initial ts) →
  (∀ cfg cfg', reaches this tm allowed (initial ts) cfg → I cfg →
               Step this tm false cfg cfg' → I cfg') →
  reaches this tm allowed (initial ts) cfg → I cfg.
Proof.
  intros Hnr H0 HS Hr. induction Hr as [|c cfg Hr IH Hok]; [done|].
  destruct (final cfg) eqn:Hf.
  - by rewrite step_final.
  - eapply HS; [exact Hr|exact IH|]. apply step_Step; [done| |done].
    apply Flight_inRange. by eapply reaches_Flight.
Qed.

(** A step only appends to the trace, and an agent is only invoked by the
    closure that waited for the task-started notification. *)
Lemma Step_trace this tm calm cfg cfg' :
  Step this tm calm cfg cfg' →
  ∃ evs : list Event, trace cfg' = (trace cfg ++ evs)%list ∧
         ∀ i deps, Execute i deps ∈ evs →
                   ∃ l k t, control cfg = AwaitAll l ∧
                            l !! k = Some (i, AwaitNotifyStart) ∧
                            tasks cfg !! i = Some t ∧
                            deps = dependencyResults (results cfg) t.
Proof.
  intros HS.
  destruct HS as [cfg Hc Ha|cfg Hc Hrdy Hrun|cfg Hc Hrdy Hrun|cfg Hc Hrdy
                 |cfg Hc|cfg l k i0 t Hc Hk Ht|cfg l k i0 t v Hc Hk Ht
                 |cfg l k i0 ph msg Hc Hk Hph Hwhy Hcalm
                 |cfg l k i0 Hc Hk|cfg l k i0 t Hc Hk Ht|cfg l k i0 msg Hc Hk Hon];
    cbn [trace withControl dispatch];
    try (exists []; split; [by rewrite app_nil_r|by intros ?? ?%elem_of_nil]).
  - eexists. split; [done|].
    by intros i deps [j ?]%elem_of_notifyTaskStart.
  - eexists. split; [done|].
    intros i deps Hin%list_elem_of_singleton. inversion Hin; subst. eauto 8.
  - eexists. split; [done|].
    intros i deps [?|?%elem_of_notifyTaskComplete]%elem_of_cons; done.
  - eexists. split; [done|].
    by intros i deps ?%elem_of_notifyTaskFailed.
Qed.

(** X6.  In a run from fresh tasks with unique ids, the agent of a task
    is called with one entry for every dependency of the task, in the
    order of the dependency list, and every entry holds the result that
    the agent of that dependency returned: no agent sees a missing
    result. *)
Theorem agents_receive_dependency_results this ts cfg i deps :
  allFresh ts = true → uniqueIds ts = true →
  reaches this (mkTaskMap ts) anyChoice (initial ts) cfg →
  Execute i deps ∈ trace cfg →
  ∃ t, tasks cfg !! i = Some t ∧ deps.*1 = dependencies t ∧
       ∀ d o, (d, o) ∈ deps →
              ∃ j u v, tasks cfg !! j = Some u ∧ id u = d ∧
                       result u = Some v ∧ o = Some v ∧
                       AgentReturned j v ∈ trace cfg.
Proof.
  intros Hfresh Hu Hr Hin.
  pose proof (allFresh_noneRunning ts Hfresh) as Hnr.
  assert (∀ i deps, Execute i deps ∈ trace cfg →
            ∃ t0, ts !! i = Some t0 ∧ deps.*1 = dependencies t0 ∧
                  ∀ d o, (d, o) ∈ deps →
                         ∃ j v, mkTaskMap ts !! d = Some j ∧ o = Some v ∧
                                AgentReturned j v ∈ trace cfg) as HI.
  { clear i deps Hin. revert Hr.
    apply (reaches_strong_invariant this (mkTaskMap ts) anyChoice ts
             (λ cfg, ∀ i deps, Execute i deps ∈ trace cfg →
                ∃ t0, ts !! i = Some t0 ∧ deps.*1 = dependencies t0 ∧
                      ∀ d o, (d, o) ∈ deps →
                             ∃ j v, mkTaskMap ts !! d = Some j ∧ o = Some v ∧
                                    AgentReturned j v ∈ trace cfg)); [done| |].
    - by intros i deps ?%elem_of_nil.
    - intros c c' Hr IH HS i deps Hin.
      destruct (Step_trace _ _ _ _ _ HS) as (evs & E & Hevs).
      rewrite E in Hin. setoid_rewrite E. clear E.
      apply elem_of_app in Hin as [Hin|Hin].
      + destruct (IH i deps Hin) as (t0 & Ht0 & Hd & Hall).
        exists t0. split_and!; [done..|]. intros d o Hdo.
        destruct (Hall d o Hdo) as (j & v & ? & ? & ?).
        exists j, v. split_and!; [done..|]. apply elem_of_app. by left.
      + destruct (Hevs i deps Hin) as (l & k & t & Hc & Hk & Ht & ->).
        pose proof (reaches_Flight _ _ _ _ _ Hnr Hr) as F.
        pose proof (reaches_Discipline _ _ _ _ _ Hfresh Hr) as D.
        pose proof (reaches_Recorded _ _ _ _ _ Hfresh Hr) as [Hf [_ Hres]].
        pose proof (reaches_ResultsAgree _ _ _ _ _ Hfresh Hu Hr) as [Hag _].
        pose proof (reaches_staticView _ _ _ _ _ Hnr Hr) as Hst.
        destruct (staticView_lookup _ _ i t Hst Ht) as (t0 & Ht0 & _ & Hd0).
        destruct (flight_phase _ F l k i _ Hc Hk) as (t' & Ht' & Hs').
        rewrite Ht in Ht'. inversion Ht'; subst t'. simpl in Hs'.
        exists t0. split_and!; [done| |].
        { unfold dependencyResults. rewrite <- list_fmap_compose, Hd0.
          apply list_fmap_id. }
        intros d o Hdo. unfold dependencyResults in Hdo.
        apply list_elem_of_fmap in Hdo as (d' & E & Hd'). inversion E; subst d' o.
        destruct (disc_deps _ _ D i t Ht (or_introl Hs') d Hd')
          as (j & u & Hj & Huj & Hsu & _).
        destruct (mkTaskMap_lookup ts d j Hj) as (u0 & Hu0 & Hid0).
        destruct (staticView_lookup _ _ j u Hst Huj) as (u0' & Hu0' & Hid & _).
        rewrite Hu0 in Hu0'. inversion Hu0'; subst u0'.
        pose proof (Hf j u Huj) as Hfu. unfold fieldsOk in Hfu.
        rewrite Hsu in Hfu. destruct Hfu as [[v Hv] _].
        exists j, v. split_and!; [done| |].
        * rewrite <- Hid0, Hid, (Hag j u Huj). done.
        * apply elem_of_app. left. by eapply Hres. }
  destruct (HI i deps Hin) as (t0 & Ht0 & Hd & Hall).
  pose proof (reaches_staticView _ _ _ _ _ Hnr Hr) as Hst.
  pose proof (reaches_Recorded _ _ _ _ _ Hfresh Hr) as [_ [Hret _]].
  assert (is_Some (tasks cfg !! i)) as [t Ht].
  { apply lookup_lt_is_Some. apply (f_equal length) in Hst.
    unfold staticView in Hst. rewrite !length_fmap in Hst. rewrite Hst.
    by eapply lookup_lt_Some. }
  destruct (staticView_lookup _ _ i t Hst Ht) as (t0' & Ht0' & _ & Hd0).
  rewrite Ht0 in Ht0'. inversion Ht0'; subst t0'.
  exists t. split_and!; [done|congruence|].
  intros d o Hdo. destruct (Hall d o Hdo) as (j & v & Hj & -> & Hjv).
  destruct (Hret j v Hjv) as (u & Huj & Hv).
  destruct (mkTaskMap_lookup ts d j Hj) as (u0 & Hu0 & Hid0).
  destruct (staticView_lookup _ _ j u Hst Huj) as (u0' & Hu0' & Hid & _).
  rewrite Hu0 in Hu0'. inversion Hu0'; subst u0'.
  exists j, u, v. split_and!; [done|congruence|done..].
Qed.

(** X6 on the diamond, at the end of the run and for the call of the
    agent of [d], which depends on [b] and [c]. *)
Lemma agents_receive_dependency_results_witness :
  let cfg := advance silent (mkTaskMap diamond) (envOf larkUp) 25 (initial diamond) in
  let deps := [("b", Some generalResult); ("c", Some generalResult)] in
  (allFresh diamond = true ∧ uniqueIds diamond = true ∧
   Execute 3 deps ∈ trace cfg) ∧
  ∃ t, tasks cfg !! 3 = Some t ∧ deps.*1 = dependencies t ∧
       ∀ d o, (d, o) ∈ deps →
              ∃ j u v, tasks cfg !! j = Some u ∧ id u = d ∧
                       result u = Some v ∧ o = Some v ∧
                       AgentReturned j v ∈ trace cfg.
Proof.
  intros cfg deps.
  assert (Execute 3 deps ∈ trace cfg) as Hin.
  { apply (list_elem_of_lookup_2 _ 6). vm_compute. reflexivity. }
  split; [split_and!; [reflexivity..|exact Hin]|].
  apply (agents_receive_dependency_results silent diamond cfg 3 deps);
    [reflexivity..| |exact Hin].
  apply advance_reaches. constructor.
Defined.

(** ** What a run leaves alone *)

Lemma sameStatic_trans t1 t2 t3 :
  sameStatic t1 t2 → sameStatic t2 t3 → sameStatic t1 t3.
Proof.
  intros (? & ? & ? & ? & ?) (? & ? & ? & ? & ?). repeat split; congruence.
Qed.

Lemma reaches_sameStatic this tm allowed ts cfg :
  noneRunning ts →
  reaches this tm allowed (initial ts) cfg →
  length (tasks cfg) = length ts ∧
  ∀ i t0, ts !! i = Some t0 →
          ∃ t, tasks cfg !! i = Some t ∧ sameStatic t0 t.
Proof.
  intros Hnr.
  apply (reaches_invariant this tm false allowed ts
           (λ cfg, length (tasks cfg) = length ts ∧
                   ∀ i t0, ts !! i = Some t0 →
                           ∃ t, tasks cfg !! i = Some t ∧ sameStatic t0 t));
    try done.
  - split; [done|]. intros i t0 Hi. exists t0. split; [done|apply sameStatic_refl].
  - intros c c' F [Hl IH] HS.
    destruct (Step_TaskMove _ _ _ _ _ F HS) as [Hl' Hm].
    split; [congruence|]. intros i t0 Hi.
    destruct (IH i t0 Hi) as (t & Ht & Hst).
    destruct (Hm i t Ht) as (t' & Ht' & Hmv).
    exists t'. split; [done|].
    eapply sameStatic_trans; [exact Hst|]. by eapply TaskMove_static.
Qed.

(** X7.  A run writes nothing but [status], [result] and [error]: the
    collection keeps its length and order, and every task keeps its id,
    name, description, agent type and dependency list, under every
    environment. *)
Theorem run_keeps_task_identity this env fuel ts cfg :
  noneRunning ts →
  executeTaskDAG this env fuel ts = Some cfg →
  length (tasks cfg) = length ts ∧
  ∀ i t0, ts !! i = Some t0 →
          ∃ t, tasks cfg !! i = Some t ∧
               id t = id t0 ∧ name t = name t0 ∧
               description t = description t0 ∧
               agentType t = agentType t0 ∧
               dependencies t = dependencies t0.
Proof.
  intros Hnr Hrun.
  destruct (executeTaskDAG_reaches this anyChoice env fuel ts cfg) as [Hr _];
    [done..|].
  destruct (reaches_sameStatic _ _ _ _ _ Hnr Hr) as [Hl H].
  split; [done|]. intros i t0 Hi. destruct (H i t0 Hi) as (t & Ht & Hst).
  by exists t.
Qed.

(** X7 on the chain with the agent of [b] failing. *)
Lemma run_keeps_task_identity_witness :
  let env := envOf (failingAgent "b") in
  let cfg := finalOf reporting env chain in
  (noneRunning chain ∧
   executeTaskDAG reporting env 13 chain = Some cfg) ∧
  length (tasks cfg) = length chain ∧
  ∀ i t0, chain !! i = Some t0 →
          ∃ t, tasks cfg !! i = Some t ∧
               id t = id t0 ∧ name t = name t0 ∧
               description t = description t0 ∧
               agentType t = agentType t0 ∧
               dependencies t = dependencies t0.
Proof.
  intros env cfg.
  assert (noneRunning chain) as Hnr by (by apply allFresh_noneRunning).
  assert (executeTaskDAG reporting env 13 chain = Some cfg) as Hrun
    by (vm_compute; reflexivity).
  split; [split; [exact Hnr|exact Hrun]|].
  apply (run_keeps_task_identity reporting env 13 chain cfg Hnr Hrun).
Defined.

(** ** The result map only grows *)

(** X8.  In a run from fresh tasks with unique ids, a step never removes
    or overwrites an entry of [results]: what an agent returned stays in
    the map under the id of its task until the call settles. *)
Theorem results_only_grow this ts cfg c :
  allFresh ts = true → uniqueIds ts = true →
  reaches this (mkTaskMap ts) anyChoice (initial ts) cfg →
  results cfg ⊆ results (step this (mkTaskMap ts) c cfg).
Proof.
  intros Hfresh Hu Hr.
  pose proof (allFresh_noneRunning ts Hfresh) as Hnr.
  destruct (final cfg) eqn:Hfin; [by rewrite step_final|].
  pose proof (reaches_Flight _ _ _ _ _ Hnr Hr) as F.
  pose proof (reaches_Recorded _ _ _ _ _ Hfresh Hr) as [Hf _].
  pose proof (reaches_ResultsAgree _ _ _ _ _ Hfresh Hu Hr) as [Hag _].
  assert (Step this (mkTaskMap ts) false cfg (step this (mkTaskMap ts) c cfg))
    as HS.
  { apply step_Step; [done|by apply Flight_inRange|done]. }
  destruct HS as [cfg Hc Ha|cfg Hc Hrdy Hrun|cfg Hc Hrdy Hrun|cfg Hc Hrdy
                 |cfg Hc|cfg l k i0 t Hc Hk Ht|cfg l k i0 t v Hc Hk Ht
                 |cfg l k i0 ph msg Hc Hk Hph Hwhy Hcalm
                 |cfg l k i0 Hc Hk|cfg l k i0 t Hc Hk Ht|cfg l k i0 msg Hc Hk Hon];
    try done.
  cbn [results]. apply insert_subseteq.
  destruct (flight_phase _ F l k i0 _ Hc Hk) as (t' & Ht' & Hs').
  rewrite Ht in Ht'. inversion Ht'; subst t'. simpl in Hs'.
  rewrite (Hag i0 t Ht). pose proof (Hf i0 t Ht) as Hfi.
  unfold fieldsOk in Hfi. rewrite Hs' in Hfi. apply Hfi.
Qed.

(** X8 on the diamond, after the agents of [a] and [b] returned and for
    the step in which the agent of [c] returns. *)
Lemma results_only_grow_witness :
  let cfg := advance silent (mkTaskMap diamond) (envOf larkUp) 10 (initial diamond) in
  (allFresh diamond = true ∧ uniqueIds diamond = true) ∧
  results cfg ⊆ results (step silent (mkTaskMap diamond) (envOf larkUp cfg) cfg).
Proof.
  intros cfg. split; [split; reflexivity|].
  apply (results_only_grow silent diamond cfg (envOf larkUp cfg));
    [reflexivity..|].
  apply advance_reaches. constructor.
Defined.

(** ** The agents of the source *)

(** What an agent of the source returns depends on the agent type
    alone. *)
Lemma runAgent_agentType t t' deps deps' :
  agentType t = agentType t' → runAgent t deps = runAgent t' deps'.
Proof. unfold runAgent. by intros ->. Qed.

(** An agent result enters the trace only when the closure waiting for
    [executeTask] is resumed with a fulfilled call. *)
Lemma step_returned this tm c cfg i v :
  AgentReturned i v ∈ trace (step this tm c cfg) →
  AgentReturned i v ∈ trace cfg ∨
  (resumed c cfg = Some (i, AwaitExecuteTask) ∧ settle c = Fulfilled v).
Proof.
  unfold step, resumed.
  destruct (control cfg) as [|l| |] eqn:Hc; try (by left).
  - unfold loopHead. destruct (existsb active (tasks cfg)); [|by left].
    destruct (readyTasks tm (tasks cfg)) as [|r rs].
    + destruct (existsb isRunning (tasks cfg)); by left.
    + unfold dispatch. cbn [trace]. intros [H|H]%elem_of_app; [by left|].
      by apply elem_of_notifyTaskStart in H as [j ?].
  - destruct l as [|e0 l']; [by left|].
    destruct ((e0 :: l') !! (resume c mod length (e0 :: l'))) as [[j ph]|];
      [|by left].
    unfold resumeClosure, catchBlock.
    destruct ph; [destruct (notifierSettled this (settle c))
                 |destruct (settle c) as [w|]
                 |destruct (notifierSettled this (settle c))
                 |destruct (notifierSettled this (settle c))];
      cbn [trace withControl fst snd]; try (by left);
      intros [H|H]%elem_of_app; try (by left).
    + by apply list_elem_of_singleton in H.
    + by apply elem_of_notifyTaskFailed in H.
    + apply elem_of_cons in H as [H|H].
      * inversion H; subst. by right.
      * by apply elem_of_notifyTaskComplete in H.
    + by apply elem_of_notifyTaskFailed in H.
    + by apply elem_of_notifyTaskFailed in H.
Qed.

(** X9.  With the agents as the source has them, which return a fixed
    object per agent type and never fail, and a notifier that is not
    rejected (or none), every run from fresh tasks with unique ids and
    closed, acyclic dependencies returns with every task completed, and
    [results] holds under the id of every task what [executeTask] yields
    for it, under every order of resumption. *)
Theorem source_agents_complete_every_task this sched answers ts :
  allFresh ts = true → uniqueIds ts = true →
  closedDeps ts = true → acyclic ts →
  (∀ ph i, ∃ v, notifierSettled this (answers ph i) = Fulfilled v) →
  ∃ cfg, (∀ fuel, 6 * length ts < fuel →
                  executeTaskDAG this (envOf (sourceAgents sched answers)) fuel ts
                  = Some cfg) ∧
         control cfg = Returned ∧
         ∀ i t0, ts !! i = Some t0 →
                 ∃ t v, tasks cfg !! i = Some t ∧ status t = completed ∧
                        result t = Some v ∧ results cfg !! id t0 = Some v ∧
                        ∀ previousResults,
                          executeTask t0 previousResults = Fulfilled v.
Proof.
  intros Hfresh Hu Hcl Hacyc Hlark.
  pose proof (allFresh_noneRunning ts Hfresh) as Hnr.
  set (w := sourceAgents sched answers).
  set (allowed := λ cfg c, neverRejects this cfg c ∧ c = envOf w cfg).
  destruct (run_all_complete this allowed (envOf w) ts Hfresh Hcl Hacyc)
    as (cfg & Hrun & Hr & Hc & Hall).
  { by intros cfg c [? _]. }
  { intros cfg. split; [|done]. apply envOf_neverRejects; [|done].
    intros t deps. by eexists. }
  exists cfg. split_and!; [done..|].
  assert (∀ i v, AgentReturned i v ∈ trace cfg →
                 ∃ t0, ts !! i = Some t0 ∧
                       ∀ r, executeTask t0 r = Fulfilled v) as Hret.
  { clear Hrun Hc Hall. induction Hr as [|c cfg Hr IH [_ ->]].
    - by intros i v ?%elem_of_nil.
    - intros i v [Hin|[Hres Hset]]%step_returned; [by apply IH|].
      pose proof (reaches_Flight _ _ _ _ _ Hnr Hr) as F.
      unfold resumed in Hres. unfold envOf in Hres, Hset. simpl in Hres, Hset.
      destruct (control cfg) as [|l| |] eqn:Hcl'; try done.
      rewrite Hres in Hset.
      destruct (flight_phase _ F l _ i _ Hcl' Hres) as (t & Ht & _).
      rewrite Ht in Hset.
      assert (is_Some (ts !! i)) as [t0 Ht0].
      { apply lookup_lt_is_Some.
        rewrite <- (proj1 (reaches_sameStatic _ _ _ _ _ Hnr Hr)).
        by eapply lookup_lt_Some. }
      destruct (proj2 (reaches_sameStatic _ _ _ _ _ Hnr Hr) i t0 Ht0)
        as (t' & Ht' & Hst).
      rewrite Ht in Ht'. inversion Ht'; subst t'.
      exists t0. split; [done|]. intros r. unfold executeTask.
      rewrite <- Hset. apply runAgent_agentType.
      by destruct Hst as (_ & _ & _ & ? & _). }
  intros i t0 Hi.
  destruct (proj2 (reaches_sameStatic _ _ _ _ _ Hnr Hr) i t0 Hi)
    as (t & Ht & Hst).
  destruct (Hall i t Ht) as (Hs & [v Hv] & _).
  pose proof (reaches_Recorded _ _ _ _ _ Hfresh Hr) as [_ [_ Hres]].
  pose proof (reaches_ResultsAgree _ _ _ _ _ Hfresh Hu Hr) as [Hag _].
  destruct (Hret i v (Hres i t v Ht Hv)) as (t0' & Ht0' & Hex).
  rewrite Hi in Ht0'. inversion Ht0'; subst t0'.
  exists t, v. split_and!; [done..| |done].
  rewrite <- (proj1 Hst), (Hag i t Ht). done.
Qed.

(** X9 on the web development plan of the decomposer, with a notifier
    whose messages are all accepted. *)
Lemma source_agents_complete_every_task_witness :
  let ts := decompose "webサイトを作成" in
  let answers := λ (_ : Phase) (_ : nat), Fulfilled AUndefined in
  (allFresh ts = true ∧ uniqueIds ts = true ∧ closedDeps ts = true ∧
   acyclic ts ∧
   ∀ ph i, ∃ v, notifierSettled reporting (answers ph i) = Fulfilled v) ∧
  ∃ cfg, (∀ fuel, 6 * length ts < fuel →
                  executeTaskDAG reporting (envOf (sourceAgents fifo answers)) fuel ts
                  = Some cfg) ∧
         control cfg = Returned ∧
         ∀ i t0, ts !! i = Some t0 →
                 ∃ t v, tasks cfg !! i = Some t ∧ status t = completed ∧
                        result t = Some v ∧ results cfg !! id t0 = Some v ∧
                        ∀ previousResults,
                          executeTask t0 previousResults = Fulfilled v.
Proof.
  intros ts answers.
  assert (acyclic ts) as Hacyc.
  { apply (ranked_acyclic (positionIn ts)). vm_compute. reflexivity. }
  assert (∀ ph i, ∃ v, notifierSettled reporting (answers ph i) = Fulfilled v)
    as Hok by (intros; by eexists).
  split; [split_and!; [vm_compute; reflexivity..|exact Hacyc|exact Hok]|].
  apply (source_agents_complete_every_task reporting fifo answers ts);
    [vm_compute; reflexivity..|exact Hacyc|exact Hok].
Defined.

(** * The task decomposer *)

Lemma prefix_app (p s : string) :
  String.prefix p s = true ↔ ∃ post, s = (p ++ post)%string.
Proof.
  revert s. induction p as [|a p IH]; intros s.
  - split; [intros _; by exists s|intros _; by destruct s].
  - destruct s as [|b s]; [split; [done|by intros [? ?]]|]. simpl.
    destruct (Ascii.ascii_dec a b) as [->|Hne].
    + rewrite IH. split; intros [post E]; exists post.
      * simpl. by rewrite E.
      * simpl in E. by inversion E.
    + split; [done|]. intros [post E]. simpl in E. by inversion E.
Qed.

(** [includes] is the search for a substring. *)
Lemma includes_spec (needle hay : string) :
  includes needle hay = true ↔
  ∃ pre post, hay = (pre ++ needle ++ post)%string.
Proof.
  induction hay as [|b hay IH].
  - change (includes needle "") with (String.prefix needle "" || false).
    rewrite orb_false_r, prefix_app. split.
    + intros [post E]. by exists EmptyString, post.
    + intros ([|a pre] & post & E); [by exists post|done].
  - change (includes needle (String b hay))
      with (String.prefix needle (String b hay) || includes needle hay).
    rewrite orb_true_iff, prefix_app, IH. split.
    + intros [[post E]|(pre & post & E)].
      * by exists EmptyString, post.
      * exists (String b pre), post. simpl. by rewrite E.
    + intros ([|a pre] & post & E).
      * left. by exists post.
      * right. simpl in E. inversion E; subst. by exists pre, post.
Qed.

Lemma analyzeAndDecompose_cases instruction :
  let keywords := extractKeywords instruction in
  analyzeAndDecompose instruction = decomposeWebDevelopment instruction keywords ∨
  analyzeAndDecompose instruction = decomposeApiDevelopment instruction keywords ∨
  analyzeAndDecompose instruction = decomposeDataAnalysis instruction keywords ∨
  analyzeAndDecompose instruction = decomposeAutomation instruction keywords ∨
  analyzeAndDecompose instruction = decomposeGeneral instruction.
Proof.
  intros keywords. unfold analyzeAndDecompose. fold keywords.
  unfold inferTaskType.
  destruct (hasKeyword "web" keywords && hasKeyword "frontend" keywords);
    [by left|].
  destruct (hasKeyword "api" keywords || hasKeyword "backend" keywords);
    [by right; left|].
  destruct (test analysisPattern instruction); [by right; right; left|].
  destruct (test automationPattern instruction); [by right; right; right; left|].
  by right; right; right; right.
Qed.

(** Every plan can be run: see [run_settles]. *)
Lemma decompose_runnable instruction :
  let ts := decompose instruction in
  length ts ≤ 6 ∧ allFresh ts = true ∧ uniqueIds ts = true ∧
  closedDeps ts = true ∧ acyclic ts.
Proof.
  intros ts.
  assert (length ts ≤ 6 ∧ allFresh ts = true ∧ uniqueIds ts = true ∧
          closedDeps ts = true ∧ ranked (positionIn ts) ts = true)
    as (Hl & Hf & Hu & Hc & Hr).
  { unfold ts, decompose, buildDAG.
    destruct (analyzeAndDecompose_cases instruction) as [E|[E|[E|[E|E]]]];
      rewrite E; split_and!; try (vm_compute; reflexivity); simpl; lia. }
  split_and!; try done. by apply (ranked_acyclic (positionIn ts)).
Qed.

(** X10.  Whatever the instruction is, the plan of the decomposer is a
    collection the coordinator can work with: four or six fresh tasks
    with distinct ids, every dependency naming a task that stands earlier
    in the list, and hence no dependency cycle. *)
Theorem decompose_well_formed instruction :
  let ts := decompose instruction in
  (length ts = 4 ∨ length ts = 6) ∧
  allFresh ts = true ∧ uniqueIds ts = true ∧ closedDeps ts = true ∧
  ranked (positionIn ts) ts = true ∧ acyclic ts.
Proof.
  intros ts.
  assert ((length ts = 4 ∨ length ts = 6) ∧
          allFresh ts = true ∧ uniqueIds ts = true ∧ closedDeps ts = true ∧
          ranked (positionIn ts) ts = true) as (Hl & Hf & Hu & Hc & Hr).
  { unfold ts, decompose, buildDAG.
    destruct (analyzeAndDecompose_cases instruction) as [E|[E|[E|[E|E]]]];
      rewrite E; split_and!; try (vm_compute; reflexivity);
      (by left) || (by right). }
  split_and!; try done. by apply (ranked_acyclic (positionIn ts)).
Qed.

(** Whether a keyword is among the extracted ones after one more
    [if (pattern.test(instruction)) keywords.push(...)]. *)
Lemma hasKeyword_pushIf k pattern instruction pushed keywords :
  hasKeyword k (pushIf pattern instruction pushed keywords)
  = hasKeyword k keywords || (test pattern instruction && hasKeyword k pushed).
Proof.
  unfold pushIf, hasKeyword. destruct (test pattern instruction); simpl.
  - rewrite <- bool_decide_or. apply bool_decide_ext, elem_of_app.
  - by rewrite orb_false_r.
Qed.

(** Evaluates [hasKeyword] on the keyword lists of the source. *)
Ltac keyword_lists :=
  repeat match goal with
         | |- context [hasKeyword ?k (?a :: ?l)] =>
             let b := eval vm_compute in (hasKeyword k (a :: l)) in
             change (hasKeyword k (a :: l)) with b
         | |- context [hasKeyword ?k []] =>
             change (hasKeyword k []) with false
         end;
  rewrite ?andb_false_r, ?andb_true_r, ?orb_false_r, ?orb_false_l.

Lemma extractKeywords_web instruction :
  hasKeyword "web" (extractKeywords instruction) = test webPattern instruction ∧
  hasKeyword "frontend" (extractKeywords instruction) = test webPattern instruction.
Proof.
  unfold extractKeywords. rewrite !hasKeyword_pushIf. by keyword_lists.
Qed.

Lemma extractKeywords_api instruction :
  hasKeyword "api" (extractKeywords instruction) = test apiPattern instruction ∧
  hasKeyword "backend" (extractKeywords instruction) = test apiPattern instruction.
Proof.
  unfold extractKeywords. rewrite !hasKeyword_pushIf. by keyword_lists.
Qed.

(** X11.  The plan is chosen by four substring tests on the instruction,
    in a fixed order of precedence: web before API before data analysis
    before automation, and the general plan when none applies.  The
    keywords [database], [create], [fix], [test] and [deploy] have no
    influence on it. *)
Theorem plan_chosen_by_precedence instruction :
  let keywords := extractKeywords instruction in
  inferTaskType instruction keywords =
    (if test webPattern instruction then "web_development"
     else if test apiPattern instruction then "api_development"
     else if test analysisPattern instruction then "data_analysis"
     else if test automationPattern instruction then "automation"
     else "general") ∧
  decompose instruction =
    (if test webPattern instruction
     then decomposeWebDevelopment instruction keywords
     else if test apiPattern instruction
     then decomposeApiDevelopment instruction keywords
     else if test analysisPattern instruction
     then decomposeDataAnalysis instruction keywords
     else if test automationPattern instruction
     then decomposeAutomation instruction keywords
     else decomposeGeneral instruction).
Proof.
  intros keywords.
  assert (inferTaskType instruction keywords =
          (if test webPattern instruction then "web_development"
           else if test apiPattern instruction then "api_development"
           else if test analysisPattern instruction then "data_analysis"
           else if test automationPattern instruction then "automation"
           else "general")) as E.
  { unfold keywords, inferTaskType.
    destruct (extractKeywords_web instruction) as [-> ->].
    destruct (extractKeywords_api instruction) as [-> ->].
    by destruct (test webPattern instruction), (test apiPattern instruction). }
  split; [exact E|].
  unfold decompose, buildDAG, analyzeAndDecompose. fold keywords. rewrite E.
  destruct (test webPattern instruction); [reflexivity|].
  destruct (test apiPattern instruction); [reflexivity|].
  destruct (test analysisPattern instruction); [reflexivity|].
  destruct (test automationPattern instruction); reflexivity.
Qed.

(** * The executor *)

(** Without client or chat id no progress is reported. *)
Lemma reportProgress_off lark larkClient chatId title progress details log :
  larkClient && truthy chatId = false →
  reportProgress lark larkClient chatId title progress details log
  = (Normal tt, log).
Proof.
  intros H. unfold reportProgress. destruct chatId; [|done]. by rewrite H.
Qed.


(** The plan of every instruction is run to the end within 37 steps
    when the notifiers are off. *)
Lemma plan_runs_unconfigured this env fuel instruction :
  notifierActive this = false → 36 < fuel →
  ∃ cfg, executeTaskDAG this env fuel (decompose instruction) = Some cfg ∧
         control cfg = Returned ∧
         reaches this (mkTaskMap (decompose instruction)) anyChoice
                 (initial (decompose instruction)) cfg ∧
         ∀ i t, tasks cfg !! i = Some t →
                status t = completed ∨ status t = failed.
Proof.
  intros Hoff Hfuel.
  destruct (decompose_runnable instruction) as (Hl & Hf & Hu & Hc & Hacyc).
  destruct (run_settles this anyChoice env (decompose instruction) Hf Hc Hacyc)
    as (cfg & Hrun & Hr & Hend); [done|].
  exists cfg. split; [apply Hrun; lia|].
  destruct Hend as [[Hret Hterm]|[Hon _]]; [done|congruence].
Qed.

(** X12.  Without a Lark client [executeMiyabiTask] issues no Lark call
    and always resolves, with [success: true]: for every instruction,
    whatever the chat id is and however the agents settle, the plan is run
    to the end within 37 steps and [steps] holds its tasks, each completed
    or failed.  With the agents of the source every step is completed and
    has its result in [results]. *)
Theorem miyabi_without_client_resolves lark env fuel instruction chatId agentType :
  36 < fuel →
  ∃ r, executeMiyabiTask lark env fuel
         (Params.mk instruction chatId agentType false) []
       = (Normal r, []) ∧
       Result.success r = true ∧
       length (Result.steps r) = length (decompose instruction) ∧
       (∀ i t, Result.steps r !! i = Some t →
               status t = completed ∨ status t = failed) ∧
       (∀ sched answers, env = envOf (sourceAgents sched answers) →
          ∀ i t, Result.steps r !! i = Some t →
                 status t = completed ∧ is_Some (result t) ∧
                 Result.results r !! id t = result t).
Proof.
  intros Hfuel. set (this := mkCoordinator false chatId).
  assert (notifierActive this = false) as Hoff by done.
  destruct (plan_runs_unconfigured this env fuel instruction Hoff Hfuel)
    as (cfg & Hrun & Hret & Hr & Hterm).
  destruct (decompose_runnable instruction) as (Hl & Hf & Hu & Hc & Hacyc).
  pose proof (allFresh_noneRunning _ Hf) as Hnr.
  exists (Result.mk true (tasks cfg) (results cfg) (createDeliverable (results cfg))).
  split_and!.
  - unfold executeMiyabiTask, tryCatch, mbind, Async_bind, bind.
    cbn [Params.instruction Params.chatId Params.larkClient].
    rewrite !reportProgress_off by done.
    unfold awaitTaskDAG. fold this. rewrite Hrun, Hret. unfold ret.
    rewrite !reportProgress_off by done. simpl.
    rewrite !reportProgress_off by done. reflexivity.
  - done.
  - simpl. apply (reaches_sameStatic _ _ _ _ _ Hnr Hr).
  - exact Hterm.
  - intros sched answers -> i t Hi. simpl in Hi |- *.
    destruct (run_all_complete this (neverRejects this)
                (envOf (sourceAgents sched answers)) (decompose instruction)
                Hf Hc Hacyc) as (cfg' & Hrun' & _ & _ & Hall); [done| |].
    { intros c. apply envOf_neverRejects.
      - intros u deps. by eexists.
      - intros ph j. exists AUndefined. unfold notifierSettled. by rewrite Hoff. }
    assert (cfg' = cfg) as ->.
    { assert (Some cfg = Some cfg') as H; [|by inversion H].
      rewrite <- Hrun. apply Hrun'. lia. }
    destruct (Hall i t Hi) as (Hs & Hres & _). split_and!; [done..|].
    pose proof (reaches_ResultsAgree _ _ _ _ _ Hf Hu Hr) as [Hag _].
    exact (Hag i t Hi).
Qed.

(** X12 for the instruction [hello], a Lark oracle that refuses every
    call and agents of which the one of [plan] fails. *)
Lemma miyabi_without_client_resolves_witness :
  let lark := λ _ _, Refused "down" in
  let env := envOf (failingAgent "plan") in
  36 < 37 ∧
  ∃ r, executeMiyabiTask lark env 37 (Params.mk "hello" (Some "oc_chat") None false) []
       = (Normal r, []) ∧
       Result.success r = true ∧
       length (Result.steps r) = length (decompose "hello") ∧
       (∀ i t, Result.steps r !! i = Some t →
               status t = completed ∨ status t = failed) ∧
       (∀ sched answers, env = envOf (sourceAgents sched answers) →
          ∀ i t, Result.steps r !! i = Some t →
                 status t = completed ∧ is_Some (result t) ∧
                 Result.results r !! id t = result t).
Proof.
  intros lark env. split; [lia|].
  apply (miyabi_without_client_resolves lark env 37 "hello" (Some "oc_chat") None).
  lia.
Defined.

(** X13.  With a Lark client but without chat id (none, or the empty
    string) no progress is reported and the coordinator sends nothing,
    yet the report document is created and the closing message is sent,
    addressed to no chat.  If Lark refuses one of the two calls,
    [executeMiyabiTask] is rejected with that error, and no failure
    report is sent. *)
Theorem miyabi_without_chat_id lark env fuel instruction chatId agentType :
  truthy chatId = false → 36 < fuel →
  let run := executeMiyabiTask lark env fuel
               (Params.mk instruction chatId agentType true) [] in
  let document := CreateDocument ("Miyabi Report: " ++ instruction) in
  match lark [] document with
  | Refused msg => run = (Thrown msg, [document])
  | Accepted documentId =>
      let message := SendMessage chatId "text"
                       (completionText instruction (reportUrl documentId)) in
      match lark [document] message with
      | Refused msg => run = (Thrown msg, [document; message])
      | Accepted _ =>
          ∃ r, run = (Normal r, [document; message]) ∧
               Result.success r = true ∧
               ∀ i t, Result.steps r !! i = Some t →
                      status t = completed ∨ status t = failed
      end
  end.
Proof.
  intros Hchat Hfuel run document. set (this := mkCoordinator true chatId).
  assert (notifierActive this = false) as Hoff.
  { unfold notifierActive, this. simpl. by destruct chatId. }
  destruct (plan_runs_unconfigured this env fuel instruction Hoff Hfuel)
    as (cfg & Hrun & Hret & Hr & Hterm).
  assert (run = match lark [] document with
                | Refused msg => (Thrown msg, [document])
                | Accepted documentId =>
                    let message := SendMessage chatId "text"
                          (completionText instruction (reportUrl documentId)) in
                    match lark [document] message with
                    | Refused msg => (Thrown msg, [document; message])
                    | Accepted _ =>
                        (Normal (Result.mk true (tasks cfg) (results cfg)
                                   (createDeliverable (results cfg))),
                         [document; message])
                    end
                end) as E.
  { unfold run, executeMiyabiTask, tryCatch, mbind, Async_bind, bind.
    cbn [Params.instruction Params.chatId Params.larkClient].
    rewrite !reportProgress_off by (by rewrite Hchat).
    unfold awaitTaskDAG. fold this. rewrite Hrun, Hret. unfold ret.
    rewrite !reportProgress_off by (by rewrite Hchat). simpl.
    rewrite !reportProgress_off by (by rewrite Hchat).
    unfold createLarkReport, mbind, Async_bind, bind, call. simpl.
    fold document. destruct (lark [] document) as [d|m]; simpl.
    - destruct (lark [document] _) as [d'|m]; simpl; [done|].
      by rewrite !reportProgress_off by (by rewrite Hchat).
    - by rewrite !reportProgress_off by (by rewrite Hchat). }
  rewrite E. destruct (lark [] document) as [d|m]; [|done]. simpl.
  destruct (lark [document] _) as [d'|m]; [|done].
  eexists. split_and!; [done..|]. exact Hterm.
Qed.

(** X13 for the instruction [hello], no chat id and a Lark oracle that
    accepts every call. *)
Lemma miyabi_without_chat_id_witness :
  let lark := λ _ _, Accepted "doc1" in
  let env := envOf larkUp in
  let run := executeMiyabiTask lark env 37 (Params.mk "hello" None None true) [] in
  let document := CreateDocument "Miyabi Report: hello" in
  let message := SendMessage None "text" (completionText "hello" (reportUrl "doc1")) in
  (truthy None = false ∧ 36 < 37) ∧
  ∃ r, run = (Normal r, [document; message]) ∧
       Result.success r = true ∧
       ∀ i t, Result.steps r !! i = Some t →
              status t = completed ∨ status t = failed.
Proof.
  intros lark env run document message. split; [split; [reflexivity|lia]|].
  apply (miyabi_without_chat_id lark env 37 "hello" None None); [reflexivity|lia].
Defined.



(** Replaces the string literals of the goal by variables. *)
Ltac hide_strings :=
  repeat match goal with
         | |- context [String ?a ?s] =>
             let x := fresh "text" in
             generalize (String a s); intro x
         end.

(** X15.  The progress cards of a run are sent in the order 0, 10, 80,
    90, 100 and each at most once; the card of the automatic repair (85)
    is never sent.  A call that resolves has sent all five; a call that
    is rejected has sent the first [n] of them, followed by the failure
    report (progress 0); without client or chat id no card is sent at
    all. *)
Theorem miyabi_progress_protocol lark env fuel params :
  let '(c, log) := executeMiyabiTask lark env fuel params [] in
  if Params.larkClient params && truthy (Params.chatId params)
  then match c with
       | Normal _ => progressValues log = [0; 10; 80; 90; 100]
       | Thrown _ => ∃ n, 0 < n ∧
                        progressValues log
                        = (take n [0; 10; 80; 90; 100] ++ [0])%list
       | Unsettled => progressValues log = [0; 10]
       end
  else progressValues log = [].
Proof.
  destruct params as [instruction chatId agentType larkClient].
  cbn [Params.instruction Params.chatId Params.larkClient].
  unfold executeMiyabiTask, tryCatch, mbind, Async_bind, bind.
  cbn [Params.instruction Params.chatId Params.larkClient].
  destruct (larkClient && truthy chatId) eqn:Hcfg.
  - apply andb_true_iff in Hcfg as [-> Hchat]. destruct chatId as [chat|]; [|done].
    unfold reportProgress, awaitTaskDAG, createLarkReport.
    rewrite Hchat. cbn [andb]. clear Hchat.
    unfold mbind, Async_bind, bind, call, ret, throw.
    hide_strings.
    repeat (match goal with
            | |- context [lark ?l ?c] => destruct (lark l c) as [?|?]
            | |- context [executeTaskDAG ?a ?b ?c ?d] =>
                destruct (executeTaskDAG a b c d) as [cfg|]
            | |- context [control ?cfg] => destruct (control cfg)
            end;
            cbn -[decompose decomposedDetails completionText failureDetails
                  failureTitle]).
    all: try reflexivity.
    all: first [by exists 1; split; [lia|]|by exists 2; split; [lia|]
               |by exists 3; split; [lia|]|by exists 4; split; [lia|]
               |by exists 5; split; [lia|]].
  - unfold awaitTaskDAG, createLarkReport.
    unfold mbind, Async_bind, bind, call, ret, throw.
    hide_strings.
    repeat (rewrite ?reportProgress_off by done;
            match goal with
            | |- context [lark ?l ?c] => destruct (lark l c) as [?|?]
            | |- context [executeTaskDAG ?a ?b ?c ?d] =>
                destruct (executeTaskDAG a b c d) as [cfg|]
            | |- context [control ?cfg] => destruct (control cfg)
            | |- context [if larkClient then _ else _] =>
                destruct larkClient; simpl in Hcfg
            end;
            cbn -[decompose decomposedDetails completionText failureDetails
                  failureTitle reportProgress]).
    all: rewrite ?reportProgress_off by done.
    all: reflexivity.
Qed.

(** * The Lark client *)

Lemma getAccessToken_hit later fetched (c : Lark.LarkClient) :
  Lark.accessToken c ≠ "" → (later < Lark.tokenExpireTime c)%Z →
  Lark.getAccessToken later fetched c
  = Lark.mkOutcome (Normal (Lark.accessToken c)) c [].
Proof.
  intros Hne Hl. unfold Lark.getAccessToken.
  apply String.eqb_neq in Hne. apply Z.ltb_lt in Hl. by rewrite Hne, Hl.
Qed.

Lemma getAccessToken_miss later fetched (c : Lark.LarkClient) :
  (later <? Lark.tokenExpireTime c)%Z = false →
  Lark.requests (Lark.getAccessToken later fetched c) = [Lark.TokenRequest].
Proof.
  intros Hl. unfold Lark.getAccessToken.
  rewrite Hl, andb_false_r. destruct fetched as [b|e]; [|done].
  destruct (negb (Lark.code b =? 0)%Z); [done|].
  destruct (Lark.tenant_access_token b) as [tk|]; [|done].
  by destruct (String.eqb tk "").
Qed.

Lemma getAccessToken_fetched now body this token :
  Lark.completion (Lark.getAccessToken now (Lark.Answered body) this)
  = Normal token →
  Lark.requests (Lark.getAccessToken now (Lark.Answered body) this)
  = [Lark.TokenRequest] →
  Lark.tenant_access_token body = Some token ∧ token ≠ "" ∧
  Lark.after (Lark.getAccessToken now (Lark.Answered body) this)
  = Lark.mkClient token
      (now + (Lark.numberOr (Lark.expire body) 7200 - 300) * 1000)%Z.
Proof.
  unfold Lark.getAccessToken.
  destruct (negb (String.eqb (Lark.accessToken this) "") &&
            (now <? Lark.tokenExpireTime this)%Z); [done|].
  destruct (negb (Lark.code body =? 0)%Z); [done|].
  destruct (Lark.tenant_access_token body) as [tk|]; [|done].
  destruct (String.eqb tk "") eqn:Etk; [done|]. simpl.
  intros H _. inversion H; subst tk. split_and!; [done| |done].
  by apply String.eqb_neq.
Qed.

Lemma getAccessToken_nonempty now fetched this token :
  Lark.completion (Lark.getAccessToken now fetched this) = Normal token →
  token ≠ "".
Proof.
  unfold Lark.getAccessToken.
  destruct (String.eqb (Lark.accessToken this) "") eqn:Hne; simpl.
  - destruct fetched as [b|e]; [|done].
    destruct (negb (Lark.code b =? 0)%Z); [done|].
    destruct (Lark.tenant_access_token b) as [tk|]; [|done].
    destruct (String.eqb tk "") eqn:Etk; [done|]. simpl.
    intros H. inversion H; subst. by apply String.eqb_neq.
  - destruct (now <? Lark.tokenExpireTime this)%Z; simpl.
    + intros H. inversion H; subst. by apply String.eqb_neq.
    + destruct fetched as [b|e]; [|done].
      destruct (negb (Lark.code b =? 0)%Z); [done|].
      destruct (Lark.tenant_access_token b) as [tk|]; [|done].
      destruct (String.eqb tk "") eqn:Etk; [done|]. simpl.
      intros H. inversion H; subst. by apply String.eqb_neq.
Qed.

(** X16.  [getAccessToken] never yields the empty token; a rejected call
    leaves the client as it was; and a token that was fetched at [now]
    with a lifetime of [expire] seconds (7200 when the response names
    none) is served from the cache, without a request, by every call
    earlier than [now + (expire - 300) * 1000], and fetched again by
    every other call: with a lifetime of 300 seconds or less no later
    call is served from the cache. *)
Theorem access_token_cache now fetched this :
  let o := Lark.getAccessToken now fetched this in
  (∀ token, Lark.completion o = Normal token → token ≠ "") ∧
  (∀ error, Lark.completion o = Thrown error → Lark.after o = this) ∧
  (∀ body token,
     fetched = Lark.Answered body →
     Lark.completion o = Normal token →
     Lark.requests o = [Lark.TokenRequest] →
     ∀ later fetched',
       let o' := Lark.getAccessToken later fetched' (Lark.after o) in
       let lifetime := Lark.numberOr (Lark.expire body) 7200 in
       (if (later <? now + (lifetime - 300) * 1000)%Z
        then o' = Lark.mkOutcome (Normal token) (Lark.after o) []
        else Lark.requests o' = [Lark.TokenRequest]) ∧
       ((lifetime ≤ 300)%Z → (now ≤ later)%Z →
        Lark.requests o' = [Lark.TokenRequest])).
Proof.
  intros o. split_and!.
  - intros token. apply getAccessToken_nonempty.
  - intros error. unfold o, Lark.getAccessToken.
    destruct (negb (String.eqb (Lark.accessToken this) "") &&
              (now <? Lark.tokenExpireTime this)%Z); [done|].
    destruct fetched as [b|e]; [|done].
    destruct (negb (Lark.code b =? 0)%Z); [done|].
    destruct (Lark.tenant_access_token b) as [tk|]; [|done].
    by destruct (String.eqb tk "").
  - intros body token -> Hc Hreq later fetched'.
    destruct (getAccessToken_fetched now body this token Hc Hreq)
      as (_ & Hne & Hafter).
    fold o in Hafter. rewrite Hafter. cbv zeta. split.
    + destruct (later <? _)%Z eqn:Hl.
      * apply Z.ltb_lt in Hl. by rewrite getAccessToken_hit.
      * by apply getAccessToken_miss.
    + intros Hlife Hlater. apply getAccessToken_miss. simpl.
      apply Z.ltb_ge. lia.
Qed.

(** X16 for a new client whose first call, at time 0, fetches a token
    of the default lifetime, and for a second call a second later. *)
Lemma access_token_cache_witness :
  let body := Lark.mkResponse 0 None AUndefined (Some "t-1") None in
  let o := Lark.getAccessToken 0 (Lark.Answered body) Lark.new in
  (Lark.completion o = Normal "t-1" ∧ Lark.requests o = [Lark.TokenRequest]) ∧
  Lark.getAccessToken 1000 (Lark.Failed "offline") (Lark.after o)
  = Lark.mkOutcome (Normal "t-1") (Lark.after o) [].
Proof.
  intros body o.
  assert (Lark.completion o = Normal "t-1") as Hc by reflexivity.
  assert (Lark.requests o = [Lark.TokenRequest]) as Hr by reflexivity.
  split; [by split|].
  destruct (access_token_cache 0 (Lark.Answered body) Lark.new) as (_ & _ & H).
  exact (proj1 (H body "t-1" eq_refl Hc Hr 1000%Z (Lark.Failed "offline"))).
Defined.

(** X17.  Two messages in a row share the token: when [sendMessage]
    fetched a token and resolved, a second [sendMessage] earlier than the
    end of the cached lifetime makes one request only, the message
    request with that token, leaves the client as it is, and resolves or
    rejects as that request is answered. *)
Theorem consecutive_messages_share_token
        now body sent receive_id msg_type content this
        later auth' sent' receive_id' msg_type' content' v :
  let first := Lark.sendMessage now (Lark.Answered body) sent
                 receive_id msg_type content this in
  Lark.completion first = Normal v →
  head (Lark.requests first) = Some Lark.TokenRequest →
  (later < now + (Lark.numberOr (Lark.expire body) 7200 - 300) * 1000)%Z →
  let second := Lark.sendMessage later auth' sent' receive_id' msg_type' content'
                  (Lark.after first) in
  ∃ token,
    Lark.tenant_access_token body = Some token ∧
    Lark.requests first
    = [Lark.TokenRequest; Lark.MessageRequest token receive_id msg_type content] ∧
    Lark.requests second
    = [Lark.MessageRequest token receive_id' msg_type' content'] ∧
    Lark.after second = Lark.after first ∧
    Lark.completion second
    = match sent' with
      | Lark.Failed error => Thrown error
      | Lark.Answered body' =>
          if negb (Lark.code body' =? 0)%Z
          then Thrown ("Failed to send message: " ++
                       Lark.stringOr (Lark.msg body') "Unknown error")
          else Normal (Lark.data body')
      end.
Proof.
  intros first Hc Hhead Hlater second.
  unfold first, Lark.sendMessage in Hc, Hhead.
  destruct (Lark.completion (Lark.getAccessToken now (Lark.Answered body) this))
    as [token| |] eqn:Htok; try done.
  assert (Lark.requests (Lark.getAccessToken now (Lark.Answered body) this)
          = [Lark.TokenRequest]) as Hreq.
  { destruct (Lark.requests (Lark.getAccessToken now (Lark.Answered body) this))
      as [|r rs] eqn:E.
    - destruct sent as [b|e]; [destruct (negb (Lark.code b =? 0)%Z)|]; done.
    - unfold Lark.getAccessToken in E.
      destruct (negb (String.eqb (Lark.accessToken this) "") &&
                (now <? Lark.tokenExpireTime this)%Z); [done|].
      destruct (negb (Lark.code body =? 0)%Z); [by inversion E|].
      destruct (Lark.tenant_access_token body) as [tk|]; [|by inversion E].
      destruct (String.eqb tk ""); by inversion E. }
  destruct (getAccessToken_fetched now body this token Htok Hreq)
    as (Htk & Hne & Hafter).
  assert (Lark.after first
          = Lark.mkClient token
              (now + (Lark.numberOr (Lark.expire body) 7200 - 300) * 1000)%Z
          ∧ Lark.requests first
            = [Lark.TokenRequest;
               Lark.MessageRequest token receive_id msg_type content])
    as [Ha Hr].
  { unfold first, Lark.sendMessage. rewrite Htok, Hreq, Hafter.
    destruct sent as [b|e]; [destruct (negb (Lark.code b =? 0)%Z)|]; done. }
  exists token. split_and!; [done..| | |];
    unfold second, Lark.sendMessage; rewrite Ha;
    rewrite getAccessToken_hit by done; simpl;
    destruct sent' as [b|e]; [destruct (negb (Lark.code b =? 0)%Z)| |
                              destruct (negb (Lark.code b =? 0)%Z)| |
                              destruct (negb (Lark.code b =? 0)%Z)|]; done.
Qed.

(** X17 for a new client that sends one message at time 0, with a token
    of the default lifetime, and a second one a second later whose
    request fails. *)
Lemma consecutive_messages_share_token_witness :
  let body := Lark.mkResponse 0 None AUndefined (Some "t-1") None in
  let sent := Lark.Answered (Lark.mkResponse 0 None (AStr "om_1") None None) in
  let first := Lark.sendMessage 0 (Lark.Answered body) sent
                 "oc_chat" "text" "a" Lark.new in
  let second := Lark.sendMessage 1000 (Lark.Failed "unused") (Lark.Failed "offline")
                  "oc_chat" "text" "b" (Lark.after first) in
  (Lark.completion first = Normal (AStr "om_1") ∧
   head (Lark.requests first) = Some Lark.TokenRequest ∧
   (1000 < 0 + (Lark.numberOr (Lark.expire body) 7200 - 300) * 1000)%Z) ∧
  ∃ token,
    Lark.tenant_access_token body = Some token ∧
    Lark.requests first
    = [Lark.TokenRequest; Lark.MessageRequest token "oc_chat" "text" "a"] ∧
    Lark.requests second = [Lark.MessageRequest token "oc_chat" "text" "b"] ∧
    Lark.after second = Lark.after first ∧
    Lark.completion second = Thrown "offline".
Proof.
  intros body sent first second.
  assert ((1000 < 0 + (Lark.numberOr (Lark.expire body) 7200 - 300) * 1000)%Z)
    as Hlater by (vm_compute; reflexivity).
  split; [split_and!; [reflexivity..|exact Hlater]|].
  apply (consecutive_messages_share_token 0 body sent "oc_chat" "text" "a"
           Lark.new 1000 (Lark.Failed "unused") (Lark.Failed "offline")
           "oc_chat" "text" "b" (AStr "om_1")); [reflexivity..|exact Hlater].
Defined.

(** ** Markdown to blocks *)

Lemma split_nonempty s : Lark.split s ≠ [].
Proof.
  destruct s as [|c s]; simpl; [done|].
  destruct (Ascii.eqb c Lark.lineFeed); [done|]. by destruct (Lark.split s).
Qed.

Lemma concat_cons sep (x y : string) (l : list string) :
  String.concat sep (x :: y :: l) = (x ++ sep ++ String.concat sep (y :: l))%string.
Proof. done. Qed.

Lemma split_concat s :
  String.concat (String Lark.lineFeed EmptyString) (Lark.split s) = s.
Proof.
  induction s as [|c s IH]; [done|]. simpl.
  destruct (Ascii.eqb c Lark.lineFeed) eqn:Ec.
  - apply Ascii.eqb_eq in Ec as ->.
    pose proof (split_nonempty s) as Hne.
    destruct (Lark.split s) as [|y l]; [done|].
    rewrite concat_cons, IH. done.
  - pose proof (split_nonempty s) as Hne.
    destruct (Lark.split s) as [|y l]; [done|].
    destruct l as [|z l].
    + simpl in *. by rewrite IH.
    + rewrite concat_cons in IH |- *. by rewrite <- IH.
Qed.

(** The loop appends the blocks of every line. *)
Lemma markdownToLarkBlocks_loop (acc : list Lark.Block) (lines : list string) :
  foldl (λ (blocks : list Lark.Block) line,
           if String.prefix "# " line
           then (blocks ++ [Lark.mkBlock 1 (Lark.substring 2 line)])%list
           else if String.prefix "## " line
           then (blocks ++ [Lark.mkBlock 2 (Lark.substring 3 line)])%list
           else if negb (Lark.blank line)
           then (blocks ++ [Lark.mkBlock 3 line])%list
           else blocks)
        acc lines
  = (acc ++ flat_map (λ line,
                if String.prefix "# " line then [Lark.mkBlock 1 (Lark.substring 2 line)]
                else if String.prefix "## " line then [Lark.mkBlock 2 (Lark.substring 3 line)]
                else if negb (Lark.blank line) then [Lark.mkBlock 3 line]
                else []) lines)%list.
Proof.
  revert acc. induction lines as [|line lines IH]; intros acc; simpl.
  - by rewrite app_nil_r.
  - rewrite IH.
    destruct (String.prefix "# " line); [by rewrite <- app_assoc|].
    destruct (String.prefix "## " line); [by rewrite <- app_assoc|].
    destruct (negb (Lark.blank line)); [by rewrite <- app_assoc|done].
Qed.

(** X18.  [markdownToLarkBlocks] keeps the lines of the text in their
    order and drops blank lines only: rendering every block back ([# ]
    before a heading of level 1, [## ] before one of level 2, the text
    itself otherwise) gives the lines of the text that are headings or
    not blank, and joining the lines of a text by line feeds gives the
    text back.  Every block has type 1, 2 or 3; deeper headings are
    text blocks. *)
Theorem markdown_blocks_round_trip markdown :
  let blocks := Lark.markdownToLarkBlocks markdown in
  Lark.rendered <$> blocks = List.filter Lark.kept (Lark.split markdown) ∧
  String.concat (String Lark.lineFeed EmptyString) (Lark.split markdown) = markdown ∧
  ∀ b, b ∈ blocks → 1 ≤ Lark.block_type b ≤ 3.
Proof.
  intros blocks. unfold blocks, Lark.markdownToLarkBlocks.
  rewrite markdownToLarkBlocks_loop, app_nil_l.
  split_and!.
  - induction (Lark.split markdown) as [|line lines IH]; [done|].
    cbn [flat_map List.filter]. rewrite fmap_app, IH. unfold Lark.kept.
    destruct (String.prefix "# " line) eqn:H1.
    { apply prefix_app in H1 as [post ->]. done. }
    destruct (String.prefix "## " line) eqn:H2.
    { apply prefix_app in H2 as [post ->]. done. }
    by destruct (negb (Lark.blank line)).
  - apply split_concat.
  - intros b Hb. apply list_elem_of_In, in_flat_map in Hb as (line & _ & Hb).
    apply list_elem_of_In in Hb.
    destruct (String.prefix "# " line);
      [apply list_elem_of_singleton in Hb as ->; simpl; lia|].
    destruct (String.prefix "## " line);
      [apply list_elem_of_singleton in Hb as ->; simpl; lia|].
    destruct (negb (Lark.blank line));
      [apply list_elem_of_singleton in Hb as ->; simpl; lia|].
    by apply elem_of_nil in Hb.
Qed.
